(** * UniHelp ingestion pipeline: a shallow embedding and its properties

    The development follows the Python sources of the repository:
    - [Py], [PyObj]      the fragment of Python's [str], [list], [dict] and [re]
                         behaviour the sources rely on, with exceptions and
                         JSON-like values;
    - [simple_chunker]   src/src/simple_chunker.py;
    - [pdf_extractor]    src/src/pdf_extractor.py;
    - [chunker]          src/src/chunker.py;
    - [Net]              computations that send HTTP requests;
    - [qdrant_rest]      src/src/qdrant_rest.py;
    - [ingest]           src/src/ingest.py.

    Characters are code points below 256 (the type [ascii]); a Python [str]
    is a list of them.  Python integers are [Z]. *)

From Stdlib Require Import List Ascii String ZArith Lia Bool Arith Floats Uint63.
Import ListNotations.


(** ** Python values and primitives *)

Module Py.

Definition str := list ascii.

(** A literal of the sources, written as a Rocq string. *)
Definition lit (s : string) : str := list_ascii_of_string s.

(** Truthiness of a string or list: non-empty. *)
Definition truthy {A} (l : list A) : bool :=
  match l with [] => false | _ :: _ => true end.

(** [str.isspace] on one character, restricted to code points below 256:
    TAB, LF, VT, FF, CR, FS, GS, RS, US, SPACE, NEL and NBSP.  The same
    predicate is what [\s] matches in a [str] pattern of [re]. *)
Definition isspace (c : ascii) : bool :=
  let n := nat_of_ascii c in
  ((9 <=? n) && (n <=? 13)) || ((28 <=? n) && (n <=? 32))
  || (n =? 133) || (n =? 160).

Definition newline : ascii := "010"%char.
Definition space : ascii := " "%char.

Definition is_newline (c : ascii) : bool := Ascii.eqb c newline.

(** The character class [[.!?]]. *)
Definition is_terminator (c : ascii) : bool :=
  Ascii.eqb c "."%char || Ascii.eqb c "!"%char || Ascii.eqb c "?"%char.

Fixpoint takewhile {A} (p : A -> bool) (l : list A) : list A :=
  match l with
  | [] => []
  | x :: r => if p x then x :: takewhile p r else []
  end.

Fixpoint dropwhile {A} (p : A -> bool) (l : list A) : list A :=
  match l with
  | [] => []
  | x :: r => if p x then dropwhile p r else l
  end.

(** [s.split()]: the maximal runs of non-whitespace characters.  [word]
    holds the characters of the run being read, last one first. *)
Fixpoint split_from (s : str) (word : str) : list str :=
  match s with
  | [] => match word with [] => [] | _ => [rev word] end
  | c :: r =>
      if isspace c
      then match word with
           | [] => split_from r []
           | _ => rev word :: split_from r []
           end
      else split_from r (c :: word)
  end.

Definition split (s : str) : list str := split_from s [].

(** [len(x)] as a Python integer. *)
Definition len {A} (l : list A) : Z := Z.of_nat (List.length l).

Definition lstrip (s : str) : str := dropwhile isspace s.
Definition rstrip (s : str) : str := rev (dropwhile isspace (rev s)).
(** [s.strip()] *)
Definition strip (s : str) : str := rstrip (lstrip s).

(** [sep.join(l)] *)
Fixpoint join (sep : str) (l : list str) : str :=
  match l with
  | [] => []
  | [x] => x
  | x :: r => x ++ sep ++ join sep r
  end.

(** The slice [l[start:]] for an arbitrary integer [start]: a negative
    start counts from the end, and both directions are clamped. *)
Definition slice_from {A} (start : Z) (l : list A) : list A :=
  let n := len l in
  let i := if (start <? 0)%Z then Z.max 0 (start + n) else Z.min start n in
  skipn (Z.to_nat i) l.

(** The slice [l[-n:]]; note that [-0] is [0], so [l[-0:]] is all of [l]. *)
Definition last_n {A} (n : Z) (l : list A) : list A := slice_from (- n) l.

(** [needle in hay] for strings. *)
Fixpoint startswith (prefix s : str) : bool :=
  match prefix, s with
  | [], _ => true
  | _ :: _, [] => false
  | a :: p, b :: r => Ascii.eqb a b && startswith p r
  end.

Fixpoint contains (needle hay : str) : bool :=
  startswith needle hay ||
  match hay with
  | [] => false
  | _ :: r => contains needle r
  end.

Definition endswith (suffix s : str) : bool :=
  startswith (rev suffix) (rev s).

Fixpoint str_eqb (a b : str) : bool :=
  match a, b with
  | [], [] => true
  | x :: a', y :: b' => Ascii.eqb x y && str_eqb a' b'
  | _, _ => false
  end.

(** *** [re.split]

    [re.split(pattern, s)] for a pattern that never matches the empty
    string: scan [s] from the left; at the first position where the
    pattern matches, close the current piece, jump over the match and go
    on.  [match_at s] is the length of the match that starts at the head
    of [s], if there is one.  [skip] counts the characters of the current
    match still to jump over; [piece] holds the current piece, last
    character first. *)
Section re_split.
Variable match_at : str -> option nat.

Fixpoint re_split_from (s : str) (skip : nat) (piece : str) : list str :=
  match s with
  | [] => [rev piece]
  | c :: r =>
      match skip with
      | S k => re_split_from r k piece
      | O =>
          match match_at s with
          | Some (S n) => rev piece :: re_split_from r n []
          | _ => re_split_from r 0 (c :: piece)
          end
      end
  end.

Definition re_split (s : str) : list str := re_split_from s 0 [].
End re_split.

(** Index of the last newline of [run], if it has one. *)
Fixpoint last_newline (run : str) : option nat :=
  match run with
  | [] => None
  | c :: r =>
      match last_newline r with
      | Some j => Some (S j)
      | None => if is_newline c then Some O else None
      end
  end.

(** The pattern [\n\s*\n] at the head of [s]: a newline, then the greedy
    [\s*] keeps as much of the following whitespace run as still leaves a
    newline of that run to close the match. *)
Definition match_blank_line (s : str) : option nat :=
  match s with
  | c :: r =>
      if is_newline c
      then match last_newline (takewhile isspace r) with
           | Some j => Some (j + 2)
           | None => None
           end
      else None
  | [] => None
  end.

(** The pattern [[.!?]+\s+] at the head of [s]: the whole run of
    terminators, then the whole run of whitespace, both non-empty. *)
Definition match_sentence_end (s : str) : option nat :=
  let p := List.length (takewhile is_terminator s) in
  let w := List.length (takewhile isspace (skipn p s)) in
  if (0 <? p) && (0 <? w) then Some (p + w) else None.

End Py.

(** ** src/src/simple_chunker.py *)

Module simple_chunker.
Import Py.

Record Chunk := mkChunk { text : str; token_count : Z }.

(** [Chunk.__init__]: [token_count or len(text.split())]. *)
Definition Chunk_init (text : str) (token_count : Z) : Chunk :=
  mkChunk text (if (token_count =? 0)%Z then len (split text) else token_count).

Record SimpleTokenChunker := mkChunker { chunk_size : Z; chunk_overlap : Z }.

(** The three loop variables of [chunk]. *)
Record state := mkState {
  chunks : list Chunk;
  current_chunk : str;
  current_tokens : Z
}.

Section chunk.
Variable self : SimpleTokenChunker.

(** Body of the loop over the sentences of an oversized paragraph. *)
Definition sentence_step (st : state) (sentence : str) : state :=
  if negb (truthy (strip sentence)) then st
  else
    let sentence_tokens := len (split sentence) in
    if (current_tokens st + sentence_tokens >? chunk_size self)%Z
       && truthy (current_chunk st)
    then
      let overlap_text :=
        join (lit " ") (last_n (chunk_overlap self) (split (current_chunk st))) in
      let current_chunk' :=
        if truthy overlap_text
        then overlap_text ++ lit " " ++ sentence
        else sentence in
      mkState (chunks st ++ [Chunk_init (current_chunk st) (current_tokens st)])
              current_chunk'
              (len (split current_chunk'))
    else
      mkState (chunks st)
              (if truthy (current_chunk st)
               then current_chunk st ++ lit " " ++ sentence
               else sentence)
              (current_tokens st + sentence_tokens).

(** Body of the loop over the paragraphs. *)
Definition paragraph_step (st : state) (paragraph : str) : state :=
  let paragraph_tokens := len (split paragraph) in
  if (paragraph_tokens >? chunk_size self)%Z then
    let sentences := re_split match_sentence_end paragraph in
    fold_left sentence_step sentences st
  else if (current_tokens st + paragraph_tokens >? chunk_size self)%Z
          && truthy (current_chunk st)
  then
    let overlap_words :=
      last_n (chunk_overlap self) (split (current_chunk st)) in
    let current_chunk' := join (lit " ") overlap_words ++ lit " " ++ paragraph in
    mkState (chunks st ++ [Chunk_init (current_chunk st) (current_tokens st)])
            current_chunk'
            (len (split current_chunk'))
  else
    mkState (chunks st)
            (if truthy (current_chunk st)
             then current_chunk st ++ newline :: newline :: paragraph
             else paragraph)
            (current_tokens st + paragraph_tokens).

Definition paragraphs_of (text : str) : list str :=
  map strip
      (filter (fun p => truthy (strip p))
              (re_split match_blank_line (strip text))).

Definition seal (st : state) : list Chunk :=
  if truthy (current_chunk st)
  then chunks st ++ [Chunk_init (current_chunk st) (current_tokens st)]
  else chunks st.

Definition chunk (text : str) : list Chunk :=
  if negb (truthy text) || negb (truthy (strip text)) then []
  else seal (fold_left paragraph_step (paragraphs_of text) (mkState [] [] 0)).
End chunk.

End simple_chunker.


(** ** Exceptions, dictionaries and dynamically typed values *)

Module PyObj.
Import Py.

(** The exception classes the sources raise or can receive from the
    libraries they call; every one is a subclass of [Exception]. *)
Inductive exn :=
| FileNotFoundError | IsADirectoryError | UnicodeDecodeError | PdfReadError
| ValueError | RuntimeError
| TypeError | KeyError | AttributeError
| RequestException.

Inductive result (A : Type) :=
| Ok (a : A)
| Raise (e : exn).
Arguments Ok {A} a.
Arguments Raise {A} e.

Definition rbind {A B} (r : result A) (k : A -> result B) : result B :=
  match r with
  | Ok a => k a
  | Raise e => Raise e
  end.

(** A list comprehension whose element expression can raise: the first
    failure, in order, ends it. *)
Fixpoint rmap {A B} (f : A -> result B) (l : list A) : result (list B) :=
  match l with
  | [] => Ok []
  | x :: r => rbind (f x) (fun y => rbind (rmap f r) (fun ys => Ok (y :: ys)))
  end.

(** A Python [dict] with string keys: the items in insertion order, no
    key twice.  Assigning to a key that is present replaces its value in
    place; a new key goes to the end. *)
Definition dict (V : Type) := list (str * V).

Fixpoint dict_set {V} (d : dict V) (k : str) (v : V) : dict V :=
  match d with
  | [] => [(k, v)]
  | (k', v') :: r =>
      if str_eqb k' k then (k', v) :: r else (k', v') :: dict_set r k v
  end.

Fixpoint dict_get {V} (d : dict V) (k : str) : option V :=
  match d with
  | [] => None
  | (k', v') :: r => if str_eqb k' k then Some v' else dict_get r k
  end.

Definition keys {V} (d : dict V) : list str := map fst d.

(** JSON-like Python values.  A Python [float] is a binary64 number. *)
#[warnings="-register-all"]
Inductive pyval :=
| PNone
| PBool (b : bool)
| PInt (z : Z)
| PFloat (f : PrimFloat.float)
| PStr (s : str)
| PList (l : list pyval)
| PDict (d : dict pyval).

(** [v[k]] for a string key [k]. *)
Definition subscript (v : pyval) (k : str) : result pyval :=
  match v with
  | PDict d => match dict_get d k with Some x => Ok x | None => Raise KeyError end
  | _ => Raise TypeError
  end.

(** [v.get(k, default)] *)
Definition get (v : pyval) (k : str) (default : pyval) : result pyval :=
  match v with
  | PDict d => Ok (match dict_get d k with Some x => x | None => default end)
  | _ => Raise AttributeError
  end.

(** The elements [for x in v] visits. *)
Definition iterate (v : pyval) : result (list pyval) :=
  match v with
  | PList l => Ok l
  | PDict d => Ok (map PStr (keys d))
  | PStr s => Ok (map (fun c => PStr [c]) s)
  | _ => Raise TypeError
  end.

(** [v + i] for an [int] [i] that is an index into a list (so below
    [2^63], where the conversion to [float] is the primitive one). *)
Definition add_int (v : pyval) (i : Z) : result pyval :=
  match v with
  | PInt z => Ok (PInt (z + i))
  | PBool b => Ok (PInt ((if b then 1 else 0) + i))
  | PFloat f => Ok (PFloat (PrimFloat.add f (PrimFloat.of_uint63 (Uint63.of_Z i))))
  | _ => Raise TypeError
  end.

(** [{**meta, k: v}] *)
Definition merged_with (meta : pyval) (k : str) (v : pyval) : result pyval :=
  match meta with
  | PDict d => Ok (PDict (dict_set d k v))
  | _ => Raise TypeError
  end.

(** [x == s] for a string [s]. *)
Definition eq_str (x : pyval) (s : str) : bool :=
  match x with
  | PStr t => str_eqb t s
  | _ => false
  end.

(** [range(0, stop, step)] for a positive [step]. *)
Definition range_step (stop step : nat) : list nat :=
  map (fun k => k * step) (seq 0 ((stop + step - 1) / step)).

(** [l[i:j]] for [0 <= i <= j]. *)
Definition slice {A} (i j : nat) (l : list A) : list A :=
  firstn (j - i) (skipn i l).

(** [enumerate(l)], counting from [i]. *)
Fixpoint enumerate_from {A} (i : Z) (l : list A) : list (Z * A) :=
  match l with
  | [] => []
  | x :: r => (i, x) :: enumerate_from (i + 1) r
  end.

(** [zip(a, b, c)]: as long as the shortest argument. *)
Fixpoint zip3 {A B C} (a : list A) (b : list B) (c : list C) : list (A * B * C) :=
  match a, b, c with
  | x :: a', y :: b', z :: c' => (x, y, z) :: zip3 a' b' c'
  | _, _, _ => []
  end.

(** [s.lower()] on code points below 256. *)
Definition lower_char (c : ascii) : ascii :=
  let n := nat_of_ascii c in
  if ((65 <=? n) && (n <=? 90))
     || ((192 <=? n) && (n <=? 222) && negb (n =? 215))
  then ascii_of_nat (n + 32) else c.

Definition lower (s : str) : str := map lower_char s.

End PyObj.

(** ** src/src/pdf_extractor.py *)

Module pdf_extractor.
Import Py PyObj.

(** What the libraries give for a file's bytes: [read_text] is the result
    of [Path.read_text(encoding='utf-8')], [pdf_pages] the result of
    opening the file with [PdfReader] and calling [extract_text] on every
    page, in order.  A failure is whatever exception the library raises. *)
Record file_data := mkFile {
  read_text : result str;
  pdf_pages : result (list str)
}.

(** A file system tree; the entries of a directory are listed in the
    order the operating system enumerates them.  [Symlink to] is a symbolic
    link to the node [to]; [to] is [None] when the link points at nothing
    or at itself. *)
#[warnings="-register-all"]
Inductive node :=
| File (d : file_data)
| Dir (entries : list (str * node))
| Symlink (to : option node).

(** A [Path]: its final component and the node it names, if any. *)
Record Path := mkPath { name : str; target : option node }.

(** The node a node stands for once symbolic links are followed, as
    [stat], [open] and [scandir] follow them: a file, a directory or
    nothing. *)
Fixpoint follow (n : node) : option node :=
  match n with
  | Symlink (Some to) => follow to
  | Symlink None => None
  | File _ | Dir _ => Some n
  end.

Definition resolved (p : Path) : option node :=
  match target p with
  | Some n => follow n
  | None => None
  end.

Definition exists_ (p : Path) : bool :=
  match resolved p with Some _ => true | None => false end.

Definition is_dot (c : ascii) : bool := Ascii.eqb c "."%char.

(** [Path.suffix]: from the last dot of the name on, unless that dot is
    the first or the last character of the name. *)
Definition suffix (p : Path) : str :=
  let r := rev (name p) in
  let ext := takewhile (fun c => negb (is_dot c)) r in
  match skipn (List.length ext) r with
  | dot :: before =>
      if truthy before && truthy ext then rev (ext ++ [dot]) else []
  | [] => []
  end.

Definition DocumentExtractor := unit.

Definition extract_text (file_path : Path) : result str :=
  match resolved file_path with
  | None => Raise FileNotFoundError
  | Some n =>
      let sfx := lower (suffix file_path) in
      if str_eqb sfx (lit ".txt") || str_eqb sfx (lit ".md") then
        match n with
        | File d => read_text d
        | Dir _ | Symlink _ => Raise IsADirectoryError
        end
      else if str_eqb sfx (lit ".pdf") then
        match n with
        | File d =>
            match pdf_pages d with
            | Ok pages =>
                Ok (strip (fold_left (fun text page => text ++ page ++ [newline])
                                     pages []))
            | Raise _ => Raise RuntimeError
            end
        | Dir _ | Symlink _ => Raise RuntimeError
        end
      else Raise ValueError
  end.

(** The entries of one directory whose name matches [*ext]: files,
    directories and symbolic links alike, whether or not a link leads
    anywhere. *)
Definition matching (ext : str) (entries : list (str * node)) : list Path :=
  map (fun e => mkPath (fst e) (Some (snd e)))
      (filter (fun e => endswith ext (fst e)) entries).

(** The directories below a node, itself first, in the order
    [Path.glob("**/...")] walks them; it does not descend into a symbolic
    link. *)
Fixpoint walk (n : node) : list (list (str * node)) :=
  match n with
  | File _ | Symlink _ => []
  | Dir entries => entries :: flat_map (fun e => walk (snd e)) entries
  end.

(** [directory.glob("*" + ext)] *)
Definition glob (directory : Path) (ext : str) : list Path :=
  match resolved directory with
  | Some (Dir entries) => matching ext entries
  | _ => []
  end.

(** [directory.glob("**/*" + ext)] *)
Definition glob_recursive (directory : Path) (ext : str) : list Path :=
  match resolved directory with
  | Some n => flat_map (matching ext) (walk n)
  | None => []
  end.

Definition supported_extensions : list str :=
  [lit ".pdf"; lit ".txt"; lit ".md"].

Definition collect_files (directory : Path) : list Path :=
  flat_map (fun ext => glob directory ext ++ glob_recursive directory ext)
           supported_extensions.

(** The lines [extract_from_directory] prints. *)
Inductive line :=
| Extracted (characters : Z) (file_name : str)
| Warning_failed (file_name : str) (e : exn).

(** Body of the loop over the files: the results so far and the lines
    printed so far. *)
Definition extract_step (acc : dict str * list line) (file_path : Path)
  : dict str * list line :=
  match extract_text file_path with
  | Ok text =>
      (dict_set (fst acc) (name file_path) text,
       snd acc ++ [Extracted (len text) (name file_path)])
  | Raise e =>
      (fst acc, snd acc ++ [Warning_failed (name file_path) e])
  end.

Definition extract_from_directory (directory : Path)
  : result (dict str) * list line :=
  if negb (exists_ directory) then (Raise FileNotFoundError, [])
  else
    let out := fold_left extract_step (collect_files directory) ([], []) in
    (Ok (fst out), snd out).

End pdf_extractor.

(** ** src/src/chunker.py *)

Module chunker.
Import Py PyObj.

(** What [TextChunker] needs of the object it wraps: a [chunk] method.
    [simple_chunker.py] binds the name [TokenChunker] either to a wrapper
    of the Chonkie library or to [SimpleTokenChunker]. *)
Class TokenChunker (T : Type) := token_chunk : T -> str -> result (list simple_chunker.Chunk).

#[global] Instance SimpleTokenChunker_TokenChunker
  : TokenChunker simple_chunker.SimpleTokenChunker :=
  fun self text => Ok (simple_chunker.chunk self text).

Section TextChunker.
Context {T : Type} `{TokenChunker T}.

Record TextChunker := mkTextChunker { chunker : T }.

Variable self : TextChunker.

Definition chunk_text (text : str) : result (list simple_chunker.Chunk) :=
  if negb (truthy text) || negb (truthy (strip text)) then Ok []
  else token_chunk (chunker self) text.

(** One record of [chunk_documents] and of [ingest_file]:
    [{"text": ..., "metadata": {"source": ..., "chunk_index": ...}}]. *)
Definition chunk_record (source : str) (i : Z) (c : simple_chunker.Chunk) : pyval :=
  PDict [(lit "text", PStr (simple_chunker.text c));
         (lit "metadata",
          PDict [(lit "source", PStr source); (lit "chunk_index", PInt i)])].

Definition chunk_documents (texts : dict str) : result (list pyval) :=
  rbind
    (rmap (fun doc =>
             rbind (chunk_text (snd doc)) (fun chunks =>
             Ok (map (fun ic => chunk_record (fst doc) (fst ic) (snd ic))
                     (enumerate_from 0 chunks))))
          texts)
    (fun per_doc => Ok (List.concat per_doc)).

Definition format_for_qdrant (chunks : list pyval)
  : result (list pyval * list pyval) :=
  rbind (rmap (fun chunk => subscript chunk (lit "text")) chunks) (fun texts =>
  rbind (rmap (fun chunk => subscript chunk (lit "metadata")) chunks) (fun metadatas =>
  Ok (texts, metadatas))).
End TextChunker.

End chunker.

(** ** Programs that talk to the network

    A computation reads and extends a trace of what it has done so far;
    the servers are a function [env] from the trace and a request to the
    decoded JSON body of a successful response, or to [None] when
    [requests] or [raise_for_status] or [json()] raises.  [print] calls are
    left out of these computations. *)

Module Net.
Import Py PyObj.

Inductive http_method := GET | POST | PUT | DELETE.

Record request := mkRequest {
  method : http_method;
  url : str;
  json : option pyval;
  headers : dict str;
  timeout : Z
}.

(** The methods of its collaborators a pipeline calls.  A pipeline records
    each such call in the trace, which is how a statement says that a
    method was, or was not, called. *)
Inductive callee :=
| clear_collection_ | extract_from_directory_ | extract_text_
| chunk_documents_ | chunk_text_ | format_for_qdrant_
| add_documents_ | get_collection_info_.

Inductive event :=
| Request (r : request)
| Call (c : callee).

Definition trace := list event.
Definition servers := trace -> request -> option pyval.

Definition M (A : Type) := servers -> trace -> result A * trace.

Definition ret {A} (a : A) : M A := fun _ t => (Ok a, t).
Definition raise {A} (e : exn) : M A := fun _ t => (Raise e, t).
Definition bind {A B} (m : M A) (k : A -> M B) : M B :=
  fun env t =>
    match m env t with
    | (Ok a, t') => k a env t'
    | (Raise e, t') => (Raise e, t')
    end.
Definition lift {A} (r : result A) : M A := fun _ t => (r, t).
Definition emit (c : callee) : M unit := fun _ t => (Ok tt, t ++ [Call c]).

(** [try: body except: handler] (every exception of the model is an
    [Exception], so a bare [except] and [except Exception] agree). *)
Definition try_except {A} (body : M A) (handler : exn -> M A) : M A :=
  fun env t =>
    match body env t with
    | (Ok a, t') => (Ok a, t')
    | (Raise e, t') => handler e env t'
    end.

(** Send one request and decode the body of the response. *)
Definition send (r : request) : M pyval :=
  fun env t =>
    (match env t r with Some body => Ok body | None => Raise RequestException end,
     t ++ [Request r]).

(** A [for] loop whose body can raise. *)
Fixpoint for_each {A} (l : list A) (body : A -> M unit) : M unit :=
  match l with
  | [] => ret tt
  | x :: r => bind (body x) (fun _ => for_each r body)
  end.

Definition requests_of (t : trace) : list request :=
  flat_map (fun e => match e with Request r => [r] | Call _ => [] end) t.

Definition calls_of (t : trace) : list callee :=
  flat_map (fun e => match e with Call c => [c] | Request _ => [] end) t.

End Net.

Declare Scope net_scope.
Delimit Scope net_scope with net.
Notation "x <- m ;; k" := (Net.bind m (fun x => k))
  (at level 61, m at next level, right associativity) : net_scope.
Notation "m ;;; k" := (Net.bind m (fun _ => k))
  (at level 61, right associativity) : net_scope.

(** ** src/src/qdrant_rest.py *)

Module qdrant_rest.
Import Py PyObj Net.
Local Open Scope net_scope.

(** The fields [__init__] copies from [Config]. *)
Record QdrantRESTClient := mkClient {
  url : str;
  api_key : str;
  collection_name : str;
  openai_key : str;
  embedding_model : str
}.

Section client.
Variable self : QdrantRESTClient.

(** [self.headers] *)
Definition headers : dict str :=
  let h := [(lit "Content-Type", lit "application/json")] in
  if truthy (api_key self) then dict_set h (lit "api-key") (api_key self) else h.

Definition endpoint_url (endpoint : str) : str :=
  url self ++ lit "/" ++ endpoint.

Definition _get (endpoint : str) : M pyval :=
  send (mkRequest GET (endpoint_url endpoint) None headers 30).

Definition _post (endpoint : str) (data : pyval) : M pyval :=
  send (mkRequest POST (endpoint_url endpoint) (Some data) headers 60).

Definition _put (endpoint : str) (data : pyval) : M pyval :=
  send (mkRequest PUT (endpoint_url endpoint) (Some data) headers 60).

Definition _delete (endpoint : str) : M pyval :=
  send (mkRequest DELETE (endpoint_url endpoint) None headers 30).

Definition _get_embedding_dim : Z :=
  let model := embedding_model self in
  if contains (lit "3-small") model || contains (lit "ada-002") model then 1536
  else if contains (lit "3-large") model then 3072
  else 1536.

Definition collection_endpoint : str := lit "collections/" ++ collection_name self.
Definition points_endpoint : str := collection_endpoint ++ lit "/points".

(** The body of the request that creates the collection. *)
Definition create_body : pyval :=
  PDict [(lit "vectors",
          PDict [(lit "size", PInt _get_embedding_dim);
                 (lit "distance", PStr (lit "Cosine"))])].

Definition _ensure_collection : M unit :=
  try_except
    (collections <- _get (lit "collections") ;;
     result <- lift (get collections (lit "result") (PDict [])) ;;
     listed <- lift (get result (lit "collections") (PList [])) ;;
     items <- lift (iterate listed) ;;
     names <- lift (rmap (fun c => subscript c (lit "name")) items) ;;
     if negb (existsb (fun n => eq_str n (collection_name self)) names)
     then _put collection_endpoint create_body ;;; ret tt
     else ret tt)
    (fun _ => ret tt).

Definition embeddings_request (texts : list pyval) : request :=
  mkRequest POST (lit "https://api.openai.com/v1/embeddings")
    (Some (PDict [(lit "model", PStr (embedding_model self));
                  (lit "input", PList texts)]))
    [(lit "Authorization", lit "Bearer " ++ openai_key self);
     (lit "Content-Type", lit "application/json")]
    30.

Definition _create_embeddings (texts : list pyval) : M (list pyval) :=
  result <- send (embeddings_request texts) ;;
  data <- lift (subscript result (lit "data")) ;;
  items <- lift (iterate data) ;;
  lift (rmap (fun item => subscript item (lit "embedding")) items).

(** One element of [points]. *)
Definition point (offset : pyval) (row : Z * (pyval * pyval * pyval))
  : result pyval :=
  let '(i, (text, embedding, meta)) := row in
  rbind (add_int offset i) (fun id =>
  rbind (merged_with meta (lit "text") text) (fun payload =>
  Ok (PDict [(lit "id", id); (lit "vector", embedding); (lit "payload", payload)]))).

Definition batch_size : nat := 100.

Definition add_documents (texts metadatas : list pyval) : M Z :=
  if negb (truthy texts) then ret 0%Z
  else
    embeddings <- _create_embeddings texts ;;
    offset <- try_except
                (info <- _get collection_endpoint ;;
                 result <- lift (subscript info (lit "result")) ;;
                 lift (subscript result (lit "points_count")))
                (fun _ => ret (PInt 0)) ;;
    points <- lift (rmap (point offset)
                         (enumerate_from 0 (zip3 texts embeddings metadatas))) ;;
    for_each (range_step (List.length points) batch_size)
             (fun i =>
                let batch := slice i (i + batch_size) points in
                _put points_endpoint (PDict [(lit "points", PList batch)]) ;;;
                ret tt) ;;;
    ret (len points).

Definition get_collection_info : M pyval :=
  result <- _get collection_endpoint ;;
  info <- lift (get result (lit "result") (PDict [])) ;;
  points_count <- lift (get info (lit "points_count") (PInt 0)) ;;
  config <- lift (get info (lit "config") (PDict [])) ;;
  params <- lift (get config (lit "params") (PDict [])) ;;
  vectors <- lift (get params (lit "vectors") (PDict [])) ;;
  size <- lift (get vectors (lit "size") (PInt 0)) ;;
  ret (PDict [(lit "name", PStr (collection_name self));
              (lit "points_count", points_count);
              (lit "vector_size", size)]).

Definition clear_collection : M unit :=
  try_except (_delete collection_endpoint ;;; ret tt) (fun _ => ret tt) ;;;
  _ensure_collection.
End client.

(** [QdrantRESTClient.__init__] *)
Definition init (config : QdrantRESTClient) : M QdrantRESTClient :=
  _ensure_collection config ;;; ret config.

End qdrant_rest.

(** ** src/src/ingest.py *)

Module ingest.
Import Py PyObj Net.
Local Open Scope net_scope.

Section IngestionPipeline.
Context {T : Type} `{chunker.TokenChunker T}.

Record IngestionPipeline := mkPipeline {
  extractor : pdf_extractor.DocumentExtractor;
  chunker : chunker.TextChunker (T := T);
  vector_store : qdrant_rest.QdrantRESTClient
}.

Variable self : IngestionPipeline.

(** The result of [ingest_directory] when no document was found. *)
Definition warning_summary : pyval :=
  PDict [(lit "status", PStr (lit "warning"));
         (lit "message", PStr (lit "No PDF files found in directory"));
         (lit "files_processed", PInt 0)].

Definition ingest_directory (data_path : pdf_extractor.Path) (force_reindex : bool)
  : M pyval :=
  if negb (pdf_extractor.exists_ data_path) then raise FileNotFoundError
  else
    (if force_reindex
     then emit clear_collection_ ;;;
          qdrant_rest.clear_collection (vector_store self)
     else ret tt) ;;;
    emit extract_from_directory_ ;;;
    documents <- lift (fst (pdf_extractor.extract_from_directory data_path)) ;;
    if negb (truthy documents) then ret warning_summary
    else
      emit chunk_documents_ ;;;
      chunks <- lift (chunker.chunk_documents (chunker self) documents) ;;
      emit format_for_qdrant_ ;;;
      formatted <- lift (chunker.format_for_qdrant chunks) ;;
      emit add_documents_ ;;;
      count <- qdrant_rest.add_documents (vector_store self)
                 (fst formatted) (snd formatted) ;;
      emit get_collection_info_ ;;;
      info <- qdrant_rest.get_collection_info (vector_store self) ;;
      total <- lift (subscript info (lit "points_count")) ;;
      ret (PDict [(lit "status", PStr (lit "success"));
                  (lit "files_processed", PInt (len documents));
                  (lit "chunks_created", PInt (len chunks));
                  (lit "chunks_added", PInt count);
                  (lit "total_documents", total)]).

Definition ingest_file (file_path : pdf_extractor.Path) : M pyval :=
  if negb (pdf_extractor.exists_ file_path) then raise FileNotFoundError
  else
    emit extract_text_ ;;;
    text <- lift (pdf_extractor.extract_text file_path) ;;
    emit chunk_text_ ;;;
    chunks <- lift (chunker.chunk_text (chunker self) text) ;;
    let formatted_chunks :=
      map (fun ic => chunker.chunk_record (pdf_extractor.name file_path)
                                          (fst ic) (snd ic))
          (enumerate_from 0 chunks) in
    emit format_for_qdrant_ ;;;
    formatted <- lift (chunker.format_for_qdrant [PList formatted_chunks]) ;;
    emit add_documents_ ;;;
    count <- qdrant_rest.add_documents (vector_store self)
               (fst formatted) (snd formatted) ;;
    ret (PDict [(lit "status", PStr (lit "success"));
                (lit "file", PStr (pdf_extractor.name file_path));
                (lit "chunks_created", PInt (len chunks));
                (lit "chunks_added", PInt count)]).
End IngestionPipeline.

(** [IngestionPipeline.__init__] with the fallback chunker and the
    constants of [Config]. *)
Definition CHUNK_SIZE : Z := 512.
Definition CHUNK_OVERLAP : Z := 50.

Definition init (config : qdrant_rest.QdrantRESTClient)
  : M (IngestionPipeline (T := simple_chunker.SimpleTokenChunker)) :=
  store <- qdrant_rest.init config ;;
  ret (mkPipeline tt
         (chunker.mkTextChunker (simple_chunker.mkChunker CHUNK_SIZE CHUNK_OVERLAP))
         store).

End ingest.


(** ** src/src/qdrant_rest.py: [search] *)

Module qdrant_search.
Import Py PyObj Net.
Local Open Scope net_scope.

(** [search] can raise one exception that no other modelled function
    raises: [IndexError], from [self._create_embeddings([query])[0]].  A
    run of [search] that raises it returns [IndexError]; every other
    exception is raised as in the other computations. *)
Inductive or_IndexError (A : Type) :=
| Returned (a : A)
| IndexError.
Arguments Returned {A} a.
Arguments IndexError {A}.

(** [{k: v for k, v in payload.items() if k != "text"}] *)
Definition metadata_of (payload : pyval) : result pyval :=
  match payload with
  | PDict d => Ok (PDict (filter (fun kv => negb (str_eqb (fst kv) (lit "text"))) d))
  | _ => Raise AttributeError
  end.

(** Body of the loop over [points_data]: the element appended to
    [results]. *)
Definition hit (point : pyval) : result pyval :=
  rbind (match point with
         | PDict _ => get point (lit "payload") (PDict [])
         | _ => Ok (PDict [])
         end) (fun payload =>
  rbind (get payload (lit "text") (PStr [])) (fun text =>
  rbind (metadata_of payload) (fun metadata =>
  rbind (get point (lit "score") (PInt 0)) (fun score =>
  Ok (PDict [(lit "text", text); (lit "metadata", metadata); (lit "score", score)]))))).

Section search.
Variable self : qdrant_rest.QdrantRESTClient.

Definition query_endpoint : str :=
  qdrant_rest.collection_endpoint self ++ lit "/points/query".

Definition query_body (query_embedding : pyval) (limit : Z) : pyval :=
  PDict [(lit "query", query_embedding);
         (lit "limit", PInt limit);
         (lit "with_payload", PBool true)].

Definition search (query : pyval) (limit : Z) : M (or_IndexError (list pyval)) :=
  embeddings <- qdrant_rest._create_embeddings self [query] ;;
  match embeddings with
  | [] => ret IndexError
  | query_embedding :: _ =>
      result <- qdrant_rest._post self query_endpoint
                  (query_body query_embedding limit) ;;
      found <- lift (get result (lit "result") (PDict [])) ;;
      fallback <- lift (get result (lit "result") (PList [])) ;;
      points_data <- lift (get found (lit "points") fallback) ;;
      points <- lift (iterate points_data) ;;
      results <- lift (rmap hit points) ;;
      ret (Returned results)
  end.
End search.

End qdrant_search.

(** ** src/src/ingest.py: [main] *)

Module ingest_main.
Import Py PyObj Net.
Local Open Scope net_scope.

Section main.
Context {T : Type} `{chunker.TokenChunker T}.

(** The object [TokenChunker(chunk_size, chunk_overlap)] builds, whichever
    class the name is bound to. *)
Variable TokenChunker : Z -> Z -> T.

(** What [Path(s)] resolves to in the file system. *)
Variable resolve : str -> pdf_extractor.Path.

(** The configuration [QdrantRESTClient.__init__] reads. *)
Variable config : qdrant_rest.QdrantRESTClient.

(** [IngestionPipeline.__init__] *)
Definition IngestionPipeline_init : M (ingest.IngestionPipeline (T := T)) :=
  let chunker := chunker.mkTextChunker
                   (TokenChunker ingest.CHUNK_SIZE ingest.CHUNK_OVERLAP) in
  store <- qdrant_rest.init config ;;
  ret (ingest.mkPipeline tt chunker store).

(** [main], given [sys.argv]; the values the f-strings print are looked up
    in order. *)
Definition main (argv : list str) : M unit :=
  let data_dir := match argv with
                  | _ :: arg :: _ => arg
                  | _ => lit "docs/Data"
                  end in
  pipeline <- IngestionPipeline_init ;;
  result <- ingest.ingest_directory pipeline (resolve data_dir) false ;;
  lift (subscript result (lit "files_processed")) ;;;
  lift (subscript result (lit "chunks_created")) ;;;
  lift (subscript result (lit "total_documents")) ;;;
  ret tt.
End main.

End ingest_main.
(** * Vocabulary of the statements *)

Import Py PyObj Net.

(** [needle] occurs in [hay] as a contiguous run of characters. *)
Definition is_substring (needle hay : str) : Prop :=
  exists before after, hay = before ++ needle ++ after.

(** The request that lists the collections, and the one that creates the
    configured collection. *)
Definition list_request (self : qdrant_rest.QdrantRESTClient) : request :=
  mkRequest GET (qdrant_rest.endpoint_url self (lit "collections")) None
            (qdrant_rest.headers self) 30.

Definition create_request (self : qdrant_rest.QdrantRESTClient) : request :=
  mkRequest PUT (qdrant_rest.endpoint_url self (qdrant_rest.collection_endpoint self))
            (Some (qdrant_rest.create_body self)) (qdrant_rest.headers self) 60.

(** The body of a response to [GET /collections] that lists [names]. *)
Definition listing (names : list str) : pyval :=
  PDict [(lit "result",
          PDict [(lit "collections",
                  PList (map (fun n => PDict [(lit "name", PStr n)]) names))])].

(** A client configured for a large embedding model, and servers that know
    no collection. *)
Definition large_model_client : qdrant_rest.QdrantRESTClient :=
  qdrant_rest.mkClient (lit "http://localhost:6333") [] (lit "university_docs")
                       (lit "sk-test") (lit "text-embedding-3-large").

Definition empty_servers : servers := fun _ _ => Some (listing []).

(** The request that deletes the configured collection. *)
Definition delete_request (self : qdrant_rest.QdrantRESTClient) : request :=
  mkRequest DELETE (qdrant_rest.endpoint_url self (qdrant_rest.collection_endpoint self))
            None (qdrant_rest.headers self) 30.

(** A pipeline with the fallback chunker and the constants of [Config]. *)
Definition default_client : qdrant_rest.QdrantRESTClient :=
  qdrant_rest.mkClient (lit "http://localhost:6333") [] (lit "university_docs")
                       (lit "sk-test") (lit "text-embedding-3-small").

Definition default_pipeline
  : ingest.IngestionPipeline (T := simple_chunker.SimpleTokenChunker) :=
  ingest.mkPipeline tt
    (chunker.mkTextChunker
       (simple_chunker.mkChunker ingest.CHUNK_SIZE ingest.CHUNK_OVERLAP))
    default_client.

(** A text file that decodes to [s]; it is not a PDF. *)
Definition text_file (s : string) : pdf_extractor.node :=
  pdf_extractor.File (pdf_extractor.mkFile (Ok (lit s)) (Raise PdfReadError)).

Definition empty_directory : pdf_extractor.Path :=
  pdf_extractor.mkPath (lit "Data") (Some (pdf_extractor.Dir [])).

Definition notes_path : pdf_extractor.Path :=
  pdf_extractor.mkPath (lit "notes.txt") (Some (text_file "Hello world")).

(** The requests of [add_documents]: the read of the collection and the
    upsert of one batch of points. *)
Definition info_request (self : qdrant_rest.QdrantRESTClient) : request :=
  mkRequest GET (qdrant_rest.endpoint_url self (qdrant_rest.collection_endpoint self))
            None (qdrant_rest.headers self) 30.

Definition upsert_request (self : qdrant_rest.QdrantRESTClient) (batch : list pyval)
  : request :=
  mkRequest PUT (qdrant_rest.endpoint_url self (qdrant_rest.points_endpoint self))
            (Some (PDict [(lit "points", PList batch)])) (qdrant_rest.headers self) 60.

(** The point count a response to the read of the collection carries. *)
Definition points_count_of (info : pyval) : result pyval :=
  rbind (subscript info (lit "result")) (fun r => subscript r (lit "points_count")).

(** [p] is a point with the given id and vector whose payload is [meta]
    extended (or overridden) with the text. *)
Definition is_point (p : pyval) (id : Z) (vector text : pyval) (meta : dict pyval)
  : Prop :=
  exists payload,
    p = PDict [(lit "id", PInt id); (lit "vector", vector);
               (lit "payload", PDict payload)]
    /\ dict_get payload (lit "text") = Some text
    /\ forall k, k <> lit "text" -> dict_get payload k = dict_get meta k.

(** Servers for a run of [add_documents] on two texts: they answer the
    embedding request with two vectors, report seven points in the
    collection and accept every other request. *)
Definition two_texts : list pyval := [PStr (lit "first"); PStr (lit "second")].

Definition two_metadatas : list (dict pyval) :=
  [[(lit "source", PStr (lit "a.txt")); (lit "chunk_index", PInt 0)];
   [(lit "source", PStr (lit "a.txt")); (lit "chunk_index", PInt 1)]].

Definition two_vectors : list pyval :=
  [PList [PFloat 0.5%float; PFloat 0.25%float];
   PList [PFloat 1%float; PFloat 0%float]].

Definition seven_points_servers : servers :=
  fun _ r =>
    match method r with
    | POST =>
        Some (PDict [(lit "data",
                      PList (map (fun v => PDict [(lit "embedding", v)]) two_vectors))])
    | GET => Some (PDict [(lit "result", PDict [(lit "points_count", PInt 7)])])
    | _ => Some (PDict [(lit "status", PStr (lit "ok"))])
    end.

(** The name and text of the files whose extraction succeeds, in order. *)
Definition successes (files : list pdf_extractor.Path) : list (str * str) :=
  flat_map (fun f => match pdf_extractor.extract_text f with
                     | Ok text => [(pdf_extractor.name f, text)]
                     | Raise _ => []
                     end) files.

(** One assignment [results[name] = text]. *)
Definition store (d : dict str) (p : str * str) : dict str :=
  dict_set d (fst p) (snd p).

(** The text of the last pair of [pairs] whose name is [n]. *)
Definition last_text (n : str) (pairs : list (str * str)) : option str :=
  fold_left (fun found p => if str_eqb (fst p) n then Some (snd p) else found)
            pairs None.

(** The line [extract_from_directory] prints for one file. *)
Definition report (f : pdf_extractor.Path) : pdf_extractor.line :=
  match pdf_extractor.extract_text f with
  | Ok text => pdf_extractor.Extracted (len text) (pdf_extractor.name f)
  | Raise e => pdf_extractor.Warning_failed (pdf_extractor.name f) e
  end.

(** A directory with one readable text file and one corrupt PDF. *)
Definition txt_and_corrupt_pdf (text : str) (other_read : result str)
    (other_pages : result (list str)) (e : exn) : pdf_extractor.Path :=
  pdf_extractor.mkPath (lit "Data")
    (Some (pdf_extractor.Dir
             [(lit "notes.txt",
               pdf_extractor.File (pdf_extractor.mkFile (Ok text) other_pages));
              (lit "broken.pdf",
               pdf_extractor.File (pdf_extractor.mkFile other_read (Raise e)))])).

Definition notes_and_broken : pdf_extractor.Path :=
  txt_and_corrupt_pdf (lit "Hello world") (Raise UnicodeDecodeError)
                      (Raise PdfReadError) PdfReadError.

(** A directory with a top-level file and two files of one name in two
    subdirectories. *)
Definition two_subdirectories : pdf_extractor.Path :=
  pdf_extractor.mkPath (lit "Data")
    (Some (pdf_extractor.Dir
             [(lit "top.txt", text_file "top");
              (lit "2023", pdf_extractor.Dir [(lit "rules.txt", text_file "old rules")]);
              (lit "2024", pdf_extractor.Dir [(lit "rules.txt", text_file "new rules")])])).

(** The same directory, for any three texts. *)
Definition top_and_two_rules (top old new : str) : pdf_extractor.Path :=
  pdf_extractor.mkPath (lit "Data")
    (Some (pdf_extractor.Dir
             [(lit "top.txt",
               pdf_extractor.File (pdf_extractor.mkFile (Ok top) (Raise PdfReadError)));
              (lit "2023",
               pdf_extractor.Dir
                 [(lit "rules.txt",
                   pdf_extractor.File
                     (pdf_extractor.mkFile (Ok old) (Raise PdfReadError)))]);
              (lit "2024",
               pdf_extractor.Dir
                 [(lit "rules.txt",
                   pdf_extractor.File
                     (pdf_extractor.mkFile (Ok new) (Raise PdfReadError)))])])).

(** [x] is the entry named [n] of [root] or of a directory below it, at
    any depth, reached through directories and not through symbolic
    links. *)
Inductive entry_below : pdf_extractor.node -> str -> pdf_extractor.node -> Prop :=
| entry_here (entries : list (str * pdf_extractor.node)) (n : str)
    (x : pdf_extractor.node) :
    In (n, x) entries -> entry_below (pdf_extractor.Dir entries) n x
| entry_deeper (entries : list (str * pdf_extractor.node)) (sub : str)
    (d : pdf_extractor.node) (n : str) (x : pdf_extractor.node) :
    In (sub, d) entries -> entry_below d n x ->
    entry_below (pdf_extractor.Dir entries) n x.

(** A whitespace token: non-empty, without whitespace. *)
Definition is_word (w : str) : Prop :=
  w <> [] /\ forallb (fun c => negb (isspace c)) w = true.

(** The buffer [current] starts with what [chunk] carries over from the
    sealed chunk [previous]: its tokens start with the slice
    [previous.text.split()[-overlap:]], and its text starts with that slice
    joined by single spaces. *)
Definition seeded (overlap : Z) (previous : simple_chunker.Chunk) (current : str)
  : Prop :=
  (exists rest,
      split current = last_n overlap (split (simple_chunker.text previous)) ++ rest)
  /\ (exists rest,
         current
         = join (lit " ") (last_n overlap (split (simple_chunker.text previous)))
           ++ rest).

(** Every two neighbours of a list are related. *)
Definition chained {A} (R : A -> A -> Prop) (l : list A) : Prop :=
  forall i a b, nth_error l i = Some a -> nth_error l (S i) = Some b -> R a b.

(** The last element, if any. *)
Definition last_opt {A} (l : list A) : option A :=
  match rev l with
  | x :: _ => Some x
  | [] => None
  end.

(** A word of the text is a token of some chunk. *)
Definition covered (w : str) (chunks : list simple_chunker.Chunk) : Prop :=
  exists c, In c chunks /\ In w (split (simple_chunker.text c)).

(** The loop invariant of [chunk] for the overlap. *)
Definition overlap_invariant (overlap : Z) (st : simple_chunker.state) : Prop :=
  chained (fun a b => seeded overlap a (simple_chunker.text b))
          (simple_chunker.chunks st)
  /\ forall previous,
      last_opt (simple_chunker.chunks st) = Some previous ->
      seeded overlap previous (simple_chunker.current_chunk st).

(** Inputs for the chunker. *)
Definition two_sentences : str := lit "One two. Three four.".
Definition dots_between : str := lit "a ... b".
Definition two_paragraphs : str := lit "a b c" ++ newline :: newline :: lit "d e f".

(** An oversized paragraph of three sentences and a short paragraph. *)
Definition sentences_and_paragraph : str :=
  lit "a b. c d. e f" ++ newline :: newline :: lit "g h".

(** The pieces [chunk] appends to its buffer, in order: a paragraph of at
    most [chunk_size] tokens as it is, of a longer one the sentences that
    are not blank. *)
Definition pieces_of (self : simple_chunker.SimpleTokenChunker) (paragraph : str)
  : list str :=
  if (len (split paragraph) >? simple_chunker.chunk_size self)%Z
  then filter (fun sentence => truthy (strip sentence))
              (re_split match_sentence_end paragraph)
  else [paragraph].

Definition pieces (self : simple_chunker.SimpleTokenChunker) (text : str)
  : list str :=
  flat_map (pieces_of self) (simple_chunker.paragraphs_of text).

(** The token lists of the chunks when every seal carries over all the
    tokens of the sealed chunk.  [held] are the tokens of the buffer: a
    piece that takes a non-empty buffer above [size] tokens seals it, and
    the buffer goes on with all it held and the piece; the buffer left at
    the end is the last chunk. *)
Fixpoint repeating (size : Z) (held : list str) (pieces : list (list str))
  : list (list str) :=
  match pieces with
  | [] => if truthy held then [held] else []
  | piece :: rest =>
      (if (len held + len piece >? size)%Z && truthy held then [held] else [])
      ++ repeating size (held ++ piece) rest
  end.

(** The tokens of a paragraph that [chunk] hands on: those of the paragraph
    itself, or, for a paragraph above the chunk size, those of its
    sentences. *)
Definition kept_tokens (self : simple_chunker.SimpleTokenChunker) (paragraph : str)
  : list str :=
  if (len (split paragraph) >? simple_chunker.chunk_size self)%Z
  then flat_map split (re_split match_sentence_end paragraph)
  else split paragraph.

(** The loop invariant of [chunk] for the tokens [seen] so far. *)
Definition coverage_invariant (seen : list str) (st : simple_chunker.state) : Prop :=
  forall w, In w seen ->
            covered w (simple_chunker.chunks st)
            \/ In w (split (simple_chunker.current_chunk st)).


(** ** Vocabulary of the further properties *)

(** The tokens of a chunk. *)
Definition tokens_of (c : simple_chunker.Chunk) : list str :=
  split (simple_chunker.text c).

(** The loop invariant of [chunk] for the token counts: the counter is the
    number of tokens of the buffer, a non-empty buffer has a token, and
    every sealed chunk records its own number of tokens, at least one. *)
Definition counted (c : simple_chunker.Chunk) : Prop :=
  simple_chunker.token_count c = len (tokens_of c)
  /\ (1 <= simple_chunker.token_count c)%Z.

Definition token_invariant (st : simple_chunker.state) : Prop :=
  simple_chunker.current_tokens st = len (split (simple_chunker.current_chunk st))
  /\ (simple_chunker.current_chunk st <> [] ->
      split (simple_chunker.current_chunk st) <> [])
  /\ Forall counted (simple_chunker.chunks st).

(** What is left of the token lists of consecutive chunks when, from each
    one but the first, the tokens carried over from the one before
    ([previous[-overlap:]]) are taken off. *)
Fixpoint fresh_tokens (overlap : Z) (previous : list str) (rest : list (list str))
  : list str :=
  match rest with
  | [] => []
  | c :: rest' =>
      skipn (List.length (last_n overlap previous)) c ++ fresh_tokens overlap c rest'
  end.

Definition reassemble (overlap : Z) (chunks : list (list str)) : list str :=
  match chunks with
  | [] => []
  | c :: rest => c ++ fresh_tokens overlap c rest
  end.

(** The loop invariant of [chunk] for the size of the chunks. *)
Definition size_invariant (bound : Z) (st : simple_chunker.state) : Prop :=
  token_invariant st
  /\ (simple_chunker.current_tokens st <= bound)%Z
  /\ Forall (fun c => (simple_chunker.token_count c <= bound)%Z)
            (simple_chunker.chunks st).

(** The separator between the paragraphs of a buffer. *)
Definition blank_line : str := [newline; newline].

(** The loop invariant of [chunk] while everything fits into the buffer. *)
Definition fitting_invariant (done : list str) (st : simple_chunker.state) : Prop :=
  simple_chunker.chunks st = []
  /\ simple_chunker.current_chunk st = join blank_line done
  /\ simple_chunker.current_tokens st = len (flat_map split done).

(** Three short paragraphs. *)
Definition three_paragraphs : str :=
  lit "Inscription ouverte." ++ blank_line ++ lit "Bourses: voir bureau 3."
  ++ newline :: space :: newline :: lit "Stages en juin.".

(** The token lists the chunks would have if the buffer were sealed now,
    reassembled. *)
Definition reassembled (overlap : Z) (st : simple_chunker.state) : list str :=
  reassemble overlap
    (map tokens_of (simple_chunker.chunks st)
     ++ [split (simple_chunker.current_chunk st)]).

(** The loop invariant of [chunk] for the order of the tokens. *)
Definition order_invariant (overlap : Z) (seen : list str)
    (st : simple_chunker.state) : Prop :=
  overlap_invariant overlap st /\ reassembled overlap st = seen.

(** The loop invariant of [chunk] for where the tokens come from. *)
Definition origin_invariant (seen : list str) (st : simple_chunker.state) : Prop :=
  forall w,
    covered w (simple_chunker.chunks st)
    \/ In w (split (simple_chunker.current_chunk st)) ->
    In w seen.

(** The last character of [s] is not whitespace. *)
Definition ends_nonspace (s : str) : Prop :=
  exists before c, s = before ++ [c] /\ isspace c = false.

(** A PDF of two pages under an upper-case extension. *)
Definition guide_pdf : pdf_extractor.Path :=
  pdf_extractor.mkPath (lit "Guide.PDF")
    (Some (pdf_extractor.File
             (pdf_extractor.mkFile (Raise UnicodeDecodeError)
                (Ok [lit " Bourses et aides "; lit "Stages"])))).


(** ** Vocabulary for the vector store *)

(** The offset [add_documents] works with after the read of the collection
    at trace [t]: the point count of the response, or 0 when the request
    or one of the two lookups raised. *)
Definition offset_read (self : qdrant_rest.QdrantRESTClient) (env : servers)
    (t : trace) : pyval :=
  match env t (info_request self) with
  | Some info =>
      match points_count_of info with
      | Ok count => count
      | Raise _ => PInt 0
      end
  | None => PInt 0
  end.

(** The points of texts, vectors and metadata dictionaries, numbered from
    [offset]; as many as the shortest of the three lists has elements. *)
Definition expected_point (offset : Z) (row : Z * (pyval * pyval * dict pyval))
  : pyval :=
  let '(i, (text, vector, meta)) := row in
  PDict [(lit "id", PInt (offset + i)); (lit "vector", vector);
         (lit "payload", PDict (dict_set meta (lit "text") text))].

Definition expected_points (offset : Z) (texts vectors : list pyval)
    (metas : list (dict pyval)) : list pyval :=
  map (expected_point offset) (enumerate_from 0 (zip3 texts vectors metas)).

(** The batches the upload loop takes of [points]. *)
Definition batches_of (points : list pyval) : list (list pyval) :=
  map (fun i => slice i (i + qdrant_rest.batch_size) points)
      (range_step (List.length points) qdrant_rest.batch_size).

(** The upload loop of [add_documents]. *)
Definition upload (self : qdrant_rest.QdrantRESTClient) (points : list pyval)
  : M unit :=
  for_each (range_step (List.length points) qdrant_rest.batch_size)
           (fun i =>
              bind (qdrant_rest._put self (qdrant_rest.points_endpoint self)
                      (PDict [(lit "points",
                               PList (slice i (i + qdrant_rest.batch_size) points))]))
                   (fun _ => ret tt)).

(** A value that is not a dictionary. *)
Definition not_a_dict (v : pyval) : Prop :=
  match v with PDict _ => False | _ => True end.

(** Servers whose store is down: only the embedding service answers. *)
Definition store_down_servers : servers :=
  fun _ r =>
    match method r with
    | POST =>
        Some (PDict [(lit "data",
                      PList (map (fun v => PDict [(lit "embedding", v)]) two_vectors))])
    | _ => None
    end.

(** Texts, vectors and metadata for 201 points, which take three batches,
    and servers whose store has room for the points with an id below 107
    only: they accept the first batch and reject an upsert of later
    points. *)
Definition many_texts : list pyval := repeat (PStr (lit "t")) 201.

Definition many_vectors : list pyval := repeat (PList [PFloat 0.5%float]) 201.

Definition many_metadatas : list (dict pyval) :=
  repeat [(lit "source", PStr (lit "a.txt"))] 201.

Definition full_store_servers : servers :=
  fun _ r =>
    match method r with
    | POST =>
        Some (PDict [(lit "data",
                      PList (map (fun v => PDict [(lit "embedding", v)])
                                 many_vectors))])
    | GET => Some (PDict [(lit "result", PDict [(lit "points_count", PInt 7)])])
    | PUT =>
        match json r with
        | Some (PDict [(_, PList (PDict ((_, PInt id) :: _) :: _))]) =>
            if (id <? 107)%Z
            then Some (PDict [(lit "status", PStr (lit "ok"))])
            else None
        | _ => None
        end
    | DELETE => None
    end.

(** The query request of [search]. *)
Definition query_request (self : qdrant_rest.QdrantRESTClient)
    (query_embedding : pyval) (limit : Z) : request :=
  mkRequest POST (qdrant_rest.endpoint_url self (qdrant_search.query_endpoint self))
            (Some (qdrant_search.query_body query_embedding limit))
            (qdrant_rest.headers self) 60.

(** What [search] makes of the body of the response to its query. *)
Definition hits_of_response (body : pyval) : result (list pyval) :=
  rbind (get body (lit "result") (PDict [])) (fun found =>
  rbind (get body (lit "result") (PList [])) (fun fallback =>
  rbind (get found (lit "points") fallback) (fun points_data =>
  rbind (iterate points_data) (fun points =>
  rmap qdrant_search.hit points)))).

(** A dictionary without its entry for "text". *)
Definition without_text (meta : dict pyval) : dict pyval :=
  filter (fun kv => negb (str_eqb (fst kv) (lit "text"))) meta.

(** [point] is a point of a response that carries a score and the payload
    [add_documents] builds of a text and its metadata. *)
Definition stored_hit (point : pyval) (s : pyval * dict pyval * pyval) : Prop :=
  let '(text, meta, score) := s in
  exists d,
    point = PDict d
    /\ dict_get d (lit "payload") = Some (PDict (dict_set meta (lit "text") text))
    /\ dict_get d (lit "score") = Some score.

(** The search result for such a point. *)
Definition returned_hit (s : pyval * dict pyval * pyval) : pyval :=
  let '(text, meta, score) := s in
  PDict [(lit "text", text); (lit "metadata", PDict (without_text meta));
         (lit "score", score)].

(** Servers for a search: one embedding, and a response with one point in
    the current format, or with the points directly under "result". *)
Definition one_vector : pyval :=
  PDict [(lit "data", PList [PDict [(lit "embedding", PList [PFloat 0.5%float])]])].

Definition one_hit : pyval :=
  PDict [(lit "id", PInt 7);
         (lit "payload",
          PDict [(lit "source", PStr (lit "a.txt")); (lit "chunk_index", PInt 0);
                 (lit "text", PStr (lit "first"))]);
         (lit "score", PFloat 0.75%float)].

Definition search_servers : servers :=
  fun t _ =>
    match t with
    | [] => Some one_vector
    | _ => Some (PDict [(lit "result", PDict [(lit "points", PList [one_hit])])])
    end.

Definition legacy_servers : servers :=
  fun t _ =>
    match t with
    | [] => Some one_vector
    | _ => Some (PDict [(lit "result", PList [one_hit])])
    end.

(** What [get_collection_info] makes of the body of the response. *)
Definition collection_info_of (self : qdrant_rest.QdrantRESTClient) (body : pyval)
  : result pyval :=
  rbind (get body (lit "result") (PDict [])) (fun info =>
  rbind (get info (lit "points_count") (PInt 0)) (fun points_count =>
  rbind (get info (lit "config") (PDict [])) (fun config =>
  rbind (get config (lit "params") (PDict [])) (fun params =>
  rbind (get params (lit "vectors") (PDict [])) (fun vectors =>
  rbind (get vectors (lit "size") (PInt 0)) (fun size =>
  Ok (PDict [(lit "name", PStr (qdrant_rest.collection_name self));
             (lit "points_count", points_count);
             (lit "vector_size", size)]))))))).


(** ** Vocabulary for the pipeline *)

(** The chunks of the documents, each with the name of its document and
    its index in it, in the order of the documents. *)
Definition rows_of (documents : dict str)
    (per_document : list (list simple_chunker.Chunk))
  : list (str * Z * simple_chunker.Chunk) :=
  flat_map (fun dc => map (fun ic => (fst (fst dc), fst ic, snd ic))
                          (enumerate_from 0 (snd dc)))
           (combine documents per_document).

Definition row_record (row : str * Z * simple_chunker.Chunk) : pyval :=
  let '(source, i, c) := row in
  PDict [(lit "text", PStr (simple_chunker.text c));
         (lit "metadata",
          PDict [(lit "source", PStr source); (lit "chunk_index", PInt i)])].

Definition row_text (row : str * Z * simple_chunker.Chunk) : pyval :=
  PStr (simple_chunker.text (snd row)).

Definition row_metadata (row : str * Z * simple_chunker.Chunk) : dict pyval :=
  [(lit "source", PStr (fst (fst row))); (lit "chunk_index", PInt (snd (fst row)))].

(** The summary of a successful [ingest_directory]. *)
Definition success_summary (files chunks added : Z) (total : pyval) : pyval :=
  PDict [(lit "status", PStr (lit "success"));
         (lit "files_processed", PInt files);
         (lit "chunks_created", PInt chunks);
         (lit "chunks_added", PInt added);
         (lit "total_documents", total)].

(** The directory [main] reads when [sys.argv] names none. *)
Definition data_dir_of (argv : list str) : str :=
  match argv with
  | _ :: arg :: _ => arg
  | _ => lit "docs/Data"
  end.

(** Two documents, the second without a token. *)
Definition two_documents : dict str :=
  [(lit "a.txt", lit "One two. Three four."); (lit "blank.txt", lit "  ")].

(** A directory with one text file. *)
Definition one_file_directory : pdf_extractor.Path :=
  pdf_extractor.mkPath (lit "Data")
    (Some (pdf_extractor.Dir [(lit "a.txt", text_file "Hello world")])).

(** The events of [add_documents] on texts, vectors and metadata from the
    trace [t], when the store reports [count_at t'] points at a read after
    [t'] and accepts the upserts: nothing without a text, otherwise the
    embedding request, the read, and the upserts of the points numbered
    from the count read. *)
Definition upload_events (self : qdrant_rest.QdrantRESTClient)
    (count_at : trace -> Z) (t : trace) (texts vectors : list pyval)
    (metas : list (dict pyval)) : list event :=
  match texts with
  | [] => []
  | _ :: _ =>
      let request := Request (qdrant_rest.embeddings_request self texts) in
      request
        :: Request (info_request self)
        :: map (fun b => Request (upsert_request self b))
               (batches_of (expected_points (count_at (t ++ [request]))
                                            texts vectors metas))
  end.

(** The number of points the upserts of a trace carry. *)
Fixpoint upserted (t : trace) : Z :=
  match t with
  | [] => 0
  | Request r :: t' =>
      match method r, json r with
      | PUT, Some (PDict [(_, PList batch)]) => len batch + upserted t'
      | _, _ => upserted t'
      end
  | Call _ :: t' => upserted t'
  end.

(** Servers of a store that held seven points and gains every point
    upserted: a read reports seven and the points upserted so far. *)
Definition growing_info (t : trace) : pyval :=
  PDict [(lit "result", PDict [(lit "points_count", PInt (7 + upserted t))])].

Definition growing_store_servers : servers :=
  fun t r =>
    match method r with
    | POST =>
        Some (PDict [(lit "data",
                      PList [PDict [(lit "embedding", PList [PFloat 0.5%float])]])])
    | GET => Some (growing_info t)
    | _ => Some (PDict [(lit "status", PStr (lit "ok"))])
    end.

(** [item] is an element of the ["data"] of an embedding response that
    carries the vector [v]. *)
Definition embedding_item (item v : pyval) : Prop :=
  exists d, item = PDict d /\ dict_get d (lit "embedding") = Some v.

(** * Properties *)

(** ** Strings *)

Lemma str_eqb_eq (a b : str) : str_eqb a b = true <-> a = b.
Proof.
  revert b; induction a as [|x a IH]; intros [|y b]; simpl;
    try (split; [discriminate | discriminate]); try tauto.
  rewrite andb_true_iff, Ascii.eqb_eq, IH.
  split; [intros [-> ->]; reflexivity | intros E; inversion E; auto].
Qed.

Lemma str_eqb_refl (a : str) : str_eqb a a = true.
Proof. apply str_eqb_eq; reflexivity. Qed.

Lemma str_eqb_neq (a b : str) : str_eqb a b = false <-> a <> b.
Proof.
  rewrite <- str_eqb_eq. destruct (str_eqb a b); split; congruence.
Qed.

Lemma startswith_spec (p s : str) :
  startswith p s = true <-> exists after, s = p ++ after.
Proof.
  revert s; induction p as [|a p IH]; intros s; simpl.
  - split; [exists s; reflexivity | reflexivity].
  - destruct s as [|b s].
    + split; [discriminate | intros [r E]; discriminate].
    + rewrite andb_true_iff, Ascii.eqb_eq, IH. split.
      * intros [-> [r ->]]. exists r; reflexivity.
      * intros [r E]. inversion E; subst. split; [reflexivity | exists r; reflexivity].
Qed.

Lemma contains_spec (needle hay : str) :
  contains needle hay = true <-> is_substring needle hay.
Proof.
  unfold is_substring. induction hay as [|c hay IH].
  - simpl. rewrite orb_false_r, startswith_spec. split.
    + intros [r E]. exists [], r. exact E.
    + intros [[|x b] [r E]]; [exists r; exact E | discriminate].
  - simpl contains. rewrite orb_true_iff, startswith_spec, IH. split.
    + intros [[r E] | [b [r E]]].
      * exists [], r. exact E.
      * exists (c :: b), r. rewrite E. reflexivity.
    + intros [[|x b] [r E]].
      * left. exists r. exact E.
      * right. inversion E; subst. exists b, r. reflexivity.
Qed.

Lemma contains_false (needle hay : str) :
  contains needle hay = false <-> ~ is_substring needle hay.
Proof.
  rewrite <- contains_spec. destruct (contains needle hay); split; congruence.
Qed.

(** ** The vector store client *)

Section client_facts.
Import qdrant_rest.
Variable self : QdrantRESTClient.

Lemma existsb_eq_str_listing (names : list str) :
  existsb (fun n => eq_str n (collection_name self))
          (map (fun n => PStr n) names) = true
  <-> In (collection_name self) names.
Proof.
  rewrite existsb_exists. split.
  - intros [x [Hin Heq]]. apply in_map_iff in Hin as [n [<- Hn]].
    simpl in Heq. apply str_eqb_eq in Heq. subst. exact Hn.
  - intros Hin. exists (PStr (collection_name self)). split.
    + apply in_map. exact Hin.
    + simpl. apply str_eqb_refl.
Qed.

Lemma rmap_names_listing (names : list str) :
  rmap (fun c => subscript c (lit "name"))
       (map (fun n => PDict [(lit "name", PStr n)]) names)
  = Ok (map (fun n => PStr n) names).
Proof.
  induction names as [|n names IH]; [reflexivity|].
  cbn [map rmap]. rewrite IH. reflexivity.
Qed.

(** [_ensure_collection] never raises, always lists the collections and
    sends at most one more request, the creation. *)
Lemma ensure_collection_trace (env : servers) (t : trace) :
  exists created : bool,
    _ensure_collection self env t
    = (Ok tt, t ++ Request (list_request self)
                :: (if created then [Request (create_request self)] else [])).
Proof.
  unfold _ensure_collection, try_except, bind, _get, _put, send, lift, ret.
  fold (list_request self). fold (create_request self).
  destruct (env t (list_request self)) as [body|]; [|exists false; reflexivity].
  destruct (get body _ _) as [result|]; [|exists false; reflexivity].
  destruct (get result _ _) as [listed|]; [|exists false; reflexivity].
  destruct (iterate listed) as [items|]; [|exists false; reflexivity].
  destruct (rmap _ items) as [names|]; [|exists false; reflexivity].
  destruct (negb _); [|exists false; reflexivity].
  exists true.
  destruct (env _ (create_request self));
    rewrite <- app_assoc; reflexivity.
Qed.

Lemma ensure_collection_creates (env : servers) (t : trace) (names : list str) :
  env t (list_request self) = Some (listing names) ->
  ~ In (collection_name self) names ->
  _ensure_collection self env t
  = (Ok tt, t ++ [Request (list_request self); Request (create_request self)]).
Proof.
  intros Henv Hnot.
  unfold _ensure_collection, try_except, bind, _get, _put, send, lift, ret.
  fold (list_request self). fold (create_request self).
  rewrite Henv.
  change (get (listing names) (lit "result") (PDict []))
    with (Ok (PDict [(lit "collections",
                      PList (map (fun n => PDict [(lit "name", PStr n)]) names))])).
  cbv beta iota.
  change (get (PDict [(lit "collections",
                       PList (map (fun n => PDict [(lit "name", PStr n)]) names))])
              (lit "collections") (PList []))
    with (Ok (PList (map (fun n => PDict [(lit "name", PStr n)]) names))).
  cbv beta iota. unfold iterate.
  rewrite rmap_names_listing.
  destruct (existsb _ _) eqn:E.
  - apply existsb_eq_str_listing in E. contradiction.
  - cbn [negb]. destruct (env _ (create_request self));
      rewrite <- app_assoc; reflexivity.
Qed.
End client_facts.

(** C7. The embedding dimension is a total function of the model name: a
    name that contains "3-small" or "ada-002" gives 1536; otherwise a name
    that contains "3-large" gives 3072; every other name gives 1536.  The
    request that creates the collection carries this value as the vector
    size with the cosine distance, it is the only request besides the
    listing that [_ensure_collection] sends, and it is sent whenever the
    listing succeeds and does not name the collection. *)
Theorem embedding_dim_of_model (self : qdrant_rest.QdrantRESTClient) :
  let model := qdrant_rest.embedding_model self in
  let dim := qdrant_rest._get_embedding_dim self in
  (is_substring (lit "3-small") model \/ is_substring (lit "ada-002") model ->
   dim = 1536%Z)
  /\ (~ is_substring (lit "3-small") model ->
      ~ is_substring (lit "ada-002") model ->
      is_substring (lit "3-large") model -> dim = 3072%Z)
  /\ (~ is_substring (lit "3-small") model ->
      ~ is_substring (lit "ada-002") model ->
      ~ is_substring (lit "3-large") model -> dim = 1536%Z)
  /\ json (create_request self)
     = Some (PDict [(lit "vectors",
                     PDict [(lit "size", PInt dim);
                            (lit "distance", PStr (lit "Cosine"))])])
  /\ (forall env t, exists created : bool,
        qdrant_rest._ensure_collection self env t
        = (Ok tt, t ++ Request (list_request self)
                    :: (if created then [Request (create_request self)] else [])))
  /\ (forall env t names,
        env t (list_request self) = Some (listing names) ->
        ~ In (qdrant_rest.collection_name self) names ->
        qdrant_rest._ensure_collection self env t
        = (Ok tt, t ++ [Request (list_request self); Request (create_request self)])).
Proof.
  intros model dim. subst model dim. unfold qdrant_rest._get_embedding_dim.
  repeat split.
  - intros [Hs | Ha]; apply contains_spec in Hs || apply contains_spec in Ha.
    + rewrite Hs. reflexivity.
    + rewrite Ha, orb_true_r. reflexivity.
  - intros Hs Ha Hl. apply contains_false in Hs, Ha. apply contains_spec in Hl.
    rewrite Hs, Ha, Hl. reflexivity.
  - intros Hs Ha Hl. apply contains_false in Hs, Ha, Hl.
    rewrite Hs, Ha, Hl. reflexivity.
  - intros env t. apply ensure_collection_trace.
  - intros env t names. apply ensure_collection_creates.
Qed.

Lemma embedding_dim_of_model_witness :
  qdrant_rest._get_embedding_dim large_model_client = 3072%Z
  /\ qdrant_rest._ensure_collection large_model_client empty_servers []
     = (Ok tt, [Request (list_request large_model_client);
                Request (create_request large_model_client)]).
Proof.
  split.
  - apply (proj1 (proj2 (embedding_dim_of_model large_model_client)));
      first [ apply contains_false; reflexivity | apply contains_spec; reflexivity ].
  - apply (proj2 (proj2 (proj2 (proj2 (proj2
             (embedding_dim_of_model large_model_client))))) empty_servers [] []).
    + reflexivity.
    + simpl. tauto.
Defined.

(** C3. [add_documents] on an empty list of texts returns 0 and sends no
    request at all: the trace is left as it was, whatever the servers and
    whatever the metadata list. *)
Theorem add_documents_empty (self : qdrant_rest.QdrantRESTClient)
    (metadatas : list pyval) (env : servers) (t : trace) :
  qdrant_rest.add_documents self [] metadatas env t = (Ok 0%Z, t).
Proof. reflexivity. Qed.

Lemma clear_collection_trace (self : qdrant_rest.QdrantRESTClient)
    (env : servers) (t : trace) :
  exists created : bool,
    qdrant_rest.clear_collection self env t
    = (Ok tt, t ++ Request (delete_request self) :: Request (list_request self)
                :: (if created then [Request (create_request self)] else [])).
Proof.
  unfold qdrant_rest.clear_collection, try_except, bind at 1.
  unfold bind, qdrant_rest._delete, send, ret. fold (delete_request self).
  destruct (ensure_collection_trace self env (t ++ [Request (delete_request self)]))
    as [created E].
  exists created.
  destruct (env t (delete_request self)); rewrite E, <- app_assoc; reflexivity.
Qed.

(** ** The ingestion pipeline *)

(** C4. For an existing directory in which extraction finds no document,
    [ingest_directory] returns (it does not raise) the summary whose status
    is "warning" and whose [files_processed] is 0.  What it did before
    returning: with [force_reindex] the call of [clear_collection], whose
    only requests are the deletion, the listing and the creation of the
    collection; then the call of [extract_from_directory].  Neither the
    chunker nor [add_documents] was called, and no other request sent. *)
Theorem ingest_directory_no_documents
    {T : Type} `{chunker.TokenChunker T}
    (self : ingest.IngestionPipeline (T := T))
    (data_path : pdf_extractor.Path) (force_reindex : bool)
    (env : servers) (t : trace) :
  pdf_extractor.exists_ data_path = true ->
  fst (pdf_extractor.extract_from_directory data_path) = Ok [] ->
  exists summary done,
    ingest.ingest_directory self data_path force_reindex env t = (Ok summary, t ++ done)
    /\ subscript summary (lit "status") = Ok (PStr (lit "warning"))
    /\ subscript summary (lit "files_processed") = Ok (PInt 0)
    /\ calls_of done
       = (if force_reindex then [clear_collection_] else []) ++ [extract_from_directory_]
    /\ ~ In chunk_documents_ (calls_of done)
    /\ ~ In format_for_qdrant_ (calls_of done)
    /\ ~ In add_documents_ (calls_of done)
    /\ incl (requests_of done)
            (if force_reindex
             then [delete_request (ingest.vector_store self);
                   list_request (ingest.vector_store self);
                   create_request (ingest.vector_store self)]
             else []).
Proof.
  intros Hex Hnone.
  unfold ingest.ingest_directory. rewrite Hex. cbn [negb].
  destruct force_reindex.
  - destruct (clear_collection_trace (ingest.vector_store self) env
                (t ++ [Call clear_collection_])) as [created E].
    exists ingest.warning_summary.
    eexists (Call clear_collection_
               :: Request (delete_request _) :: Request (list_request _)
               :: (if created then [Request (create_request _)] else [])
               ++ [Call extract_from_directory_]).
    split; [|split; [reflexivity|split; [reflexivity|]]].
    + unfold bind at 1. unfold bind at 1. unfold bind at 1. unfold emit at 1.
      rewrite E. unfold bind, emit, lift, ret. rewrite Hnone. cbn [truthy negb].
      f_equal. rewrite <- !app_assoc. cbn [app]. reflexivity.
    + destruct created; cbn; (split; [reflexivity|]);
        repeat split; try (intros [K|[K|K]]; congruence);
        intros r Hr; cbn in Hr |- *; tauto.
  - exists ingest.warning_summary, [Call extract_from_directory_].
    split; [|split; [reflexivity|split; [reflexivity|]]].
    + unfold bind, emit, lift, ret. rewrite Hnone. reflexivity.
    + cbn. split; [reflexivity|].
      repeat split; try (intros [K|K]; congruence). intros r [].
Qed.

Lemma ingest_directory_no_documents_witness :
  exists summary done,
    ingest.ingest_directory default_pipeline empty_directory true empty_servers []
    = (Ok summary, [] ++ done)
    /\ subscript summary (lit "status") = Ok (PStr (lit "warning"))
    /\ subscript summary (lit "files_processed") = Ok (PInt 0)
    /\ calls_of done = [clear_collection_] ++ [extract_from_directory_]
    /\ ~ In chunk_documents_ (calls_of done)
    /\ ~ In format_for_qdrant_ (calls_of done)
    /\ ~ In add_documents_ (calls_of done)
    /\ incl (requests_of done)
            [delete_request default_client; list_request default_client;
             create_request default_client].
Proof.
  apply (ingest_directory_no_documents default_pipeline empty_directory true
           empty_servers []); reflexivity.
Defined.

(** C8. [ingest_file] hands [format_for_qdrant] the list of records wrapped
    in one more list, so the first comprehension subscripts a list with the
    key "text": whenever the file exists and extraction and chunking
    succeed, the call raises [TypeError] after the extractor, the chunker
    and [format_for_qdrant] were called and before [add_documents] is: no
    request is sent, no point upserted.  On no input at all does
    [ingest_file] return its summary. *)
Theorem ingest_file_raises_TypeError
    {T : Type} `{chunker.TokenChunker T}
    (self : ingest.IngestionPipeline (T := T))
    (file_path : pdf_extractor.Path) (env : servers) (t : trace) :
  (forall text chunks,
      pdf_extractor.exists_ file_path = true ->
      pdf_extractor.extract_text file_path = Ok text ->
      chunker.chunk_text (ingest.chunker self) text = Ok chunks ->
      ingest.ingest_file self file_path env t
      = (Raise TypeError,
         t ++ [Call extract_text_; Call chunk_text_; Call format_for_qdrant_]))
  /\ (forall summary t',
         ingest.ingest_file self file_path env t <> (Ok summary, t')).
Proof.
  split.
  - intros text chunks Hex Htext Hchunks.
    unfold ingest.ingest_file. rewrite Hex. cbn [negb].
    unfold bind, emit, lift. rewrite Htext, Hchunks.
    cbn [chunker.format_for_qdrant rmap subscript rbind fst snd].
    rewrite <- !app_assoc. reflexivity.
  - intros summary t'. unfold ingest.ingest_file.
    destruct (pdf_extractor.exists_ file_path); cbn [negb]; [|discriminate].
    unfold bind, emit, lift.
    destruct (pdf_extractor.extract_text file_path) as [text|]; [|discriminate].
    destruct (chunker.chunk_text _ text) as [chunks|]; [|discriminate].
    cbn [chunker.format_for_qdrant rmap subscript rbind fst snd]. discriminate.
Qed.

Lemma ingest_file_raises_TypeError_witness :
  ingest.ingest_file default_pipeline notes_path empty_servers []
  = (Raise TypeError, [Call extract_text_; Call chunk_text_; Call format_for_qdrant_]).
Proof.
  apply (proj1 (ingest_file_raises_TypeError default_pipeline notes_path
                  empty_servers [])
           (lit "Hello world")
           [simple_chunker.mkChunk (lit "Hello world") 2]);
    reflexivity.
Defined.

(** ** Dictionaries and batches *)

Lemma dict_get_set_same {V} (d : dict V) (k : str) (v : V) :
  dict_get (dict_set d k v) k = Some v.
Proof.
  induction d as [|[k' v'] d IH]; simpl.
  - rewrite str_eqb_refl. reflexivity.
  - destruct (str_eqb k' k) eqn:E; simpl; rewrite E; [reflexivity | exact IH].
Qed.

Lemma dict_get_set_other {V} (d : dict V) (k k0 : str) (v : V) :
  k0 <> k -> dict_get (dict_set d k v) k0 = dict_get d k0.
Proof.
  intros Hne. induction d as [|[k' v'] d IH]; simpl.
  - destruct (str_eqb k k0) eqn:E; [|reflexivity].
    apply str_eqb_eq in E. congruence.
  - destruct (str_eqb k' k) eqn:E; simpl.
    + destruct (str_eqb k' k0) eqn:E0; [|reflexivity].
      apply str_eqb_eq in E, E0. congruence.
    + rewrite IH. reflexivity.
Qed.

Lemma keys_dict_set {V} (d : dict V) (k : str) (v : V) :
  keys (dict_set d k v) = if existsb (fun k' => str_eqb k' k) (keys d)
                          then keys d else keys d ++ [k].
Proof.
  unfold keys. induction d as [|[k' v'] d IH]; simpl; [reflexivity|].
  destruct (str_eqb k' k) eqn:E; simpl; [reflexivity|].
  rewrite IH. destruct (existsb _ _); reflexivity.
Qed.

Lemma firstn_plus {A} (a b : nat) (l : list A) :
  firstn (a + b) l = firstn a l ++ firstn b (skipn a l).
Proof.
  revert l; induction a as [|a IH]; intros [|x l]; simpl;
    try reflexivity.
  - rewrite firstn_nil. reflexivity.
  - rewrite IH. reflexivity.
Qed.

Section batches.
Variable A : Type.
Variable size : nat.
Hypothesis size_pos : 0 < size.

Lemma concat_slices (l : list A) (m : nat) :
  List.concat (map (fun i => slice i (i + size) l)
                   (map (fun k => k * size) (seq 0 m)))
  = firstn (m * size) l.
Proof.
  induction m as [|m IH]; [reflexivity|].
  rewrite seq_S, !map_app, concat_app, IH. cbn [map List.concat plus].
  rewrite app_nil_r. unfold slice.
  replace (m * size + size - m * size) with size by lia.
  replace (S m * size) with (m * size + size) by lia.
  symmetry. apply firstn_plus.
Qed.

Lemma range_step_covers (n : nat) : n <= (n + size - 1) / size * size.
Proof.
  pose proof (Nat.div_mod_eq (n + size - 1) size) as E.
  pose proof (Nat.mod_upper_bound (n + size - 1) size) as B.
  nia.
Qed.

Lemma range_step_below (n i : nat) : In i (range_step n size) -> i < n.
Proof.
  unfold range_step. intros Hin.
  apply in_map_iff in Hin as [k [<- Hk]]. apply in_seq in Hk.
  pose proof (Nat.div_mod_eq (n + size - 1) size) as E.
  pose proof (Nat.mod_upper_bound (n + size - 1) size) as B.
  nia.
Qed.

(** The slices a loop over [range(0, len(l), size)] takes partition [l]
    into non-empty pieces of at most [size] elements. *)
Lemma batches_partition (l : list A) :
  let batches := map (fun i => slice i (i + size) l)
                     (range_step (List.length l) size) in
  List.concat batches = l
  /\ Forall (fun b => 0 < List.length b <= size) batches.
Proof.
  cbv zeta. split.
  - unfold range_step. rewrite concat_slices.
    apply firstn_all2. apply range_step_covers.
  - apply Forall_forall. intros b Hb.
    apply in_map_iff in Hb as [i [<- Hi]]. apply range_step_below in Hi.
    unfold slice. rewrite length_firstn, length_skipn. lia.
Qed.
End batches.

(** ** [add_documents] *)

Section add_documents_facts.
Import qdrant_rest.
Variable self : QdrantRESTClient.
Variable env : servers.

(** Whatever the answer, [_create_embeddings] sends exactly one request. *)
Lemma create_embeddings_trace (texts : list pyval) (t : trace) :
  snd (_create_embeddings self texts env t)
  = t ++ [Request (embeddings_request self texts)].
Proof.
  unfold _create_embeddings, bind, send, lift.
  destruct (env t (embeddings_request self texts)) as [body|]; [|reflexivity].
  destruct (subscript body _) as [data|]; [|reflexivity].
  destruct (iterate data); reflexivity.
Qed.

Lemma points_built (c : Z) (texts vectors : list pyval) (metas : list (dict pyval)) :
  forall start : Z,
    List.length vectors = List.length texts ->
    List.length metas = List.length texts ->
    exists points,
      rmap (point (PInt c))
           (enumerate_from start (zip3 texts vectors (map PDict metas)))
      = Ok points
      /\ List.length points = List.length texts
      /\ forall i text v m,
          nth_error texts i = Some text ->
          nth_error vectors i = Some v ->
          nth_error metas i = Some m ->
          exists p, nth_error points i = Some p
                    /\ is_point p (c + (start + Z.of_nat i)) v text m.
Proof.
  revert vectors metas.
  induction texts as [|text texts IH]; intros vectors metas start Hv Hm.
  - exists []. repeat split. intros [|i] ? ? ?; discriminate.
  - destruct vectors as [|v vectors]; [discriminate|].
    destruct metas as [|m metas]; [discriminate|].
    simpl in Hv, Hm.
    destruct (IH vectors metas (start + 1)%Z) as [points [E [L P]]]; try lia.
    exists (PDict [(lit "id", PInt (c + start)); (lit "vector", v);
                   (lit "payload", PDict (dict_set m (lit "text") text))]
              :: points).
    split; [|split].
    + cbn [map zip3 enumerate_from rmap]. rewrite E. reflexivity.
    + simpl. rewrite L. reflexivity.
    + intros [|i] text' v' m' Ht Hv' Hm'; simpl in Ht, Hv', Hm'.
      * inversion Ht; inversion Hv'; inversion Hm'; subst.
        eexists; split; [reflexivity|].
        exists (dict_set m' (lit "text") text'). split; [|split].
        -- rewrite Z.add_0_r. reflexivity.
        -- apply dict_get_set_same.
        -- intros k Hk. apply dict_get_set_other. exact Hk.
      * destruct (P i text' v' m' Ht Hv' Hm') as [p [Hp Hpt]].
        exists p. split; [exact Hp|].
        replace (c + (start + Z.of_nat (S i)))%Z
          with (c + (start + 1 + Z.of_nat i))%Z by lia.
        exact Hpt.
Qed.

(** When every upsert is accepted, the loop sends one request per index. *)
Lemma upload_batches (points : list pyval) (indices : list nat) :
  (forall t' batch, env t' (upsert_request self batch) <> None) ->
  forall t,
    for_each indices
             (fun i => bind (_put self (points_endpoint self)
                               (PDict [(lit "points",
                                        PList (slice i (i + batch_size) points))]))
                            (fun _ => ret tt))
             env t
    = (Ok tt,
       t ++ map (fun i => Request (upsert_request self
                                     (slice i (i + batch_size) points)))
                indices).
Proof.
  intros Hup. induction indices as [|i indices IH]; intros t.
  - simpl. rewrite app_nil_r. reflexivity.
  - cbn [for_each map]. unfold bind at 1. unfold bind at 1.
    unfold _put, send. fold (upsert_request self (slice i (i + batch_size) points)).
    destruct (env t (upsert_request self _)) as [body|] eqn:E.
    + unfold ret at 1. rewrite IH, <- app_assoc. reflexivity.
    + exfalso. exact (Hup _ _ E).
Qed.
End add_documents_facts.

(** C2. For a non-empty list of texts with as many metadata dictionaries:
    when the embedding service returns one vector per text, the read of
    the collection that follows returns the point count [c], and the
    upserts are accepted, [add_documents] returns the number of texts.
    The point of the text at index [i] has the id [c + i], the vector at
    index [i] and as payload the metadata at index [i] with the text under
    the key "text".  After the embedding request and the read, the requests
    are the upserts of batches that partition the points, in order, each
    of at least one and at most 100 points. *)
Theorem add_documents_assigns_ids
    (self : qdrant_rest.QdrantRESTClient)
    (texts vectors : list pyval) (metas : list (dict pyval))
    (c : Z) (info : pyval) (env : servers) (t : trace) :
  texts <> [] ->
  List.length metas = List.length texts ->
  fst (qdrant_rest._create_embeddings self texts env t) = Ok vectors ->
  List.length vectors = List.length texts ->
  env (t ++ [Request (qdrant_rest.embeddings_request self texts)]) (info_request self)
  = Some info ->
  points_count_of info = Ok (PInt c) ->
  (forall t' batch, env t' (upsert_request self batch) <> None) ->
  exists points batches,
    qdrant_rest.add_documents self texts (map PDict metas) env t
    = (Ok (len texts),
       t ++ Request (qdrant_rest.embeddings_request self texts)
         :: Request (info_request self)
         :: map (fun b => Request (upsert_request self b)) batches)
    /\ List.length points = List.length texts
    /\ (forall i text v m,
           nth_error texts i = Some text ->
           nth_error vectors i = Some v ->
           nth_error metas i = Some m ->
           exists p, nth_error points i = Some p
                     /\ is_point p (c + Z.of_nat i) v text m)
    /\ List.concat batches = points
    /\ Forall (fun b => 0 < List.length b <= 100) batches.
Proof.
  intros Hne Hm Hemb Hv Hinfo Hcount Hup.
  destruct (points_built c texts vectors metas 0 Hv Hm) as [points [E [L P]]].
  exists points.
  exists (map (fun i => slice i (i + qdrant_rest.batch_size) points)
              (range_step (List.length points) qdrant_rest.batch_size)).
  split; [|split; [exact L|split; [exact P|]]].
  - unfold qdrant_rest.add_documents.
    destruct texts as [|x texts']; [congruence|]. cbn [truthy negb].
    set (texts := x :: texts') in *.
    unfold bind at 1.
    pose proof (create_embeddings_trace self env texts t) as Htr.
    destruct (qdrant_rest._create_embeddings self texts env t) as [r t1].
    simpl in Hemb, Htr. subst r t1.
    unfold bind at 1. unfold try_except, bind at 1.
    unfold qdrant_rest._get, send. fold (info_request self). rewrite Hinfo.
    unfold points_count_of, rbind in Hcount.
    unfold bind at 1. unfold lift at 1.
    destruct (subscript info (lit "result")) as [result|]; [|discriminate].
    unfold lift at 1. rewrite Hcount.
    unfold bind at 1. unfold lift at 1. rewrite E.
    unfold bind at 1.
    rewrite (upload_batches self env points _ Hup).
    unfold ret, len. rewrite L, map_map, <- !app_assoc. reflexivity.
  - apply (batches_partition pyval qdrant_rest.batch_size).
    unfold qdrant_rest.batch_size. lia.
Qed.

Lemma add_documents_assigns_ids_witness :
  exists points batches,
    qdrant_rest.add_documents default_client two_texts (map PDict two_metadatas)
                              seven_points_servers []
    = (Ok (len two_texts),
       [] ++ Request (qdrant_rest.embeddings_request default_client two_texts)
          :: Request (info_request default_client)
          :: map (fun b => Request (upsert_request default_client b)) batches)
    /\ List.length points = List.length two_texts
    /\ (forall i text v m,
           nth_error two_texts i = Some text ->
           nth_error two_vectors i = Some v ->
           nth_error two_metadatas i = Some m ->
           exists p, nth_error points i = Some p
                     /\ is_point p (7 + Z.of_nat i) v text m)
    /\ List.concat batches = points
    /\ Forall (fun b => 0 < List.length b <= 100) batches.
Proof.
  apply (add_documents_assigns_ids default_client two_texts two_vectors
           two_metadatas 7
           (PDict [(lit "result", PDict [(lit "points_count", PInt 7)])])
           seven_points_servers []);
    try reflexivity; discriminate.
Defined.

(** ** The document extractor *)

Section extractor_facts.
Import pdf_extractor.

(** The loop keeps what the successful files give and prints one line per
    file. *)
Lemma extract_loop (files : list Path) :
  forall acc,
    fold_left extract_step files acc
    = (fold_left store (successes files) (fst acc), snd acc ++ map report files).
Proof.
  induction files as [|f files IH]; intros [d out].
  - simpl. rewrite app_nil_r. reflexivity.
  - cbn [fold_left]. rewrite IH. unfold extract_step, successes, report.
    cbn [flat_map map fst snd].
    destruct (extract_text f) as [text|e]; cbn [fst snd app fold_left];
      rewrite <- app_assoc; reflexivity.
Qed.

Lemma extract_from_directory_eq (directory : Path) :
  exists_ directory = true ->
  extract_from_directory directory
  = (Ok (fold_left store (successes (collect_files directory)) []),
     map report (collect_files directory)).
Proof.
  intros Hex. unfold extract_from_directory. rewrite Hex. cbn [negb].
  rewrite extract_loop. reflexivity.
Qed.

Lemma existsb_str_eqb (k : str) (l : list str) :
  existsb (fun k' => str_eqb k' k) l = true <-> In k l.
Proof.
  rewrite existsb_exists. split.
  - intros [x [Hin E]]. apply str_eqb_eq in E. subst. exact Hin.
  - intros Hin. exists k. split; [exact Hin | apply str_eqb_refl].
Qed.

Lemma in_keys_dict_set {V} (d : dict V) (k k0 : str) (v : V) :
  In k0 (keys (dict_set d k v)) <-> k0 = k \/ In k0 (keys d).
Proof.
  rewrite keys_dict_set.
  destruct (existsb _ _) eqn:E.
  - apply existsb_str_eqb in E. split; [tauto | intros [-> | ?]; assumption].
  - rewrite in_app_iff. simpl. split; intros; intuition congruence.
Qed.

Lemma NoDup_keys_dict_set {V} (d : dict V) (k : str) (v : V) :
  NoDup (keys d) -> NoDup (keys (dict_set d k v)).
Proof.
  intros Hd. rewrite keys_dict_set.
  destruct (existsb _ _) eqn:E; [exact Hd|].
  assert (~ In k (keys d)) as Hk.
  { intros Hin. apply existsb_str_eqb in Hin. congruence. }
  apply NoDup_app; [exact Hd | repeat constructor; intros [] | ].
  intros x Hx [<- | []]. contradiction.
Qed.

Lemma NoDup_keys_stored (pairs : list (str * str)) :
  forall d, NoDup (keys d) -> NoDup (keys (fold_left store pairs d)).
Proof.
  induction pairs as [|p pairs IH]; intros d Hd; [exact Hd|].
  cbn [fold_left]. apply IH. apply NoDup_keys_dict_set. exact Hd.
Qed.

Lemma in_keys_stored (pairs : list (str * str)) (n : str) :
  forall d, In n (keys (fold_left store pairs d))
            <-> In n (map fst pairs) \/ In n (keys d).
Proof.
  induction pairs as [|p pairs IH]; intros d; cbn [fold_left map].
  - simpl. tauto.
  - rewrite IH. unfold store. rewrite in_keys_dict_set. simpl.
    split; intros; intuition congruence.
Qed.

Lemma dict_get_stored (pairs : list (str * str)) (n : str) :
  forall d found,
    dict_get d n = found ->
    dict_get (fold_left store pairs d) n
    = fold_left (fun found p => if str_eqb (fst p) n then Some (snd p) else found)
                pairs found.
Proof.
  induction pairs as [|p pairs IH]; intros d found Hd; cbn [fold_left].
  - exact Hd.
  - apply IH. unfold store.
    destruct (str_eqb (fst p) n) eqn:E.
    + apply str_eqb_eq in E. subst n. apply dict_get_set_same.
    + apply str_eqb_neq in E. rewrite dict_get_set_other by congruence. exact Hd.
Qed.

Lemma in_successes (files : list Path) (n text : str) :
  In (n, text) (successes files)
  <-> exists f, In f files /\ name f = n /\ extract_text f = Ok text.
Proof.
  unfold successes. rewrite in_flat_map. split.
  - intros [f [Hf Hin]]. exists f. split; [exact Hf|].
    destruct (extract_text f) as [t|]; [|destruct Hin].
    destruct Hin as [E|[]]. inversion E; subst. split; reflexivity.
  - intros [f [Hf [Hn Ht]]]. exists f. split; [exact Hf|].
    rewrite Ht, Hn. left. reflexivity.
Qed.

Lemma successes_app (a b : list Path) :
  successes (a ++ b) = successes a ++ successes b.
Proof. unfold successes. apply flat_map_app. Qed.

Lemma last_text_app (n : str) (a b : list (str * str)) :
  last_text n (a ++ b)
  = match last_text n b with Some t => Some t | None => last_text n a end.
Proof.
  unfold last_text. rewrite fold_left_app.
  generalize (fold_left
                (fun found p => if str_eqb (fst p) n then Some (snd p) else found)
                a None).
  induction b as [|p b IH] using rev_ind; intros found.
  - simpl. destruct found; reflexivity.
  - rewrite !fold_left_app. cbn [fold_left].
    destruct (str_eqb (fst p) n); [reflexivity | apply IH].
Qed.

Lemma last_text_none (n : str) (pairs : list (str * str)) :
  ~ In n (map fst pairs) -> last_text n pairs = None.
Proof.
  induction pairs as [|p pairs IH] using rev_ind; intros Hn; [reflexivity|].
  rewrite last_text_app. rewrite map_app, in_app_iff in Hn.
  unfold last_text at 1. cbn [fold_left].
  destruct (str_eqb (fst p) n) eqn:E.
  - apply str_eqb_eq in E. exfalso. apply Hn. right. left. exact E.
  - apply IH. tauto.
Qed.
End extractor_facts.

(** C5. For every existing directory [extract_from_directory] returns a
    mapping and never raises.  Each file is extracted on its own: the
    mapping is the one that the files whose extraction succeeds give by
    themselves, a name is a key exactly when some matched file of that name
    was extracted, and for every file whose extraction raised a warning
    with its name and the exception was printed.  In particular a directory
    with a readable [notes.txt] and a [broken.pdf] that [PdfReader] cannot
    parse yields the mapping with the single entry of [notes.txt]. *)
Theorem extract_from_directory_skips_failures :
  (forall directory,
      pdf_extractor.exists_ directory = true ->
      exists results,
        pdf_extractor.extract_from_directory directory
        = (Ok results, map report (pdf_extractor.collect_files directory))
        /\ results
           = fold_left store (successes (pdf_extractor.collect_files directory)) []
        /\ (forall n,
               In n (keys results)
               <-> exists f text,
                     In f (pdf_extractor.collect_files directory)
                     /\ pdf_extractor.name f = n
                     /\ pdf_extractor.extract_text f = Ok text)
        /\ (forall f e,
               In f (pdf_extractor.collect_files directory) ->
               pdf_extractor.extract_text f = Raise e ->
               In (pdf_extractor.Warning_failed (pdf_extractor.name f) e)
                  (snd (pdf_extractor.extract_from_directory directory))))
  /\ (forall text other_read other_pages e,
         let directory := txt_and_corrupt_pdf text other_read other_pages e in
         fst (pdf_extractor.extract_from_directory directory)
         = Ok [(lit "notes.txt", text)]
         /\ In (pdf_extractor.Warning_failed (lit "broken.pdf") RuntimeError)
               (snd (pdf_extractor.extract_from_directory directory))).
Proof.
  split.
  - intros directory Hex.
    exists (fold_left store (successes (pdf_extractor.collect_files directory)) []).
    rewrite (extract_from_directory_eq directory Hex).
    split; [reflexivity|split; [reflexivity|split]].
    + intros n. rewrite in_keys_stored. simpl. rewrite in_map_iff. split.
      * intros [[[n' text] [E Hin]] | []]. simpl in E. subst n'.
        apply in_successes in Hin as [f [Hf [Hn Ht]]]. exists f, text. auto.
      * intros [f [text [Hf [Hn Ht]]]]. left. exists (n, text).
        split; [reflexivity|]. apply in_successes. exists f. auto.
    + intros f e Hf He. cbn [snd]. apply in_map_iff. exists f.
      split; [|exact Hf]. unfold report. rewrite He. reflexivity.
  - intros text other_read other_pages e. cbv zeta. split.
    + reflexivity.
    + vm_compute. auto.
Qed.

Lemma extract_from_directory_skips_failures_witness :
  exists results,
    pdf_extractor.extract_from_directory notes_and_broken
    = (Ok results, map report (pdf_extractor.collect_files notes_and_broken))
    /\ results
       = fold_left store (successes (pdf_extractor.collect_files notes_and_broken)) []
    /\ (forall n,
           In n (keys results)
           <-> exists f text,
                 In f (pdf_extractor.collect_files notes_and_broken)
                 /\ pdf_extractor.name f = n
                 /\ pdf_extractor.extract_text f = Ok text)
    /\ (forall f e,
           In f (pdf_extractor.collect_files notes_and_broken) ->
           pdf_extractor.extract_text f = Raise e ->
           In (pdf_extractor.Warning_failed (pdf_extractor.name f) e)
              (snd (pdf_extractor.extract_from_directory notes_and_broken))).
Proof.
  apply (proj1 extract_from_directory_skips_failures notes_and_broken).
  reflexivity.
Defined.

Section duplicates.
Import pdf_extractor.

(** The recursive pattern matches the top-level entries again, first. *)
Lemma glob_recursive_top (directory : Path) (entries : list (str * node)) (ext : str) :
  resolved directory = Some (Dir entries) ->
  glob_recursive directory ext
  = glob directory ext
    ++ flat_map (matching ext) (flat_map (fun e => walk (snd e)) entries).
Proof. intros E. unfold glob_recursive, glob. rewrite E. reflexivity. Qed.

Lemma matching_entry (ext : str) (entries : list (str * node)) (n : str) (x : node) :
  In (n, x) entries ->
  endswith ext n = true ->
  In (mkPath n (Some x)) (matching ext entries).
Proof.
  intros Hin Hends. unfold matching. apply in_map_iff. exists (n, x).
  split; [reflexivity|]. apply filter_In. split; assumption.
Qed.

Lemma glob_entry (directory : Path) (entries : list (str * node)) (ext n : str)
    (x : node) :
  resolved directory = Some (Dir entries) ->
  In (n, x) entries ->
  endswith ext n = true ->
  In (mkPath n (Some x)) (glob directory ext).
Proof.
  intros E Hin Hends. unfold glob. rewrite E. apply matching_entry; assumption.
Qed.

Lemma listed_twice (directory : Path) (ext : str) (f : Path) :
  In ext supported_extensions ->
  In f (glob directory ext) ->
  exists a b c, collect_files directory = a ++ f :: b ++ f :: c.
Proof.
  intros Hext Hf. unfold collect_files.
  apply in_split in Hext as [e1 [e2 ->]].
  rewrite flat_map_app. cbn [flat_map].
  destruct (resolved directory) as [[d|entries|to]|] eqn:E;
    try (unfold glob in Hf; rewrite E in Hf; destruct Hf; fail).
  rewrite (glob_recursive_top directory entries ext E).
  apply in_split in Hf as [x [y Hglob]]. rewrite Hglob.
  exists (flat_map (fun ext0 => glob directory ext0 ++ glob_recursive directory ext0)
                   e1 ++ x).
  exists (y ++ x).
  exists (y ++ flat_map (matching ext)
                       (flat_map (fun e => walk (snd e)) entries)
            ++ flat_map (fun ext0 => glob directory ext0 ++ glob_recursive directory ext0)
                        e2).
  repeat (rewrite <- app_assoc; cbn [app]).
  reflexivity.
Qed.

(** Two elements of two segments of a list, in the order of the segments. *)
Lemma in_order {A} (l1 l2 l3 l4 l5 : list A) (x y : A) :
  In x l2 -> In y l4 ->
  exists a b c, l1 ++ l2 ++ l3 ++ l4 ++ l5 = a ++ x :: b ++ y :: c.
Proof.
  intros Hx Hy.
  apply in_split in Hx as [x1 [x2 ->]]. apply in_split in Hy as [y1 [y2 ->]].
  exists (l1 ++ x1), (x2 ++ l3 ++ y1), (y2 ++ l5).
  repeat (rewrite <- app_assoc; cbn [app]). reflexivity.
Qed.

(** The recursive pattern lists the files of an earlier subdirectory
    before those of a later one. *)
Lemma subdirectories_in_order (ext : str) (before between after : list (str * node))
    (sub1 sub2 : str) (es1 es2 : list (str * node)) (f1 f2 : Path) :
  In f1 (matching ext es1) ->
  In f2 (matching ext es2) ->
  exists a b c,
    flat_map (matching ext)
             (walk (Dir (before ++ (sub1, Dir es1) :: between
                                ++ (sub2, Dir es2) :: after)))
    = a ++ f1 :: b ++ f2 :: c.
Proof.
  intros H1 H2. cbn [walk flat_map].
  repeat (progress (rewrite ?flat_map_app; cbn [flat_map snd walk])).
  set (W := fun l : list (str * node) =>
              flat_map (matching ext) (flat_map (fun e => walk (snd e)) l)).
  destruct (in_order
              (matching ext (before ++ (sub1, Dir es1) :: between
                                    ++ (sub2, Dir es2) :: after) ++ W before)
              (matching ext es1)
              (W es1 ++ W between)
              (matching ext es2)
              (W es2 ++ W after) f1 f2 H1 H2) as (a & b & c & E).
  exists a, b, c. rewrite <- E. unfold W.
  repeat (rewrite <- app_assoc; cbn [app]). reflexivity.
Qed.

Lemma collected_in_order (directory : Path) (ext : str) (f1 f2 : Path) :
  In ext supported_extensions ->
  (exists a b c, glob_recursive directory ext = a ++ f1 :: b ++ f2 :: c) ->
  exists a b c, collect_files directory = a ++ f1 :: b ++ f2 :: c.
Proof.
  intros Hext (a & b & c & E). unfold collect_files.
  apply in_split in Hext as [e1 [e2 ->]].
  rewrite flat_map_app. cbn [flat_map]. rewrite E.
  exists (flat_map (fun ext0 => glob directory ext0 ++ glob_recursive directory ext0)
                   e1 ++ glob directory ext ++ a).
  exists b.
  exists (c ++ flat_map (fun ext0 => glob directory ext0
                                     ++ glob_recursive directory ext0) e2).
  repeat (rewrite <- app_assoc; cbn [app]). reflexivity.
Qed.

(** The text under a name is the one of the last successful file of that
    name. *)
Lemma last_text_after (n : str) (a c : list Path) (f : Path) (t : str) :
  name f = n ->
  extract_text f = Ok t ->
  last_text n (successes (a ++ f :: c))
  = match last_text n (successes c) with
    | Some later => Some later
    | None => Some t
    end.
Proof.
  intros Hn Ht.
  replace (a ++ f :: c) with (a ++ [f] ++ c) by reflexivity.
  rewrite !successes_app, !last_text_app.
  destruct (last_text n (successes c)); [reflexivity|].
  unfold successes. cbn [flat_map]. rewrite Ht, Hn.
  unfold last_text. cbn [app fold_left fst snd].
  rewrite str_eqb_refl. reflexivity.
Qed.
Lemma last_text_some (n t : str) (pairs : list (str * str)) :
  last_text n pairs = Some t -> In (n, t) pairs.
Proof.
  induction pairs as [|p pairs IH] using rev_ind; [discriminate|].
  rewrite last_text_app. unfold last_text at 1. cbn [fold_left].
  destruct (str_eqb (fst p) n) eqn:E.
  - apply str_eqb_eq in E. intros Ht. inversion Ht; subst.
    apply in_or_app. right. left. destruct p; reflexivity.
  - intros Ht. apply in_or_app. left. apply IH. exact Ht.
Qed.

(** The recursive pattern reaches the entries at every depth, and nothing
    else. *)
Lemma walk_entry_below (root : node) (n : str) (x : node) :
  entry_below root n x -> exists es, In es (walk root) /\ In (n, x) es.
Proof.
  induction 1 as [entries n x Hin | entries sub d n x Hd Hbelow IH].
  - exists entries. split; [left; reflexivity | exact Hin].
  - destruct IH as (es & Hes & Hin). exists es. split; [|exact Hin].
    cbn [walk]. right. apply in_flat_map. exists (sub, d). split; assumption.
Qed.

Lemma in_walk (n : str) (x : node) :
  forall root es, In es (walk root) -> In (n, x) es -> entry_below root n x.
Proof.
  fix IH 1. intros [d|entries|to] es Hes Hin; cbn [walk] in Hes; try contradiction.
  destruct Hes as [<- | Hes]; [apply entry_here; exact Hin|].
  assert (exists sub d, In (sub, d) entries /\ entry_below d n x)
    as (sub & d & Hd & Hbelow).
  { induction entries as [|[sub d] entries IHentries]; [contradiction|].
    cbn [flat_map snd] in Hes. apply in_app_or in Hes as [Hd | Hrest].
    - exists sub, d. split; [left; reflexivity | exact (IH d es Hd Hin)].
    - destruct (IHentries Hrest) as (sub' & d' & Hd' & Hb).
      exists sub', d'. split; [right; exact Hd' | exact Hb]. }
  exact (entry_deeper entries sub d n x Hd Hbelow).
Qed.

Lemma collected_entry (directory : Path) (root : node) (ext n : str) (x : node) :
  resolved directory = Some root ->
  In ext supported_extensions ->
  endswith ext n = true ->
  entry_below root n x ->
  In (mkPath n (Some x)) (collect_files directory).
Proof.
  intros Hdir Hext Hends Hbelow. unfold collect_files.
  apply in_flat_map. exists ext. split; [exact Hext|].
  apply in_or_app. right. unfold glob_recursive. rewrite Hdir.
  destruct (walk_entry_below root n x Hbelow) as (es & Hes & Hin).
  apply in_flat_map. exists es. split; [exact Hes|].
  apply matching_entry; assumption.
Qed.

Lemma collected_is_entry (directory f : Path) :
  In f (collect_files directory) ->
  exists root x,
    resolved directory = Some root
    /\ f = mkPath (name f) (Some x)
    /\ entry_below root (name f) x.
Proof.
  unfold collect_files. intros Hf.
  apply in_flat_map in Hf as [ext [_ Hf]].
  assert (forall es, In f (matching ext es) ->
                     exists x, f = mkPath (name f) (Some x) /\ In (name f, x) es)
    as Hmatch.
  { intros es H. unfold matching in H.
    apply in_map_iff in H as [[n x] [<- He]]. apply filter_In in He as [He _].
    exists x. split; [reflexivity | exact He]. }
  apply in_app_or in Hf as [Hf | Hf].
  - unfold glob in Hf.
    destruct (resolved directory) as [[d|entries|to]|];
      try (destruct Hf; fail).
    destruct (Hmatch entries Hf) as (x & Ef & Hin).
    exists (Dir entries), x.
    split; [reflexivity|split; [exact Ef | apply entry_here; exact Hin]].
  - unfold glob_recursive in Hf.
    destruct (resolved directory) as [root|]; [|destruct Hf].
    apply in_flat_map in Hf as [es [Hes Hf]].
    destruct (Hmatch es Hf) as (x & Ef & Hin).
    exists root, x.
    split; [reflexivity|split; [exact Ef | exact (in_walk _ x root es Hes Hin)]].
Qed.
End duplicates.

(** C10. The mapping of [extract_from_directory] is keyed by the base name
    alone.  No key occurs twice, and the text under a name is that of the
    last file of that name, in the order of extraction, whose extraction
    succeeded.  Of the entries of the directory itself, each one whose name
    ends with a supported extension is extracted twice: it is listed once
    by the plain and once more by the recursive pattern, and a line is
    printed for each.  When two subdirectories each hold an entry of one
    name with a supported extension and both are extracted, the one of the
    earlier subdirectory is extracted first: the mapping has a single entry
    for the name, with the text of the last file of that name extracted
    after it, the one of the later subdirectory when none follows.  At any
    depth, the entries of one name that are extracted share the single
    entry of that name, which has the text of one of them: of two
    different texts one is lost.  In particular, for every text, with a top-level [top.txt] and a
    [rules.txt] in each of the subdirectories [2023] and [2024], the
    mapping has the two entries of [top.txt] and of the [rules.txt] of
    [2024], and four lines are printed. *)
Theorem extract_from_directory_keyed_by_name :
  (forall directory,
      pdf_extractor.exists_ directory = true ->
      exists results,
        pdf_extractor.extract_from_directory directory
        = (Ok results, map report (pdf_extractor.collect_files directory))
        /\ NoDup (keys results)
        /\ (forall n,
               dict_get results n
               = last_text n (successes (pdf_extractor.collect_files directory)))
        /\ (forall before f1 between f2 after t1 t2,
               pdf_extractor.collect_files directory
               = before ++ f1 :: between ++ f2 :: after ->
               pdf_extractor.name f1 = pdf_extractor.name f2 ->
               pdf_extractor.extract_text f1 = Ok t1 ->
               pdf_extractor.extract_text f2 = Ok t2 ->
               (forall f t, In f after ->
                            pdf_extractor.name f = pdf_extractor.name f2 ->
                            pdf_extractor.extract_text f <> Ok t) ->
               dict_get results (pdf_extractor.name f2) = Some t2
               /\ count_occ (list_eq_dec ascii_dec) (keys results)
                            (pdf_extractor.name f2) = 1)
        /\ (forall ext f,
               In ext pdf_extractor.supported_extensions ->
               In f (pdf_extractor.glob directory ext) ->
               exists a b c,
                 pdf_extractor.collect_files directory = a ++ f :: b ++ f :: c)
        /\ (forall entries ext n x,
               pdf_extractor.resolved directory = Some (pdf_extractor.Dir entries) ->
               In ext pdf_extractor.supported_extensions ->
               In (n, x) entries ->
               endswith ext n = true ->
               let f := pdf_extractor.mkPath n (Some x) in
               (exists a b c,
                   pdf_extractor.collect_files directory = a ++ f :: b ++ f :: c)
               /\ (exists a b c,
                      snd (pdf_extractor.extract_from_directory directory)
                      = a ++ report f :: b ++ report f :: c))
        /\ (forall ext n before sub1 es1 between sub2 es2 after x1 x2 t1 t2,
               pdf_extractor.resolved directory
               = Some (pdf_extractor.Dir
                         (before ++ (sub1, pdf_extractor.Dir es1) :: between
                                 ++ (sub2, pdf_extractor.Dir es2) :: after)) ->
               In ext pdf_extractor.supported_extensions ->
               endswith ext n = true ->
               In (n, x1) es1 ->
               In (n, x2) es2 ->
               let f1 := pdf_extractor.mkPath n (Some x1) in
               let f2 := pdf_extractor.mkPath n (Some x2) in
               pdf_extractor.extract_text f1 = Ok t1 ->
               pdf_extractor.extract_text f2 = Ok t2 ->
               count_occ (list_eq_dec ascii_dec) (keys results) n = 1
               /\ exists a b c,
                   pdf_extractor.collect_files directory = a ++ f1 :: b ++ f2 :: c
                   /\ dict_get results n
                      = match last_text n (successes c) with
                        | Some later => Some later
                        | None => Some t2
                        end)
        /\ (forall root ext n x1 x2 t1 t2,
               pdf_extractor.resolved directory = Some root ->
               In ext pdf_extractor.supported_extensions ->
               endswith ext n = true ->
               entry_below root n x1 ->
               entry_below root n x2 ->
               pdf_extractor.extract_text (pdf_extractor.mkPath n (Some x1)) = Ok t1 ->
               pdf_extractor.extract_text (pdf_extractor.mkPath n (Some x2)) = Ok t2 ->
               count_occ (list_eq_dec ascii_dec) (keys results) n = 1
               /\ (exists x t,
                      entry_below root n x
                      /\ pdf_extractor.extract_text (pdf_extractor.mkPath n (Some x))
                         = Ok t
                      /\ dict_get results n = Some t)
               /\ (t1 <> t2 ->
                   dict_get results n <> Some t1 \/ dict_get results n <> Some t2)))
  /\ (forall top old new,
         pdf_extractor.extract_from_directory (top_and_two_rules top old new)
         = (Ok [(lit "top.txt", top); (lit "rules.txt", new)],
            [pdf_extractor.Extracted (len top) (lit "top.txt");
             pdf_extractor.Extracted (len top) (lit "top.txt");
             pdf_extractor.Extracted (len old) (lit "rules.txt");
             pdf_extractor.Extracted (len new) (lit "rules.txt")])).
Proof.
  split; [|reflexivity].
  intros directory Hex.
  exists (fold_left store (successes (pdf_extractor.collect_files directory)) []).
  rewrite (extract_from_directory_eq directory Hex).
  assert (forall n,
             dict_get (fold_left store
                         (successes (pdf_extractor.collect_files directory)) []) n
             = last_text n (successes (pdf_extractor.collect_files directory)))
    as Hget.
  { intros n. apply dict_get_stored. reflexivity. }
  assert (NoDup (keys (fold_left store
                         (successes (pdf_extractor.collect_files directory)) [])))
    as Hnodup.
  { apply NoDup_keys_stored. constructor. }
  assert (forall f t,
             In f (pdf_extractor.collect_files directory) ->
             pdf_extractor.extract_text f = Ok t ->
             count_occ (list_eq_dec ascii_dec)
                       (keys (fold_left store
                                (successes (pdf_extractor.collect_files directory)) []))
                       (pdf_extractor.name f) = 1) as Hone.
  { intros f t Hf Ht. apply NoDup_count_occ'; [exact Hnodup|].
    apply in_keys_stored. left. apply in_map_iff.
    exists (pdf_extractor.name f, t). split; [reflexivity|].
    apply in_successes. exists f. auto. }
  split; [reflexivity|split; [exact Hnodup|split; [exact Hget|]]].
  split; [|split; [|split; [|split]]].
  - intros before f1 between f2 after t1 t2 Hfiles Hname Ht1 Ht2 Hlast. split.
    + rewrite Hget, Hfiles.
      replace (before ++ f1 :: between ++ f2 :: after)
        with ((before ++ f1 :: between) ++ f2 :: after)
        by (rewrite <- !app_assoc; reflexivity).
      rewrite (last_text_after (pdf_extractor.name f2) _ after f2 t2 eq_refl Ht2).
      rewrite (last_text_none (pdf_extractor.name f2) (successes after));
        [reflexivity|].
      intros Hin. apply in_map_iff in Hin as [[n t] [E Hin]].
      simpl in E. subst n.
      apply in_successes in Hin as [f [Hf [Hn Ht]]].
      exact (Hlast f t Hf Hn Ht).
    + apply (Hone f2 t2); [|exact Ht2]. rewrite Hfiles.
      apply in_or_app. right. right. apply in_or_app. right. left. reflexivity.
  - intros ext f. apply listed_twice.
  - intros entries ext n x Hdir Hext Hin Hends f.
    destruct (listed_twice directory ext f Hext
                (glob_entry directory entries ext n x Hdir Hin Hends))
      as (a & b & c & E).
    split; [exists a, b, c; exact E|].
    exists (map report a), (map report b), (map report c).
    cbn [snd]. rewrite E, map_app. cbn [map]. rewrite map_app. reflexivity.
  - intros ext n before sub1 es1 between sub2 es2 after x1 x2 t1 t2
           Hdir Hext Hends H1 H2 f1 f2 Ht1 Ht2.
    assert (exists a b c,
               pdf_extractor.collect_files directory = a ++ f1 :: b ++ f2 :: c)
      as (a & b & c & E).
    { apply (collected_in_order directory ext f1 f2 Hext).
      unfold pdf_extractor.glob_recursive. rewrite Hdir.
      apply subdirectories_in_order; apply matching_entry; assumption. }
    split.
    + apply (Hone f2 t2); [|exact Ht2]. rewrite E.
      apply in_or_app. right. right. apply in_or_app. right. left. reflexivity.
    + exists a, b, c. split; [exact E|].
      rewrite Hget, E.
      replace (a ++ f1 :: b ++ f2 :: c) with ((a ++ f1 :: b) ++ f2 :: c)
        by (rewrite <- !app_assoc; reflexivity).
      apply (last_text_after n _ c f2 t2 eq_refl Ht2).
  - intros root ext n x1 x2 t1 t2 Hdir Hext Hends H1 H2 Ht1 Ht2.
    pose proof (collected_entry directory root ext n x1 Hdir Hext Hends H1) as Hf1.
    split; [exact (Hone _ t1 Hf1 Ht1)|]. split.
    + destruct (last_text n (successes (pdf_extractor.collect_files directory)))
        as [t|] eqn:Elast.
      * pose proof Elast as Hlast.
        apply last_text_some, in_successes in Elast as (f & Hf & Hn & Ht).
        destruct (collected_is_entry directory f Hf) as (root' & x & Hdir' & Ef & Hx).
        rewrite Hdir in Hdir'. inversion Hdir'; subst root'.
        rewrite Hn in Ef, Hx. exists x, t.
        split; [exact Hx|split; [rewrite <- Ef; exact Ht|]].
        rewrite Hget. exact Hlast.
      * exfalso.
        assert (In n (map fst (successes (pdf_extractor.collect_files directory))))
          as Hin.
        { apply in_map_iff. exists (n, t1). split; [reflexivity|].
          apply in_successes. exists (pdf_extractor.mkPath n (Some x1)). auto. }
        revert Hin Elast. generalize (successes (pdf_extractor.collect_files directory)).
        intros pairs Hin Elast.
        induction pairs as [|p pairs IH] using rev_ind; [destruct Hin|].
        rewrite last_text_app in Elast. unfold last_text at 1 in Elast.
        cbn [fold_left] in Elast.
        destruct (str_eqb (fst p) n) eqn:E; [discriminate|].
        apply IH; [|exact Elast].
        rewrite map_app in Hin. apply in_app_or in Hin as [Hin | [Hin | []]];
          [exact Hin|].
        apply str_eqb_neq in E. contradiction.
    + intros Hdiff.
      destruct (list_eq_dec ascii_dec t1 t2) as [E | _]; [contradiction|].
      destruct (dict_get (fold_left store
                            (successes (pdf_extractor.collect_files directory)) []) n)
        as [t|]; [|left; discriminate].
      destruct (list_eq_dec ascii_dec t t1) as [-> | Hne].
      * right. intros E. inversion E. contradiction.
      * left. intros E. inversion E. contradiction.
Qed.

Lemma extract_from_directory_keyed_by_name_witness :
  exists results,
    pdf_extractor.extract_from_directory two_subdirectories
    = (Ok results, map report (pdf_extractor.collect_files two_subdirectories))
    /\ count_occ (list_eq_dec ascii_dec) (keys results) (lit "rules.txt") = 1
    /\ (exists a b c,
           pdf_extractor.collect_files two_subdirectories
           = a ++ pdf_extractor.mkPath (lit "rules.txt") (Some (text_file "old rules"))
               :: b ++ pdf_extractor.mkPath (lit "rules.txt")
                                            (Some (text_file "new rules")) :: c
           /\ dict_get results (lit "rules.txt")
              = match last_text (lit "rules.txt") (successes c) with
                | Some later => Some later
                | None => Some (lit "new rules")
                end)
    /\ (exists a b c,
           snd (pdf_extractor.extract_from_directory two_subdirectories)
           = a ++ pdf_extractor.Extracted 3 (lit "top.txt")
               :: b ++ pdf_extractor.Extracted 3 (lit "top.txt") :: c).
Proof.
  destruct (proj1 extract_from_directory_keyed_by_name two_subdirectories eq_refl)
    as (results & Hrun & _ & _ & _ & _ & Htop & Hsub & _).
  exists results. split; [exact Hrun|].
  destruct (Hsub (lit ".txt") (lit "rules.txt")
                 [(lit "top.txt", text_file "top")]
                 (lit "2023") [(lit "rules.txt", text_file "old rules")]
                 []
                 (lit "2024") [(lit "rules.txt", text_file "new rules")]
                 []
                 (text_file "old rules") (text_file "new rules")
                 (lit "old rules") (lit "new rules")
                 eq_refl
                 (or_intror (or_introl eq_refl))
                 eq_refl
                 (or_introl eq_refl)
                 (or_introl eq_refl)
                 eq_refl
                 eq_refl) as [Hone Horder].
  split; [exact Hone|split; [exact Horder|]].
  exact (proj2 (Htop [(lit "top.txt", text_file "top");
                      (lit "2023",
                       pdf_extractor.Dir [(lit "rules.txt", text_file "old rules")]);
                      (lit "2024",
                       pdf_extractor.Dir [(lit "rules.txt", text_file "new rules")])]
                     (lit ".txt") (lit "top.txt") (text_file "top")
                     eq_refl
                     (or_intror (or_introl eq_refl))
                     (or_introl eq_refl)
                     eq_refl)).
Defined.

(** ** Whitespace tokens *)

Lemma split_from_app_space (a b : str) (sp : ascii) :
  isspace sp = true ->
  forall word, split_from (a ++ sp :: b) word = split_from a word ++ split_from b [].
Proof.
  intros Hsp. induction a as [|c a IH]; intros word.
  - simpl. rewrite Hsp. destruct word; reflexivity.
  - simpl. destruct (isspace c).
    + destruct word; rewrite IH; reflexivity.
    + apply IH.
Qed.

Lemma split_app_space (a b : str) (sp : ascii) :
  isspace sp = true -> split (a ++ sp :: b) = split a ++ split b.
Proof. intros Hsp. apply split_from_app_space. exact Hsp. Qed.

Lemma split_cons_space (s : str) (sp : ascii) :
  isspace sp = true -> split (sp :: s) = split s.
Proof. intros Hsp. unfold split. simpl. rewrite Hsp. reflexivity. Qed.

Lemma split_from_word (w : str) :
  forallb (fun c => negb (isspace c)) w = true ->
  forall r acc, split_from (w ++ r) acc = split_from r (rev w ++ acc).
Proof.
  induction w as [|c w IH]; intros Hw r acc; [reflexivity|].
  simpl in Hw. apply andb_true_iff in Hw as [Hc Hw].
  simpl. apply negb_true_iff in Hc. rewrite Hc, IH by exact Hw.
  rewrite <- app_assoc. reflexivity.
Qed.

Lemma split_word (w : str) : is_word w -> split w = [w].
Proof.
  intros [Hne Hw]. unfold split.
  rewrite <- (app_nil_r w) at 1. rewrite split_from_word by exact Hw.
  simpl. rewrite app_nil_r.
  destruct (rev w) eqn:E.
  - apply (f_equal (@rev ascii)) in E. rewrite rev_involutive in E. contradiction.
  - rewrite <- E, rev_involutive. reflexivity.
Qed.

Lemma split_from_words (s : str) :
  forall acc,
    forallb (fun c => negb (isspace c)) acc = true ->
    Forall is_word (split_from s acc).
Proof.
  assert (forall acc, acc <> [] ->
                      forallb (fun c => negb (isspace c)) acc = true ->
                      is_word (rev acc)) as Hrev.
  { intros acc Hne Hacc. split.
    - intros E. apply (f_equal (@rev ascii)) in E.
      rewrite rev_involutive in E. contradiction.
    - rewrite forallb_forall in *. intros c Hc. apply Hacc.
      apply in_rev. exact Hc. }
  induction s as [|c s IH]; intros acc Hacc; simpl.
  - destruct acc; constructor; [|constructor].
    apply Hrev; [discriminate | exact Hacc].
  - destruct (isspace c) eqn:Hc.
    + destruct acc.
      * apply IH. reflexivity.
      * constructor; [apply Hrev; [discriminate | exact Hacc]|].
        apply IH. reflexivity.
    + apply IH. simpl. rewrite Hc. exact Hacc.
Qed.

Lemma split_words (s : str) : Forall is_word (split s).
Proof. apply split_from_words. reflexivity. Qed.

Lemma split_join (ws : list str) :
  Forall is_word ws -> split (join (lit " ") ws) = ws.
Proof.
  induction 1 as [|w ws Hw Hws IH]; [reflexivity|].
  destruct ws as [|w' ws].
  - simpl. apply split_word. exact Hw.
  - change (join (lit " ") (w :: w' :: ws))
      with (w ++ space :: join (lit " ") (w' :: ws)).
    rewrite split_app_space by reflexivity.
    rewrite IH, split_word by exact Hw. reflexivity.
Qed.

Lemma Forall_slice_from {A} (P : A -> Prop) (start : Z) (l : list A) :
  Forall P l -> Forall P (slice_from start l).
Proof.
  intros H. unfold slice_from.
  generalize (Z.to_nat (if (start <? 0)%Z
                        then Z.max 0 (start + len l) else Z.min start (len l))).
  intros n. rewrite <- (firstn_skipn n l) in H.
  apply Forall_app in H as [_ H]. exact H.
Qed.

Lemma split_last_n (overlap : Z) (s : str) :
  split (join (lit " ") (last_n overlap (split s))) = last_n overlap (split s).
Proof.
  apply split_join. apply Forall_slice_from. apply split_words.
Qed.

Lemma join_words_nil (ws : list str) :
  Forall is_word ws -> join (lit " ") ws = [] -> ws = [].
Proof.
  intros H E. destruct H as [|w ws [Hne _] _]; [reflexivity|].
  destruct ws; simpl in E.
  - contradiction.
  - apply app_eq_nil in E as [E _]. contradiction.
Qed.

(** ** Neighbouring chunks *)

Lemma last_opt_snoc {A} (l : list A) (x : A) : last_opt (l ++ [x]) = Some x.
Proof. unfold last_opt. rewrite rev_app_distr. reflexivity. Qed.

Lemma nth_error_last_opt {A} (l : list A) (i : nat) (a : A) :
  nth_error l i = Some a -> S i = List.length l -> last_opt l = Some a.
Proof.
  intros Hi Hlen. destruct l as [|x l] using rev_ind; [discriminate|].
  rewrite last_opt_snoc. rewrite length_app in Hlen. simpl in Hlen.
  rewrite nth_error_app2 in Hi by lia.
  replace (i - List.length l) with 0 in Hi by lia.
  simpl in Hi. exact Hi.
Qed.

Lemma chained_snoc {A} (R : A -> A -> Prop) (l : list A) (x : A) :
  chained R l ->
  (forall previous, last_opt l = Some previous -> R previous x) ->
  chained R (l ++ [x]).
Proof.
  intros Hl Hx i a b Ha Hb.
  assert (S i < List.length (l ++ [x])) as Hlt
    by (apply nth_error_Some; congruence).
  rewrite length_app in Hlt. simpl in Hlt.
  destruct (Nat.eq_dec (S i) (List.length l)) as [E | NE].
  - rewrite nth_error_app1 in Ha by lia.
    rewrite nth_error_app2 in Hb by lia.
    replace (S i - List.length l) with 0 in Hb by lia.
    simpl in Hb. inversion Hb; subst b.
    apply Hx. apply (nth_error_last_opt l i); assumption.
  - rewrite nth_error_app1 in Ha by lia.
    rewrite nth_error_app1 in Hb by lia.
    exact (Hl i a b Ha Hb).
Qed.

(** ** The overlap carried from one chunk to the next *)

Section carried_overlap.
Import simple_chunker.
Variable self : SimpleTokenChunker.

Lemma seeded_extend (previous : Chunk) (current more : str) (sp : ascii) :
  isspace sp = true ->
  seeded (chunk_overlap self) previous current ->
  seeded (chunk_overlap self) previous (current ++ sp :: more).
Proof.
  intros Hsp [[r Hr] [r' Hr']]. split.
  - exists (r ++ split more).
    rewrite split_app_space, Hr, app_assoc by exact Hsp. reflexivity.
  - exists (r' ++ sp :: more). rewrite Hr' at 1. rewrite app_assoc. reflexivity.
Qed.

Lemma seeded_by_nothing (previous : Chunk) (current : str) :
  last_n (chunk_overlap self) (split (text previous)) = [] ->
  seeded (chunk_overlap self) previous current.
Proof.
  intros E. unfold seeded. rewrite E. split; eexists; reflexivity.
Qed.

Lemma seeded_empty (previous : Chunk) (current : str) :
  seeded (chunk_overlap self) previous [] -> seeded (chunk_overlap self) previous current.
Proof.
  intros [[r Hr] _]. apply seeded_by_nothing.
  change (split []) with (@nil str) in Hr.
  symmetry in Hr. apply app_eq_nil in Hr as [E _]. exact E.
Qed.

Lemma seeded_fresh (current piece : str) (tokens : Z) :
  seeded (chunk_overlap self) (Chunk_init current tokens)
         (join (lit " ") (last_n (chunk_overlap self) (split current)) ++ lit " " ++ piece).
Proof.
  split.
  - exists (split piece).
    change (lit " " ++ piece) with (space :: piece).
    rewrite split_app_space by reflexivity.
    rewrite split_last_n. reflexivity.
  - exists (lit " " ++ piece). reflexivity.
Qed.

Lemma sentence_step_invariant (st : state) (sentence : str) :
  overlap_invariant (chunk_overlap self) st ->
  overlap_invariant (chunk_overlap self) (sentence_step self st sentence).
Proof.
  intros [Hchain Hcur]. unfold sentence_step.
  destruct (negb (truthy (strip sentence))); [split; assumption|].
  destruct ((_ >? _)%Z && _).
  - split; cbn [chunks current_chunk].
    + apply chained_snoc; [exact Hchain | exact Hcur].
    + intros previous Hlast. rewrite last_opt_snoc in Hlast.
      inversion Hlast; subst previous.
      destruct (truthy (join _ _)) eqn:E.
      * apply seeded_fresh.
      * apply seeded_by_nothing. apply join_words_nil.
        -- apply Forall_slice_from. apply split_words.
        -- cbn [text Chunk_init].
           destruct (join _ _); [reflexivity | discriminate].
  - split; cbn [chunks current_chunk]; [exact Hchain|].
    intros previous Hlast. specialize (Hcur previous Hlast).
    destruct (current_chunk st) eqn:E; cbn [truthy].
    + apply seeded_empty. exact Hcur.
    + apply (seeded_extend previous (a :: s) sentence space); [reflexivity | exact Hcur].
Qed.

Lemma sentences_invariant (sentences : list str) :
  forall st,
    overlap_invariant (chunk_overlap self) st ->
    overlap_invariant (chunk_overlap self) (fold_left (sentence_step self) sentences st).
Proof.
  induction sentences as [|s sentences IH]; intros st Hst; [exact Hst|].
  cbn [fold_left]. apply IH. apply sentence_step_invariant. exact Hst.
Qed.

Lemma paragraph_step_invariant (st : state) (paragraph : str) :
  overlap_invariant (chunk_overlap self) st ->
  overlap_invariant (chunk_overlap self) (paragraph_step self st paragraph).
Proof.
  intros Hst. unfold paragraph_step.
  destruct (_ >? _)%Z; [apply sentences_invariant; exact Hst|].
  destruct Hst as [Hchain Hcur].
  destruct ((_ >? _)%Z && _).
  - split; cbn [chunks current_chunk].
    + apply chained_snoc; [exact Hchain | exact Hcur].
    + intros previous Hlast. rewrite last_opt_snoc in Hlast.
      inversion Hlast; subst previous. apply seeded_fresh.
  - split; cbn [chunks current_chunk]; [exact Hchain|].
    intros previous Hlast. specialize (Hcur previous Hlast).
    destruct (current_chunk st) eqn:E; cbn [truthy].
    + apply seeded_empty. exact Hcur.
    + apply (seeded_extend previous (a :: s) (newline :: paragraph) newline);
        [reflexivity | exact Hcur].
Qed.

Lemma paragraphs_invariant (paragraphs : list str) :
  forall st,
    overlap_invariant (chunk_overlap self) st ->
    overlap_invariant (chunk_overlap self) (fold_left (paragraph_step self) paragraphs st).
Proof.
  induction paragraphs as [|p paragraphs IH]; intros st Hst; [exact Hst|].
  cbn [fold_left]. apply IH. apply paragraph_step_invariant. exact Hst.
Qed.

(** Every chunk but the first starts with the slice carried over from the
    chunk before it. *)
Lemma chunk_chained (input : str) :
  chained (fun a b => seeded (chunk_overlap self) a (text b)) (chunk self input).
Proof.
  unfold chunk. destruct (_ || _).
  - intros [|i] a b Ha; discriminate.
  - assert (overlap_invariant (chunk_overlap self) (mkState [] [] 0)) as H0.
    { split.
      - intros [|i] a b Ha; discriminate.
      - intros previous Hlast. discriminate. }
    apply (paragraphs_invariant (paragraphs_of input)) in H0.
    destruct H0 as [Hchain Hcur]. unfold seal.
    destruct (truthy _); [|exact Hchain].
    apply chained_snoc; [exact Hchain | exact Hcur].
Qed.
End carried_overlap.

Lemma last_n_positive {A} (n : Z) (l : list A) :
  (0 < n)%Z ->
  last_n n l = skipn (List.length l - Z.to_nat n) l.
Proof.
  intros Hn. unfold last_n, slice_from, len.
  destruct (- n <? 0)%Z eqn:E; [|apply Z.ltb_ge in E; lia].
  f_equal. lia.
Qed.

Lemma last_n_zero {A} (l : list A) : last_n 0 l = l.
Proof.
  unfold last_n, slice_from, len. cbn [Z.opp Z.ltb Z.compare].
  replace (Z.to_nat (Z.min 0 (Z.of_nat (List.length l)))) with 0 by lia.
  reflexivity.
Qed.

(** C6. With [0 < chunk_overlap < chunk_size], take any chunk [b] of the
    result but the first and the chunk [a] before it.  If [a] has at least
    [chunk_overlap] tokens, the first [chunk_overlap] tokens of [b] are the
    last [chunk_overlap] tokens of [a]; if [a] has fewer, all the tokens of
    [a] are the first tokens of [b]. *)
Theorem chunk_overlap_shared
    (self : simple_chunker.SimpleTokenChunker) (input : str)
    (i : nat) (a b : simple_chunker.Chunk) :
  (0 < simple_chunker.chunk_overlap self < simple_chunker.chunk_size self)%Z ->
  nth_error (simple_chunker.chunk self input) i = Some a ->
  nth_error (simple_chunker.chunk self input) (S i) = Some b ->
  let tokens_a := split (simple_chunker.text a) in
  let tokens_b := split (simple_chunker.text b) in
  let k := Z.to_nat (simple_chunker.chunk_overlap self) in
  (k <= List.length tokens_a ->
   firstn k tokens_b = skipn (List.length tokens_a - k) tokens_a
   /\ List.length (firstn k tokens_b) = k)
  /\ (List.length tokens_a < k ->
      firstn (List.length tokens_a) tokens_b = tokens_a).
Proof.
  intros Hcfg Ha Hb tokens_a tokens_b k.
  destruct (chunk_chained self input i a b Ha Hb) as [[rest Hrest] _].
  fold tokens_a tokens_b in Hrest.
  rewrite last_n_positive in Hrest by lia. fold k in Hrest.
  split.
  - intros Hk.
    assert (List.length (skipn (List.length tokens_a - k) tokens_a) = k) as L
      by (rewrite length_skipn; lia).
    rewrite Hrest, firstn_app, L, Nat.sub_diag, firstn_O, app_nil_r.
    rewrite firstn_all2 by lia. split; [reflexivity | exact L].
  - intros Hk.
    replace (List.length tokens_a - k) with 0 in Hrest by lia.
    rewrite Hrest. cbn [skipn].
    rewrite firstn_app, Nat.sub_diag, firstn_O, app_nil_r.
    apply firstn_all.
Qed.

Lemma chunk_overlap_shared_witness :
  let a := simple_chunker.mkChunk (lit "One two") 2 in
  let b := simple_chunker.mkChunk (lit "two Three four.") 3 in
  let tokens_a := split (simple_chunker.text a) in
  let tokens_b := split (simple_chunker.text b) in
  (1 <= List.length tokens_a ->
   firstn 1 tokens_b = skipn (List.length tokens_a - 1) tokens_a
   /\ List.length (firstn 1 tokens_b) = 1)
  /\ (List.length tokens_a < 1 ->
      firstn (List.length tokens_a) tokens_b = tokens_a).
Proof.
  apply (chunk_overlap_shared (simple_chunker.mkChunker 3 1) two_sentences 0
           (simple_chunker.mkChunk (lit "One two") 2)
           (simple_chunker.mkChunk (lit "two Three four.") 3)).
  - simpl. lia.
  - reflexivity.
  - reflexivity.
Defined.

(** C1, at two inputs whose paragraph is above the chunk size.  The
    sentence split removes the terminators it splits at: of "One two.
    Three four." the token "two." is in no chunk, as a token or as a run of
    characters; of "a ... b" the token "..." is lost whole. *)
Theorem chunk_drops_sentence_terminators :
  (In (lit "two.") (split two_sentences)
   /\ map simple_chunker.text (simple_chunker.chunk (simple_chunker.mkChunker 3 1)
                                 two_sentences)
      = [lit "One two"; lit "two Three four."]
   /\ ~ covered (lit "two.")
                (simple_chunker.chunk (simple_chunker.mkChunker 3 1) two_sentences)
   /\ forall c,
       In c (simple_chunker.chunk (simple_chunker.mkChunker 3 1) two_sentences) ->
       ~ is_substring (lit "two.") (simple_chunker.text c))
  /\ (In (lit "...") (split dots_between)
      /\ map simple_chunker.text (simple_chunker.chunk (simple_chunker.mkChunker 2 1)
                                    dots_between)
         = [lit "a  b"]
      /\ ~ covered (lit "...")
                   (simple_chunker.chunk (simple_chunker.mkChunker 2 1) dots_between)
      /\ forall c,
          In c (simple_chunker.chunk (simple_chunker.mkChunker 2 1) dots_between) ->
          ~ is_substring (lit ".") (simple_chunker.text c)).
Proof.
  split; (split; [vm_compute; tauto|split; [reflexivity|split]]).
  - intros [c [Hc Hw]]. vm_compute in Hc.
    destruct Hc as [<- | [<- | []]]; vm_compute in Hw;
      repeat (destruct Hw as [Hw | Hw]; [discriminate|]); exact Hw.
  - intros c Hc. vm_compute in Hc.
    destruct Hc as [<- | [<- | []]]; apply contains_false; reflexivity.
  - intros [c [Hc Hw]]. vm_compute in Hc.
    destruct Hc as [<- | []]; vm_compute in Hw;
      repeat (destruct Hw as [Hw | Hw]; [discriminate|]); exact Hw.
  - intros c Hc. vm_compute in Hc.
    destruct Hc as [<- | []]; apply contains_false; reflexivity.
Qed.

(** ** Tokens under [strip] and [re.split] *)

Lemma split_spaces (s : str) : forallb isspace s = true -> split s = [].
Proof.
  induction s as [|c s IH]; intros H; [reflexivity|].
  simpl in H. apply andb_true_iff in H as [Hc Hs].
  rewrite split_cons_space by exact Hc. apply IH. exact Hs.
Qed.

Lemma split_spaces_app (sp s : str) :
  forallb isspace sp = true -> split (sp ++ s) = split s.
Proof.
  induction sp as [|c sp IH]; intros H; [reflexivity|].
  simpl in H. apply andb_true_iff in H as [Hc Hs].
  simpl. rewrite split_cons_space by exact Hc. apply IH. exact Hs.
Qed.

Lemma split_app_spaces (s sp : str) :
  forallb isspace sp = true -> split (s ++ sp) = split s.
Proof.
  destruct sp as [|c sp]; intros H; [rewrite app_nil_r; reflexivity|].
  simpl in H. apply andb_true_iff in H as [Hc Hs].
  rewrite split_app_space by exact Hc.
  rewrite (split_spaces sp Hs), app_nil_r. reflexivity.
Qed.

Lemma takewhile_dropwhile {A} (p : A -> bool) (l : list A) :
  l = takewhile p l ++ dropwhile p l.
Proof.
  induction l as [|x l IH]; [reflexivity|].
  simpl. destruct (p x); [simpl; f_equal; exact IH | reflexivity].
Qed.

Lemma forallb_takewhile {A} (p : A -> bool) (l : list A) :
  forallb p (takewhile p l) = true.
Proof.
  induction l as [|x l IH]; [reflexivity|].
  simpl. destruct (p x) eqn:E; [simpl; rewrite E; exact IH | reflexivity].
Qed.

Lemma forallb_rev {A} (p : A -> bool) (l : list A) :
  forallb p l = true -> forallb p (rev l) = true.
Proof.
  rewrite !forallb_forall. intros H x Hx. apply H. apply in_rev. exact Hx.
Qed.

Lemma forallb_firstn {A} (p : A -> bool) (n : nat) (l : list A) :
  forallb p l = true -> forallb p (firstn n l) = true.
Proof.
  rewrite !forallb_forall. intros H x Hx. apply H.
  rewrite <- (firstn_skipn n l). apply in_or_app. left. exact Hx.
Qed.

Lemma split_strip (s : str) : split (strip s) = split s.
Proof.
  unfold strip, rstrip, lstrip.
  transitivity (split (dropwhile isspace s)).
  - set (t := dropwhile isspace s).
    rewrite <- (rev_involutive t) at 2.
    rewrite (takewhile_dropwhile isspace (rev t)) at 2.
    rewrite rev_app_distr.
    rewrite split_app_spaces; [reflexivity|].
    apply forallb_rev. apply forallb_takewhile.
  - rewrite (takewhile_dropwhile isspace s) at 2.
    rewrite split_spaces_app; [reflexivity | apply forallb_takewhile].
Qed.

Lemma split_strip_falsy (s : str) : truthy (strip s) = false -> split s = [].
Proof.
  intros H. rewrite <- split_strip. destruct (strip s); [reflexivity | discriminate].
Qed.

Lemma flat_map_split_stripped (pieces : list str) :
  flat_map split (map strip (filter (fun p => truthy (strip p)) pieces))
  = flat_map split pieces.
Proof.
  induction pieces as [|p pieces IH]; [reflexivity|].
  cbn [filter flat_map]. destruct (truthy (strip p)) eqn:E.
  - cbn [map flat_map]. rewrite split_strip, IH. reflexivity.
  - rewrite (split_strip_falsy p E), IH. reflexivity.
Qed.

Section re_split_spaces.
  Variable match_at : str -> option nat.
  Hypothesis match_spaces :
    forall s n, match_at s = Some n -> forallb isspace (firstn n s) = true.

(** When the pattern matches whitespace only, splitting at it loses no
    token. *)
Lemma split_re_split_from (s : str) :
  forall skip piece,
    flat_map split (re_split_from match_at s skip piece)
    = split (rev piece ++ skipn skip s).
Proof.
  induction s as [|c s IH]; intros skip piece.
  - simpl. rewrite skipn_nil, !app_nil_r. reflexivity.
  - cbn [re_split_from]. destruct skip as [|k].
    + destruct (match_at (c :: s)) as [[|n]|] eqn:E.
      * rewrite IH. cbn [rev skipn]. rewrite <- app_assoc. reflexivity.
      * apply match_spaces in E. cbn [firstn forallb] in E.
        apply andb_true_iff in E as [Hc Hn].
        cbn [flat_map]. rewrite IH. cbn [rev app skipn].
        rewrite split_app_space by exact Hc. f_equal.
        rewrite <- (firstn_skipn n s) at 2.
        rewrite split_spaces_app by exact Hn. reflexivity.
      * rewrite IH. cbn [rev skipn]. rewrite <- app_assoc. reflexivity.
    + rewrite IH. reflexivity.
Qed.

Lemma split_re_split (s : str) :
  flat_map split (re_split match_at s) = split s.
Proof. unfold re_split. rewrite split_re_split_from. reflexivity. Qed.
End re_split_spaces.

Lemma last_newline_lt (run : str) (j : nat) :
  last_newline run = Some j -> j < List.length run.
Proof.
  revert j; induction run as [|c run IH]; intros j H; [discriminate|].
  simpl in H. destruct (last_newline run) as [j'|].
  - inversion H; subst. simpl. specialize (IH j' eq_refl). lia.
  - destruct (is_newline c); inversion H; subst. simpl. lia.
Qed.

Lemma match_blank_line_spaces (s : str) (n : nat) :
  match_blank_line s = Some n -> forallb isspace (firstn n s) = true.
Proof.
  unfold match_blank_line. destruct s as [|c r]; [discriminate|].
  destruct (is_newline c) eqn:Hc; [|discriminate].
  destruct (last_newline (takewhile isspace r)) as [j|] eqn:Hj; [|discriminate].
  intros E; inversion E; subst n. apply last_newline_lt in Hj.
  replace (j + 2) with (S (S j)) by lia. rewrite firstn_cons. cbn [forallb].
  apply Ascii.eqb_eq in Hc. subst c.
  change (isspace newline) with true. cbn [andb].
  rewrite (takewhile_dropwhile isspace r).
  rewrite firstn_app.
  replace (S j - List.length (takewhile isspace r)) with 0 by lia.
  rewrite firstn_O, app_nil_r.
  apply forallb_firstn. apply forallb_takewhile.
Qed.

(** The paragraphs of a text have, together and in order, its tokens. *)
Lemma split_paragraphs (input : str) :
  flat_map split (simple_chunker.paragraphs_of input) = split input.
Proof.
  unfold simple_chunker.paragraphs_of.
  rewrite flat_map_split_stripped.
  rewrite (split_re_split match_blank_line match_blank_line_spaces).
  apply split_strip.
Qed.

Lemma split_from_nil_spaces (s : str) :
  forall acc, split_from s acc = [] -> acc = [] /\ forallb isspace s = true.
Proof.
  induction s as [|c s IH]; intros acc H; simpl in H.
  - destruct acc; [split; reflexivity | discriminate].
  - simpl. destruct (isspace c).
    + destruct acc; [|discriminate]. split; [reflexivity|].
      apply (IH [] H).
    + destruct (IH _ H) as [E _]. discriminate.
Qed.

Lemma split_nil_spaces (s : str) : split s = [] -> forallb isspace s = true.
Proof. intros H. apply (split_from_nil_spaces s [] H). Qed.

Lemma strip_spaces (s : str) : forallb isspace s = true -> strip s = [].
Proof.
  intros H. unfold strip, lstrip, rstrip.
  replace (dropwhile isspace s) with (@nil ascii); [reflexivity|].
  induction s as [|c s IH]; [reflexivity|].
  simpl in H. apply andb_true_iff in H as [Hc Hs].
  simpl. rewrite Hc. apply IH. exact Hs.
Qed.

(** ** Tokens that reach a chunk *)

Lemma covered_snoc (w : str) (l : list simple_chunker.Chunk)
    (current : str) (tokens : Z) :
  covered w l \/ In w (split current) ->
  covered w (l ++ [simple_chunker.Chunk_init current tokens]).
Proof.
  intros [[c [Hc Hw]] | Hw].
  - exists c. split; [apply in_or_app; left; exact Hc | exact Hw].
  - exists (simple_chunker.Chunk_init current tokens).
    split; [apply in_or_app; right; left; reflexivity | exact Hw].
Qed.

Section coverage.
  Import simple_chunker.
  Variable self : SimpleTokenChunker.

Lemma sentence_step_coverage (seen : list str) (st : state) (sentence : str) :
  coverage_invariant seen st ->
  coverage_invariant (seen ++ split sentence) (sentence_step self st sentence).
Proof.
  intros Hst w Hw. unfold sentence_step.
  destruct (negb (truthy (strip sentence))) eqn:Hskip.
  - apply negb_true_iff in Hskip.
    rewrite (split_strip_falsy sentence Hskip), app_nil_r in Hw.
    apply Hst. exact Hw.
  - apply in_app_or in Hw.
    destruct ((_ >? _)%Z && _); cbn [chunks current_chunk].
    + destruct Hw as [Hw | Hw].
      * left. apply covered_snoc. apply Hst. exact Hw.
      * right. destruct (truthy (join _ _)); [|exact Hw].
        change (lit " " ++ sentence) with (space :: sentence).
        rewrite split_app_space by reflexivity.
        apply in_or_app. right. exact Hw.
    + destruct (current_chunk st) as [|a s] eqn:E; cbn [truthy].
      * destruct Hw as [Hw | Hw]; [|right; exact Hw].
        destruct (Hst w Hw) as [H | H]; [left; exact H | rewrite E in H; destruct H].
      * change (lit " " ++ sentence) with (space :: sentence).
        rewrite (split_app_space (a :: s) sentence space) by reflexivity.
        destruct Hw as [Hw | Hw].
        -- destruct (Hst w Hw) as [H | H]; [left; exact H|].
           right. apply in_or_app. left. rewrite <- E. exact H.
        -- right. apply in_or_app. right. exact Hw.
Qed.

Lemma sentences_coverage (sentences : list str) :
  forall seen st,
    coverage_invariant seen st ->
    coverage_invariant (seen ++ flat_map split sentences)
                       (fold_left (sentence_step self) sentences st).
Proof.
  induction sentences as [|s sentences IH]; intros seen st Hst.
  - simpl. rewrite app_nil_r. exact Hst.
  - cbn [fold_left flat_map]. rewrite app_assoc.
    apply IH. apply sentence_step_coverage. exact Hst.
Qed.

Lemma paragraph_step_coverage (seen : list str) (st : state) (paragraph : str) :
  coverage_invariant seen st ->
  coverage_invariant (seen ++ kept_tokens self paragraph)
                     (paragraph_step self st paragraph).
Proof.
  intros Hst. unfold paragraph_step, kept_tokens.
  destruct (_ >? _)%Z; [apply sentences_coverage; exact Hst|].
  intros w Hw. apply in_app_or in Hw.
  destruct ((_ >? _)%Z && _); cbn [chunks current_chunk].
  - destruct Hw as [Hw | Hw].
    + left. apply covered_snoc. apply Hst. exact Hw.
    + right. change (lit " " ++ paragraph) with (space :: paragraph).
      rewrite split_app_space by reflexivity.
      apply in_or_app. right. exact Hw.
  - destruct (current_chunk st) as [|a s] eqn:E; cbn [truthy].
    + destruct Hw as [Hw | Hw]; [|right; exact Hw].
      destruct (Hst w Hw) as [H | H]; [left; exact H | rewrite E in H; destruct H].
    + rewrite (split_app_space (a :: s) (newline :: paragraph) newline) by reflexivity.
      rewrite (split_cons_space paragraph newline) by reflexivity.
      destruct Hw as [Hw | Hw].
      * destruct (Hst w Hw) as [H | H]; [left; exact H|].
        right. apply in_or_app. left. rewrite <- E. exact H.
      * right. apply in_or_app. right. exact Hw.
Qed.

Lemma paragraphs_coverage (paragraphs : list str) :
  forall seen st,
    coverage_invariant seen st ->
    coverage_invariant (seen ++ flat_map (kept_tokens self) paragraphs)
                       (fold_left (paragraph_step self) paragraphs st).
Proof.
  induction paragraphs as [|p paragraphs IH]; intros seen st Hst.
  - simpl. rewrite app_nil_r. exact Hst.
  - cbn [fold_left flat_map]. rewrite app_assoc.
    apply IH. apply paragraph_step_coverage. exact Hst.
Qed.

(** Every token that a paragraph hands on is a token of some chunk. *)
Lemma chunk_covers_kept (input w : str) :
  In w (flat_map (kept_tokens self) (paragraphs_of input)) ->
  covered w (chunk self input).
Proof.
  intros Hw. unfold chunk.
  destruct (negb (truthy input) || negb (truthy (strip input))) eqn:Hblank.
  - exfalso.
    assert (split input = []) as Hno.
    { apply orb_true_iff in Hblank as [H | H]; apply negb_true_iff in H.
      - destruct input; [reflexivity | discriminate].
      - apply split_strip_falsy. exact H. }
    assert (paragraphs_of input = []) as Hpar.
    { pose proof (split_paragraphs input) as Hsp. rewrite Hno in Hsp.
      unfold paragraphs_of in *.
      destruct (filter _ _) as [|p ps] eqn:Hf; [reflexivity|].
      exfalso.
      assert (In p (filter (fun p => truthy (strip p))
                           (re_split match_blank_line (strip input)))) as Hp
        by (rewrite Hf; left; reflexivity).
      apply filter_In in Hp as [_ Hp].
      cbn [map flat_map] in Hsp. apply app_eq_nil in Hsp as [Hsp _].
      rewrite split_strip in Hsp.
      apply split_nil_spaces, strip_spaces in Hsp.
      rewrite Hsp in Hp. discriminate. }
    rewrite Hpar in Hw. destruct Hw.
  - assert (coverage_invariant [] (mkState [] [] 0)) as H0
      by (intros x []).
    apply (paragraphs_coverage (paragraphs_of input)) in H0.
    cbn [app] in H0. unfold seal.
    set (final := fold_left (paragraph_step self) (paragraphs_of input)
                            (mkState [] [] 0)) in *.
    destruct (H0 w Hw) as [H | H].
    + destruct (truthy (current_chunk final)); [|exact H].
      apply covered_snoc. left. exact H.
    + destruct (current_chunk final) as [|c s] eqn:E; [destruct H|].
      cbn [truthy]. apply covered_snoc. right. exact H.
Qed.

(** Without a paragraph above the chunk size, that is without the sentence
    split, every token of the input is a token of some chunk. *)
Lemma chunk_covers_without_fallback (input w : str) :
  (forall p, In p (paragraphs_of input) -> (len (split p) <= chunk_size self)%Z) ->
  In w (split input) ->
  covered w (chunk self input).
Proof.
  intros Hsmall Hw. apply chunk_covers_kept.
  rewrite <- split_paragraphs in Hw.
  apply in_flat_map in Hw as [p [Hp Hw]].
  apply in_flat_map. exists p. split; [exact Hp|].
  unfold kept_tokens.
  destruct (len (split p) >? chunk_size self)%Z eqn:E; [|exact Hw].
  specialize (Hsmall p Hp). lia.
Qed.
End coverage.

(** * Further properties *)

(** ** Token counts of the chunks *)

Lemma truthy_strip_split (s : str) : truthy (strip s) = true -> split s <> [].
Proof.
  intros H E. apply split_nil_spaces, strip_spaces in E.
  rewrite E in H. discriminate.
Qed.

Lemma len_app {A} (a b : list A) : len (a ++ b) = (len a + len b)%Z.
Proof. unfold len. rewrite length_app. lia. Qed.

Lemma counted_Chunk_init (current : str) :
  current <> [] -> (current <> [] -> split current <> []) ->
  counted (simple_chunker.Chunk_init current (len (split current))).
Proof.
  intros Hne Htok. specialize (Htok Hne).
  assert (1 <= len (split current))%Z as Hpos.
  { unfold len. destruct (split current); [contradiction | simpl; lia]. }
  unfold counted, tokens_of, simple_chunker.Chunk_init.
  cbn [simple_chunker.token_count simple_chunker.text].
  destruct (len (split current) =? 0)%Z; split; auto.
Qed.

Section token_counts.
Import simple_chunker.
Variable self : SimpleTokenChunker.

Lemma sentence_step_tokens (st : state) (sentence : str) :
  token_invariant st -> token_invariant (sentence_step self st sentence).
Proof.
  intros (Hcount & Htok & Hchunks). unfold sentence_step.
  destruct (negb (truthy (strip sentence))) eqn:Hskip;
    [split; [|split]; assumption|].
  apply negb_false_iff, truthy_strip_split in Hskip.
  destruct ((_ >? _)%Z && truthy (current_chunk st)) eqn:Hseal.
  - apply andb_true_iff in Hseal as [_ Hcur].
    assert (current_chunk st <> []) as Hne
      by (destruct (current_chunk st); [discriminate | discriminate]).
    split; [reflexivity|split]; cbn [chunks current_chunk current_tokens].
    + intros _. destruct (truthy (join _ _)); [|exact Hskip].
      change (lit " " ++ sentence) with (space :: sentence).
      rewrite split_app_space by reflexivity.
      intros E. apply app_eq_nil in E as [_ E]. contradiction.
    + apply Forall_app. split; [exact Hchunks|].
      constructor; [|constructor]. rewrite Hcount.
      apply counted_Chunk_init; assumption.
  - split; [|split]; cbn [chunks current_chunk current_tokens]; [| |exact Hchunks].
    + rewrite Hcount. destruct (current_chunk st) as [|a s]; cbn [truthy].
      * reflexivity.
      * change (lit " " ++ sentence) with (space :: sentence).
        rewrite (split_app_space (a :: s) sentence space) by reflexivity.
        rewrite len_app. reflexivity.
    + intros _. destruct (current_chunk st) as [|a s]; cbn [truthy]; [exact Hskip|].
      change (lit " " ++ sentence) with (space :: sentence).
      rewrite (split_app_space (a :: s) sentence space) by reflexivity.
      intros E. apply app_eq_nil in E as [_ E]. contradiction.
Qed.

Lemma sentences_tokens (sentences : list str) :
  forall st, token_invariant st ->
             token_invariant (fold_left (sentence_step self) sentences st).
Proof.
  induction sentences as [|s sentences IH]; intros st Hst; [exact Hst|].
  cbn [fold_left]. apply IH. apply sentence_step_tokens. exact Hst.
Qed.

Lemma paragraph_step_tokens (st : state) (paragraph : str) :
  split paragraph <> [] ->
  token_invariant st -> token_invariant (paragraph_step self st paragraph).
Proof.
  intros Hpar Hst. unfold paragraph_step.
  destruct (_ >? _)%Z; [apply sentences_tokens; exact Hst|].
  destruct Hst as (Hcount & Htok & Hchunks).
  destruct ((_ >? _)%Z && truthy (current_chunk st)) eqn:Hseal.
  - apply andb_true_iff in Hseal as [_ Hcur].
    assert (current_chunk st <> []) as Hne
      by (destruct (current_chunk st); [discriminate | discriminate]).
    split; [reflexivity|split]; cbn [chunks current_chunk current_tokens].
    + change (lit " " ++ paragraph) with (space :: paragraph).
      rewrite split_app_space by reflexivity.
      intros _ E. apply app_eq_nil in E as [_ E]. contradiction.
    + apply Forall_app. split; [exact Hchunks|].
      constructor; [|constructor]. rewrite Hcount.
      apply counted_Chunk_init; assumption.
  - split; [|split]; cbn [chunks current_chunk current_tokens]; [| |exact Hchunks].
    + rewrite Hcount. destruct (current_chunk st) as [|a s]; cbn [truthy].
      * reflexivity.
      * rewrite (split_app_space (a :: s) (newline :: paragraph) newline)
          by reflexivity.
        rewrite (split_cons_space paragraph newline) by reflexivity.
        rewrite len_app. reflexivity.
    + intros _. destruct (current_chunk st) as [|a s]; cbn [truthy]; [exact Hpar|].
      rewrite (split_app_space (a :: s) (newline :: paragraph) newline)
        by reflexivity.
      rewrite (split_cons_space paragraph newline) by reflexivity.
      intros E. apply app_eq_nil in E as [_ E]. contradiction.
Qed.

Lemma paragraphs_of_tokens (input p : str) :
  In p (paragraphs_of input) -> split p <> [].
Proof.
  unfold paragraphs_of. intros Hp.
  apply in_map_iff in Hp as [q [<- Hq]]. apply filter_In in Hq as [_ Hq].
  rewrite split_strip. apply truthy_strip_split. exact Hq.
Qed.

Lemma paragraphs_tokens (paragraphs : list str) :
  (forall p, In p paragraphs -> split p <> []) ->
  forall st, token_invariant st ->
             token_invariant (fold_left (paragraph_step self) paragraphs st).
Proof.
  induction paragraphs as [|p paragraphs IH]; intros Hps st Hst; [exact Hst|].
  cbn [fold_left]. apply IH.
  - intros q Hq. apply Hps. right. exact Hq.
  - apply paragraph_step_tokens; [apply Hps; left; reflexivity | exact Hst].
Qed.

Lemma token_invariant_initial : token_invariant (mkState [] [] 0).
Proof. split; [reflexivity|split]; [intros E; contradiction | constructor]. Qed.

Lemma chunk_final_state (input : str) :
  chunk self input = []
  \/ chunk self input
     = seal (fold_left (paragraph_step self) (paragraphs_of input) (mkState [] [] 0)).
Proof. unfold chunk. destruct (_ || _); [left | right]; reflexivity. Qed.

Lemma seal_counted (st : state) : token_invariant st -> Forall counted (seal st).
Proof.
  intros (Hcount & Htok & Hchunks). unfold seal.
  destruct (current_chunk st) as [|a s] eqn:E; cbn [truthy]; [exact Hchunks|].
  apply Forall_app. split; [exact Hchunks|].
  constructor; [|constructor]. rewrite Hcount; try rewrite E.
  apply counted_Chunk_init;
    [discriminate | first [exact Htok | rewrite <- E; exact Htok]].
Qed.
End token_counts.

(** X1. Every chunk [chunk] returns records as [token_count] the number
    of whitespace tokens of its own text, and that number is at least one:
    no chunk is blank. *)
Theorem chunk_token_counts
    (self : simple_chunker.SimpleTokenChunker) (input : str)
    (c : simple_chunker.Chunk) :
  In c (simple_chunker.chunk self input) ->
  simple_chunker.token_count c = len (split (simple_chunker.text c))
  /\ (1 <= simple_chunker.token_count c)%Z
  /\ split (simple_chunker.text c) <> [].
Proof.
  intros Hc.
  assert (Forall counted (simple_chunker.chunk self input)) as Hall.
  { destruct (chunk_final_state self input) as [E | E]; rewrite E; [constructor|].
    apply seal_counted. apply paragraphs_tokens.
    - apply paragraphs_of_tokens.
    - apply token_invariant_initial. }
  rewrite Forall_forall in Hall. destruct (Hall c Hc) as [Hcount Hpos].
  split; [exact Hcount | split; [exact Hpos|]].
  unfold tokens_of, len in Hcount. intros E. rewrite E in Hcount. simpl in Hcount. lia.
Qed.

Lemma chunk_token_counts_witness :
  let c := simple_chunker.mkChunk (lit "two Three four.") 3 in
  simple_chunker.token_count c = len (split (simple_chunker.text c))
  /\ (1 <= simple_chunker.token_count c)%Z
  /\ split (simple_chunker.text c) <> [].
Proof.
  apply (chunk_token_counts (simple_chunker.mkChunker 3 1) two_sentences).
  right. left. reflexivity.
Defined.

(** ** A text that fits into one chunk *)

Lemma join_snoc (sep : str) (l : list str) (p : str) :
  l <> [] -> join sep (l ++ [p]) = join sep l ++ sep ++ p.
Proof.
  induction l as [|x l IH]; intros Hne; [contradiction|].
  destruct l as [|y l]; [reflexivity|].
  change (join sep ((x :: y :: l) ++ [p]))
    with (x ++ sep ++ join sep ((y :: l) ++ [p])).
  rewrite IH by discriminate.
  change (join sep (x :: y :: l)) with (x ++ sep ++ join sep (y :: l)).
  rewrite <- !app_assoc. reflexivity.
Qed.

Lemma join_nonempty (sep : str) (l : list str) :
  l <> [] -> (forall p, In p l -> p <> []) -> join sep l <> [].
Proof.
  destruct l as [|x l]; intros Hne Hall; [contradiction|].
  assert (x <> []) as Hx by (apply Hall; left; reflexivity).
  destruct l; simpl; [exact Hx|].
  intros E. apply app_eq_nil in E as [E _]. contradiction.
Qed.

Lemma split_join_blank_line (l : list str) :
  split (join blank_line l) = flat_map split l.
Proof.
  induction l as [|x l IH]; [reflexivity|].
  destruct l as [|y l]; [simpl; rewrite app_nil_r; reflexivity|].
  change (join blank_line (x :: y :: l))
    with (x ++ newline :: newline :: join blank_line (y :: l)).
  rewrite split_app_space by reflexivity.
  rewrite split_cons_space by reflexivity.
  rewrite IH. reflexivity.
Qed.

Section fitting.
Import simple_chunker.
Variable self : SimpleTokenChunker.

Lemma paragraphs_fit (paragraphs : list str) :
  forall done st,
    fitting_invariant done st ->
    (forall p, In p (done ++ paragraphs) -> split p <> []) ->
    (len (flat_map split (done ++ paragraphs)) <= chunk_size self)%Z ->
    fitting_invariant (done ++ paragraphs)
                      (fold_left (paragraph_step self) paragraphs st).
Proof.
  induction paragraphs as [|p paragraphs IH]; intros done st Hst Htok Hfit.
  - rewrite app_nil_r. exact Hst.
  - cbn [fold_left].
    replace (done ++ p :: paragraphs) with ((done ++ [p]) ++ paragraphs) in *
      by (rewrite <- app_assoc; reflexivity).
    apply IH; [|exact Htok|exact Hfit].
    destruct Hst as (Hchunks & Hcur & Hcount).
    rewrite !flat_map_app, !len_app in Hfit. cbn [flat_map] in Hfit.
    rewrite app_nil_r in Hfit.
    assert (0 <= len (flat_map split paragraphs))%Z as Hrest by (unfold len; lia).
    assert (0 <= len (flat_map split done))%Z as Hdone by (unfold len; lia).
    unfold paragraph_step.
    destruct (len (split p) >? chunk_size self)%Z eqn:Hbig; [lia|].
    destruct (current_tokens st + len (split p) >? chunk_size self)%Z eqn:Hover;
      [lia|].
    cbn [andb]. split; [exact Hchunks|split]; cbn [current_chunk current_tokens].
    + rewrite Hcur. destruct done as [|d done].
      * reflexivity.
      * assert (join blank_line (d :: done) <> []) as Hne.
        { apply join_nonempty; [discriminate|].
          intros q Hq E. apply (Htok q).
          - apply in_or_app. left. apply in_or_app. left. exact Hq.
          - rewrite E. reflexivity. }
        destruct (join blank_line (d :: done)) as [|a s] eqn:E; [contradiction|].
        cbn [truthy]. rewrite join_snoc by discriminate. rewrite E. reflexivity.
    + rewrite Hcount, flat_map_app, len_app. cbn [flat_map].
      rewrite app_nil_r. reflexivity.
Qed.
End fitting.

(** X2. A text with at least one token and at most [chunk_size] tokens
    gives exactly one chunk: its text is the stripped paragraphs of the
    input joined by blank lines, its tokens are the tokens of the input,
    and its [token_count] is their number. *)
Theorem chunk_single_when_fits
    (self : simple_chunker.SimpleTokenChunker) (input : str) :
  split input <> [] ->
  (len (split input) <= simple_chunker.chunk_size self)%Z ->
  exists c,
    simple_chunker.chunk self input = [c]
    /\ simple_chunker.text c = join blank_line (simple_chunker.paragraphs_of input)
    /\ split (simple_chunker.text c) = split input
    /\ simple_chunker.token_count c = len (split input).
Proof.
  intros Htok Hfit.
  pose proof (split_paragraphs input) as Hpar.
  destruct (paragraphs_fit self (simple_chunker.paragraphs_of input) []
              (simple_chunker.mkState [] [] 0)) as (Hchunks & Hcur & Hcount).
  - split; [reflexivity|split; reflexivity].
  - intros p Hp. apply (paragraphs_of_tokens input). exact Hp.
  - cbn [app]. rewrite Hpar. exact Hfit.
  - cbn [app] in *. rewrite Hpar in Hcount.
    unfold simple_chunker.chunk.
    assert (truthy input = true) as Hin
      by (destruct input; [contradiction Htok; reflexivity | reflexivity]).
    assert (truthy (strip input) = true) as Hstrip.
    { destruct (truthy (strip input)) eqn:E; [reflexivity|].
      apply split_strip_falsy in E. contradiction. }
    rewrite Hin, Hstrip. cbn [negb orb]. unfold simple_chunker.seal.
    rewrite Hchunks, Hcur, Hcount.
    assert (split (join blank_line (simple_chunker.paragraphs_of input))
            = split input) as Hsplit
      by (rewrite split_join_blank_line; exact Hpar).
    destruct (join blank_line (simple_chunker.paragraphs_of input)) as [|a s] eqn:E.
    + exfalso. apply Htok. rewrite <- Hsplit. reflexivity.
    + cbn [truthy app].
      eexists. split; [reflexivity|].
      unfold simple_chunker.Chunk_init.
      cbn [simple_chunker.text simple_chunker.token_count].
      split; [reflexivity|split; [exact Hsplit|]].
      rewrite Hsplit. destruct (len (split input) =? 0)%Z; reflexivity.
Qed.

Lemma chunk_single_when_fits_witness :
  exists c,
    simple_chunker.chunk (simple_chunker.mkChunker 512 50) three_paragraphs = [c]
    /\ simple_chunker.text c
       = join blank_line (simple_chunker.paragraphs_of three_paragraphs)
    /\ split (simple_chunker.text c) = split three_paragraphs
    /\ simple_chunker.token_count c = len (split three_paragraphs).
Proof.
  apply (chunk_single_when_fits (simple_chunker.mkChunker 512 50) three_paragraphs).
  - vm_compute. discriminate.
  - vm_compute. discriminate.
Defined.

(** ** The size of the chunks *)

Lemma length_last_n_positive {A} (n : Z) (l : list A) :
  (0 < n)%Z -> (len (last_n n l) <= n)%Z.
Proof.
  intros Hn. rewrite last_n_positive by exact Hn.
  unfold len. rewrite length_skipn. lia.
Qed.

Lemma token_count_Chunk_init (current : str) :
  simple_chunker.token_count
    (simple_chunker.Chunk_init current (len (split current)))
  = len (split current).
Proof.
  unfold simple_chunker.Chunk_init. cbn [simple_chunker.token_count].
  destruct (len (split current) =? 0)%Z; reflexivity.
Qed.

Section sizes.
Import simple_chunker.
Variable self : SimpleTokenChunker.
Hypothesis overlap_positive : (0 < chunk_overlap self)%Z.

Lemma paragraph_step_size (st : state) (paragraph : str) :
  split paragraph <> [] ->
  (len (split paragraph) <= chunk_size self)%Z ->
  size_invariant (chunk_size self + chunk_overlap self) st ->
  size_invariant (chunk_size self + chunk_overlap self)
                 (paragraph_step self st paragraph).
Proof.
  intros Htok Hsmall (Hinv & Hcur & Hchunks).
  split; [apply paragraph_step_tokens; assumption|].
  destruct Hinv as (Hcount & _ & _).
  unfold paragraph_step.
  destruct (len (split paragraph) >? chunk_size self)%Z eqn:Hbig; [lia|].
  destruct ((_ >? _)%Z && truthy (current_chunk st)) eqn:Hseal;
    cbn [chunks current_chunk current_tokens].
  - split.
    + change (lit " " ++ paragraph) with (space :: paragraph).
      rewrite split_app_space by reflexivity.
      rewrite split_last_n, len_app.
      pose proof (length_last_n_positive (chunk_overlap self)
                    (split (current_chunk st)) overlap_positive).
      lia.
    + apply Forall_app. split; [exact Hchunks|].
      constructor; [|constructor].
      rewrite Hcount, token_count_Chunk_init, <- Hcount. exact Hcur.
  - split; [|exact Hchunks].
    apply andb_false_iff in Hseal as [Hseal | Hseal].
    + lia.
    + destruct (current_chunk st); [|discriminate].
      change (len (split [])) with 0%Z in Hcount. lia.
Qed.

Lemma paragraphs_size (paragraphs : list str) :
  (forall p, In p paragraphs ->
             split p <> [] /\ (len (split p) <= chunk_size self)%Z) ->
  forall st,
    size_invariant (chunk_size self + chunk_overlap self) st ->
    size_invariant (chunk_size self + chunk_overlap self)
                   (fold_left (paragraph_step self) paragraphs st).
Proof.
  induction paragraphs as [|p paragraphs IH]; intros Hps st Hst; [exact Hst|].
  cbn [fold_left]. apply IH.
  - intros q Hq. apply Hps. right. exact Hq.
  - destruct (Hps p (or_introl eq_refl)) as [Htok Hsmall].
    apply paragraph_step_size; assumption.
Qed.
End sizes.

(** X3. With a positive [chunk_overlap], when no paragraph of the input
    has more than [chunk_size] tokens (so the sentence split is not used),
    no chunk has more than [chunk_size + chunk_overlap] tokens: the tokens
    carried over are added to a paragraph that alone may fill the budget. *)
Theorem chunk_size_bound
    (self : simple_chunker.SimpleTokenChunker) (input : str)
    (c : simple_chunker.Chunk) :
  (0 < simple_chunker.chunk_overlap self)%Z ->
  (forall p, In p (simple_chunker.paragraphs_of input) ->
             (len (split p) <= simple_chunker.chunk_size self)%Z) ->
  In c (simple_chunker.chunk self input) ->
  (simple_chunker.token_count c
   <= simple_chunker.chunk_size self + simple_chunker.chunk_overlap self)%Z.
Proof.
  intros Hov Hsmall Hc.
  destruct (chunk_final_state self input) as [E | E]; rewrite E in Hc; [destruct Hc|].
  assert (size_invariant
            (simple_chunker.chunk_size self + simple_chunker.chunk_overlap self)
            (fold_left (simple_chunker.paragraph_step self)
                       (simple_chunker.paragraphs_of input)
                       (simple_chunker.mkState [] [] 0))) as Hinv.
  { apply paragraphs_size; [exact Hov| |].
    - intros p Hp. split; [apply (paragraphs_of_tokens input p Hp) | apply Hsmall, Hp].
    - split; [apply token_invariant_initial|].
      split; [|constructor]. cbn [simple_chunker.current_tokens].
      destruct (simple_chunker.paragraphs_of input) as [|p ps] eqn:Eps.
      + rewrite ?Eps in Hc. simpl in Hc. destruct Hc.
      + pose proof (Hsmall p (or_introl eq_refl)) as Hp.
        assert (0 <= len (split p))%Z by (unfold len; lia). lia. }
  destruct Hinv as ((Hcount & _ & _) & Hcur & Hchunks).
  unfold simple_chunker.seal in Hc.
  rewrite Forall_forall in Hchunks.
  destruct (truthy _); [|apply Hchunks; exact Hc].
  apply in_app_or in Hc as [Hc | [<- | []]]; [apply Hchunks; exact Hc|].
  rewrite Hcount, token_count_Chunk_init, <- Hcount. exact Hcur.
Qed.

Lemma chunk_size_bound_witness :
  (simple_chunker.token_count (simple_chunker.mkChunk (lit "c d e f") 4) <= 3 + 1)%Z.
Proof.
  apply (chunk_size_bound (simple_chunker.mkChunker 3 1)
           (lit "a b c" ++ blank_line ++ lit "d e f")).
  - reflexivity.
  - intros p Hp. vm_compute in Hp.
    destruct Hp as [<- | [<- | []]]; vm_compute; discriminate.
  - right. left. reflexivity.
Defined.

(** ** The chunks, with the overlaps taken off, give back the tokens *)

Lemma last_cons {A} (x : A) (l : list A) (d : A) : last (x :: l) d = last l x.
Proof.
  revert x d; induction l as [|y l IH]; intros x d; [reflexivity|].
  change (last (x :: y :: l) d) with (last (y :: l) d).
  rewrite (IH y d), (IH y x). reflexivity.
Qed.

Lemma fresh_tokens_snoc (overlap : Z) (cs : list (list str)) (c : list str) :
  forall previous,
    fresh_tokens overlap previous (cs ++ [c])
    = fresh_tokens overlap previous cs
      ++ skipn (List.length (last_n overlap (last cs previous))) c.
Proof.
  induction cs as [|x cs IH]; intros previous.
  - simpl. rewrite app_nil_r. reflexivity.
  - cbn [app fresh_tokens]. rewrite IH, last_cons, <- app_assoc. reflexivity.
Qed.

Lemma reassemble_snoc (overlap : Z) (cs : list (list str)) (c : list str) :
  cs <> [] ->
  reassemble overlap (cs ++ [c])
  = reassemble overlap cs ++ skipn (List.length (last_n overlap (last cs []))) c.
Proof.
  destruct cs as [|x cs]; intros Hne; [contradiction|].
  cbn [app reassemble]. rewrite fresh_tokens_snoc, last_cons, <- app_assoc.
  reflexivity.
Qed.

Lemma last_map_last_opt {A B} (f : A -> B) (l : list A) (x : A) (d : B) :
  last_opt l = Some x -> last (map f l) d = f x.
Proof.
  destruct l as [|y l] using rev_ind; [discriminate|].
  rewrite last_opt_snoc. intros E; inversion E; subst.
  rewrite map_app. apply last_last.
Qed.

Lemma last_opt_nonempty {A} (l : list A) : l <> [] -> exists x, last_opt l = Some x.
Proof.
  destruct l as [|y l] using rev_ind; intros H; [contradiction|].
  exists y. apply last_opt_snoc.
Qed.

Lemma skipn_length_app {A} (a b : list A) : skipn (List.length a) (a ++ b) = b.
Proof. induction a; [reflexivity | assumption]. Qed.

Section order.
Import simple_chunker.
Variable self : SimpleTokenChunker.

(** A step that extends the buffer by the tokens [more]. *)
Lemma reassembled_extend (st st' : state) (seen more : list str) :
  chunks st' = chunks st ->
  split (current_chunk st') = split (current_chunk st) ++ more ->
  order_invariant (chunk_overlap self) seen st ->
  reassembled (chunk_overlap self) st' = seen ++ more.
Proof.
  intros Hchunks Hcur [[_ Hseed] Hseen].
  unfold reassembled in *. rewrite Hchunks, Hcur.
  destruct (chunks st) as [|c cs] eqn:E.
  - cbn [map app reassemble] in *. rewrite !app_nil_r in *.
    rewrite Hseen. reflexivity.
  - assert (map tokens_of (c :: cs) <> []) as Hne by discriminate.
    rewrite reassemble_snoc in Hseen |- * by exact Hne.
    destruct (last_opt_nonempty (c :: cs)) as [previous Hlast]; [discriminate|].
    rewrite (last_map_last_opt tokens_of _ previous [] Hlast) in *.
    destruct (Hseed previous Hlast) as [[rest Hrest] _].
    unfold tokens_of in *. rewrite Hrest in *.
    rewrite <- app_assoc, !skipn_length_app in *.
    rewrite <- Hseen, <- app_assoc. reflexivity.
Qed.

(** A step that seals the buffer and starts the next one with the tokens
    carried over and the tokens [more]. *)
Lemma reassembled_seal (st st' : state) (seen more : list str) :
  chunks st' = chunks st ++ [Chunk_init (current_chunk st) (current_tokens st)] ->
  split (current_chunk st')
  = last_n (chunk_overlap self) (split (current_chunk st)) ++ more ->
  order_invariant (chunk_overlap self) seen st ->
  reassembled (chunk_overlap self) st' = seen ++ more.
Proof.
  intros Hchunks Hcur [_ Hseen].
  unfold reassembled in *. rewrite Hchunks, Hcur, map_app.
  cbn [map]. unfold tokens_of at 2. cbn [text Chunk_init].
  rewrite reassemble_snoc by (intros E; apply app_eq_nil in E as [_ E]; discriminate).
  rewrite last_last, skipn_length_app, Hseen. reflexivity.
Qed.

Lemma sentence_step_order (seen : list str) (st : state) (sentence : str) :
  order_invariant (chunk_overlap self) seen st ->
  order_invariant (chunk_overlap self) (seen ++ split sentence)
                  (sentence_step self st sentence).
Proof.
  intros Hst. split; [apply sentence_step_invariant; apply Hst|].
  unfold sentence_step.
  destruct (negb (truthy (strip sentence))) eqn:Hskip.
  - apply negb_true_iff in Hskip.
    rewrite (split_strip_falsy sentence Hskip), app_nil_r. apply Hst.
  - destruct ((_ >? _)%Z && _).
    + apply (reassembled_seal st); [reflexivity| |exact Hst].
      cbn [current_chunk].
      destruct (truthy (join _ _)) eqn:E.
      * change (lit " " ++ sentence) with (space :: sentence).
        rewrite split_app_space by reflexivity.
        rewrite split_last_n. reflexivity.
      * rewrite (join_words_nil
                   (last_n (chunk_overlap self) (split (current_chunk st)))).
        -- reflexivity.
        -- apply Forall_slice_from. apply split_words.
        -- destruct (join _ _); [reflexivity | discriminate].
    + apply (reassembled_extend st); [reflexivity| |exact Hst].
      cbn [current_chunk].
      destruct (current_chunk st) as [|a s]; cbn [truthy]; [reflexivity|].
      change (lit " " ++ sentence) with (space :: sentence).
      apply (split_app_space (a :: s) sentence space). reflexivity.
Qed.

Lemma sentences_order (sentences : list str) :
  forall seen st,
    order_invariant (chunk_overlap self) seen st ->
    order_invariant (chunk_overlap self) (seen ++ flat_map split sentences)
                    (fold_left (sentence_step self) sentences st).
Proof.
  induction sentences as [|s sentences IH]; intros seen st Hst.
  - simpl. rewrite app_nil_r. exact Hst.
  - cbn [fold_left flat_map]. rewrite app_assoc.
    apply IH. apply sentence_step_order. exact Hst.
Qed.

Lemma paragraph_step_order (seen : list str) (st : state) (paragraph : str) :
  order_invariant (chunk_overlap self) seen st ->
  order_invariant (chunk_overlap self) (seen ++ kept_tokens self paragraph)
                  (paragraph_step self st paragraph).
Proof.
  intros Hst. unfold kept_tokens.
  destruct (len (split paragraph) >? chunk_size self)%Z eqn:Hbig.
  - unfold paragraph_step. rewrite Hbig. apply sentences_order. exact Hst.
  - split; [apply paragraph_step_invariant; apply Hst|].
    unfold paragraph_step. rewrite Hbig.
    destruct ((_ >? _)%Z && _).
    + apply (reassembled_seal st); [reflexivity| |exact Hst].
      cbn [current_chunk].
      change (lit " " ++ paragraph) with (space :: paragraph).
      rewrite split_app_space by reflexivity.
      rewrite split_last_n. reflexivity.
    + apply (reassembled_extend st); [reflexivity| |exact Hst].
      cbn [current_chunk].
      destruct (current_chunk st) as [|a s]; cbn [truthy]; [reflexivity|].
      rewrite (split_app_space (a :: s) (newline :: paragraph) newline)
        by reflexivity.
      rewrite (split_cons_space paragraph newline) by reflexivity.
      reflexivity.
Qed.

Lemma paragraphs_order (paragraphs : list str) :
  forall seen st,
    order_invariant (chunk_overlap self) seen st ->
    order_invariant (chunk_overlap self)
                    (seen ++ flat_map (kept_tokens self) paragraphs)
                    (fold_left (paragraph_step self) paragraphs st).
Proof.
  induction paragraphs as [|p paragraphs IH]; intros seen st Hst.
  - simpl. rewrite app_nil_r. exact Hst.
  - cbn [fold_left flat_map]. rewrite app_assoc.
    apply IH. apply paragraph_step_order. exact Hst.
Qed.

Lemma seal_reassembled (st : state) :
  reassemble (chunk_overlap self) (map tokens_of (seal st))
  = reassembled (chunk_overlap self) st.
Proof.
  unfold seal, reassembled.
  destruct (current_chunk st) as [|a s] eqn:E; cbn [truthy].
  - change (split []) with (@nil str).
    destruct (chunks st) as [|c cs]; [reflexivity|].
    rewrite reassemble_snoc by discriminate.
    rewrite skipn_nil, app_nil_r. reflexivity.
  - rewrite map_app. reflexivity.
Qed.

Lemma chunk_reassembled (input : str) :
  reassemble (chunk_overlap self) (map tokens_of (chunk self input))
  = flat_map (kept_tokens self) (paragraphs_of input).
Proof.
  unfold chunk.
  destruct (negb (truthy input) || negb (truthy (strip input))) eqn:Hblank.
  - assert (split input = []) as Hno.
    { apply orb_true_iff in Hblank as [H | H]; apply negb_true_iff in H.
      - destruct input; [reflexivity | discriminate].
      - apply split_strip_falsy. exact H. }
    destruct (paragraphs_of input) as [|p ps] eqn:E; [reflexivity|].
    exfalso. apply (paragraphs_of_tokens input p); [rewrite E; left; reflexivity|].
    pose proof (split_paragraphs input) as Hsp. rewrite E, Hno in Hsp.
    cbn [flat_map] in Hsp. apply app_eq_nil in Hsp as [Hsp _]. exact Hsp.
  - rewrite seal_reassembled.
    assert (order_invariant (chunk_overlap self) [] (mkState [] [] 0)) as H0.
    { split; [|reflexivity]. split.
      - intros [|i] a b Ha; discriminate.
      - intros previous Hlast. discriminate. }
    apply (paragraphs_order (paragraphs_of input)) in H0.
    apply H0.
Qed.
End order.

(** X4. Reassembling the chunks gives back the text, token by token and
    in order: take all the tokens of the first chunk and, from every later
    chunk, the tokens after the ones carried over from the chunk before it
    ([previous[-chunk_overlap:]]).  The result is the list of the tokens
    the paragraphs hand on, which, when no paragraph has more than
    [chunk_size] tokens, is the list of the tokens of the input. *)
Theorem chunk_reassembles
    (self : simple_chunker.SimpleTokenChunker) (input : str) :
  reassemble (simple_chunker.chunk_overlap self)
             (map tokens_of (simple_chunker.chunk self input))
  = flat_map (kept_tokens self) (simple_chunker.paragraphs_of input)
  /\ ((forall p, In p (simple_chunker.paragraphs_of input) ->
                 (len (split p) <= simple_chunker.chunk_size self)%Z) ->
      reassemble (simple_chunker.chunk_overlap self)
                 (map tokens_of (simple_chunker.chunk self input))
      = split input).
Proof.
  split; [apply chunk_reassembled|].
  intros Hsmall. rewrite chunk_reassembled, <- split_paragraphs.
  induction (simple_chunker.paragraphs_of input) as [|p ps IH]; [reflexivity|].
  cbn [flat_map]. rewrite IH by (intros q Hq; apply Hsmall; right; exact Hq).
  unfold kept_tokens.
  pose proof (Hsmall p (or_introl eq_refl)) as Hp.
  destruct (len (split p) >? simple_chunker.chunk_size self)%Z eqn:E; [lia|].
  reflexivity.
Qed.

Lemma chunk_reassembles_witness :
  reassemble 1 (map tokens_of
                    (simple_chunker.chunk (simple_chunker.mkChunker 3 1)
                       (lit "a b c" ++ blank_line ++ lit "d e f")))
  = split (lit "a b c" ++ blank_line ++ lit "d e f").
Proof.
  apply (proj2 (chunk_reassembles (simple_chunker.mkChunker 3 1)
                  (lit "a b c" ++ blank_line ++ lit "d e f"))).
  intros p Hp. vm_compute in Hp.
  destruct Hp as [<- | [<- | []]]; vm_compute; discriminate.
Defined.

(** ** Where the tokens of the chunks come from *)

Lemma In_last_n {A} (n : Z) (l : list A) (x : A) : In x (last_n n l) -> In x l.
Proof.
  unfold last_n, slice_from. intros H.
  rewrite <- (firstn_skipn (Z.to_nat (if (- n <? 0)%Z
                                      then Z.max 0 (- n + len l)
                                      else Z.min (- n) (len l))) l).
  apply in_or_app. right. exact H.
Qed.

Lemma covered_snoc_inv (w : str) (l : list simple_chunker.Chunk)
    (current : str) (tokens : Z) :
  covered w (l ++ [simple_chunker.Chunk_init current tokens]) ->
  covered w l \/ In w (split current).
Proof.
  intros [c [Hc Hw]]. apply in_app_or in Hc as [Hc | [<- | []]].
  - left. exists c. split; assumption.
  - right. exact Hw.
Qed.

Section origin.
Import simple_chunker.
Variable self : SimpleTokenChunker.

Lemma sentence_step_origin (seen : list str) (st : state) (sentence : str) :
  origin_invariant seen st ->
  origin_invariant (seen ++ split sentence) (sentence_step self st sentence).
Proof.
  intros Hst w. unfold sentence_step.
  destruct (negb (truthy (strip sentence))).
  - intros Hw. apply in_or_app. left. apply Hst. exact Hw.
  - destruct ((_ >? _)%Z && _); cbn [chunks current_chunk].
    + intros [Hw | Hw].
      * apply in_or_app. left. apply Hst. apply covered_snoc_inv in Hw. exact Hw.
      * destruct (truthy (join _ _)).
        -- change (lit " " ++ sentence) with (space :: sentence) in Hw.
           rewrite split_app_space, split_last_n in Hw by reflexivity.
           apply in_or_app. apply in_app_or in Hw as [Hw | Hw]; [left | right; exact Hw].
           apply Hst. right. apply In_last_n in Hw. exact Hw.
        -- apply in_or_app. right. exact Hw.
    + intros [Hw | Hw]; [apply in_or_app; left; apply Hst; left; exact Hw|].
      destruct (current_chunk st) as [|a s] eqn:E; cbn [truthy] in Hw.
      * apply in_or_app. right. exact Hw.
      * change (lit " " ++ sentence) with (space :: sentence) in Hw.
        rewrite (split_app_space (a :: s) sentence space) in Hw by reflexivity.
        apply in_or_app. apply in_app_or in Hw as [Hw | Hw]; [left | right; exact Hw].
        apply Hst. right. rewrite E. exact Hw.
Qed.

Lemma sentences_origin (sentences : list str) :
  forall seen st,
    origin_invariant seen st ->
    origin_invariant (seen ++ flat_map split sentences)
                     (fold_left (sentence_step self) sentences st).
Proof.
  induction sentences as [|s sentences IH]; intros seen st Hst.
  - simpl. rewrite app_nil_r. exact Hst.
  - cbn [fold_left flat_map]. rewrite app_assoc.
    apply IH. apply sentence_step_origin. exact Hst.
Qed.

Lemma paragraph_step_origin (seen : list str) (st : state) (paragraph : str) :
  origin_invariant seen st ->
  origin_invariant (seen ++ kept_tokens self paragraph)
                   (paragraph_step self st paragraph).
Proof.
  intros Hst. unfold paragraph_step, kept_tokens.
  destruct (_ >? _)%Z; [apply sentences_origin; exact Hst|].
  intros w.
  destruct ((_ >? _)%Z && _); cbn [chunks current_chunk].
  - intros [Hw | Hw].
    + apply in_or_app. left. apply Hst. apply covered_snoc_inv in Hw. exact Hw.
    + change (lit " " ++ paragraph) with (space :: paragraph) in Hw.
      rewrite split_app_space, split_last_n in Hw by reflexivity.
      apply in_or_app. apply in_app_or in Hw as [Hw | Hw]; [left | right; exact Hw].
      apply Hst. right. apply In_last_n in Hw. exact Hw.
  - intros [Hw | Hw]; [apply in_or_app; left; apply Hst; left; exact Hw|].
    destruct (current_chunk st) as [|a s] eqn:E; cbn [truthy] in Hw.
    + apply in_or_app. right. exact Hw.
    + rewrite (split_app_space (a :: s) (newline :: paragraph) newline) in Hw
        by reflexivity.
      rewrite (split_cons_space paragraph newline) in Hw by reflexivity.
      apply in_or_app. apply in_app_or in Hw as [Hw | Hw]; [left | right; exact Hw].
      apply Hst. right. rewrite E. exact Hw.
Qed.

Lemma paragraphs_origin (paragraphs : list str) :
  forall seen st,
    origin_invariant seen st ->
    origin_invariant (seen ++ flat_map (kept_tokens self) paragraphs)
                     (fold_left (paragraph_step self) paragraphs st).
Proof.
  induction paragraphs as [|p paragraphs IH]; intros seen st Hst.
  - simpl. rewrite app_nil_r. exact Hst.
  - cbn [fold_left flat_map]. rewrite app_assoc.
    apply IH. apply paragraph_step_origin. exact Hst.
Qed.

Lemma chunk_tokens_kept (input w : str) :
  covered w (chunk self input) ->
  In w (flat_map (kept_tokens self) (paragraphs_of input)).
Proof.
  intros Hw.
  destruct (chunk_final_state self input) as [E | E]; rewrite E in Hw.
  - destruct Hw as [c [[] _]].
  - assert (origin_invariant [] (mkState [] [] 0)) as H0.
    { intros x [[c [[] _]] | []]. }
    apply (paragraphs_origin (paragraphs_of input)) in H0.
    cbn [app] in H0. apply H0. unfold seal in Hw.
    destruct (truthy _); [|left; exact Hw].
    apply covered_snoc_inv in Hw. exact Hw.
Qed.
End origin.

Lemma kept_tokens_without_fallback
    (self : simple_chunker.SimpleTokenChunker) (paragraphs : list str) :
  (forall p, In p paragraphs ->
             (len (split p) <= simple_chunker.chunk_size self)%Z) ->
  flat_map (kept_tokens self) paragraphs = flat_map split paragraphs.
Proof.
  induction paragraphs as [|p ps IH]; intros Hsmall; [reflexivity|].
  cbn [flat_map]. rewrite IH by (intros q Hq; apply Hsmall; right; exact Hq).
  unfold kept_tokens.
  pose proof (Hsmall p (or_introl eq_refl)) as Hp.
  destruct (len (split p) >? simple_chunker.chunk_size self)%Z eqn:E; [lia|].
  reflexivity.
Qed.

(** X5. When no paragraph of the input has more than [chunk_size]
    tokens, the tokens found in the chunks are exactly the tokens of the
    input: every token of the input is in some chunk, and no chunk holds a
    token that the input does not have. *)
Theorem chunk_tokens_are_input_tokens
    (self : simple_chunker.SimpleTokenChunker) (input w : str) :
  (forall p, In p (simple_chunker.paragraphs_of input) ->
             (len (split p) <= simple_chunker.chunk_size self)%Z) ->
  (covered w (simple_chunker.chunk self input) <-> In w (split input)).
Proof.
  intros Hsmall. rewrite <- split_paragraphs.
  rewrite <- (kept_tokens_without_fallback self _ Hsmall).
  split; [apply chunk_tokens_kept | apply chunk_covers_kept].
Qed.

Lemma chunk_tokens_are_input_tokens_witness :
  covered (lit "e")
          (simple_chunker.chunk (simple_chunker.mkChunker 3 1)
             (lit "a b c" ++ blank_line ++ lit "d e f"))
  <-> In (lit "e") (split (lit "a b c" ++ blank_line ++ lit "d e f")).
Proof.
  apply (chunk_tokens_are_input_tokens (simple_chunker.mkChunker 3 1)
           (lit "a b c" ++ blank_line ++ lit "d e f") (lit "e")).
  intros p Hp. vm_compute in Hp.
  destruct Hp as [<- | [<- | []]]; vm_compute; discriminate.
Defined.

(** ** When there is no chunk at all *)

Lemma skipn_takewhile {A} (p : A -> bool) (l : list A) :
  skipn (List.length (takewhile p l)) l = dropwhile p l.
Proof.
  induction l as [|x l IH]; [reflexivity|].
  simpl. destruct (p x); [exact IH | reflexivity].
Qed.

Lemma ends_nonspace_tail (c : ascii) (r : str) :
  r <> [] -> ends_nonspace (c :: r) -> ends_nonspace r.
Proof.
  intros Hr (before & z & E & Hz).
  destruct before as [|b before].
  - simpl in E. inversion E; subst. contradiction.
  - simpl in E. inversion E; subst. exists before, z. split; [reflexivity | exact Hz].
Qed.

Lemma ends_nonspace_split (s : str) : ends_nonspace s -> split s <> [].
Proof.
  intros (before & z & -> & Hz) E.
  apply split_nil_spaces in E. rewrite forallb_app in E.
  apply andb_true_iff in E as [_ E]. simpl in E. rewrite Hz in E. discriminate.
Qed.

Lemma dropwhile_head {A} (p : A -> bool) (l : list A) (y : A) (ys : list A) :
  dropwhile p l = y :: ys -> p y = false.
Proof.
  induction l as [|x l IH]; [discriminate|].
  simpl. destruct (p x) eqn:E; [exact IH|].
  intros H; inversion H; subst. exact E.
Qed.

Lemma strip_ends_nonspace (s : str) :
  truthy (strip s) = true -> ends_nonspace (strip s).
Proof.
  unfold strip, rstrip.
  destruct (dropwhile isspace (rev (lstrip s))) as [|y ys] eqn:E; [discriminate|].
  intros _. exists (rev ys), y. split; [reflexivity|].
  apply (dropwhile_head _ _ _ _ E).
Qed.

Lemma match_sentence_end_inside (s : str) (n : nat) :
  match_sentence_end s = Some n -> ends_nonspace s -> n < List.length s.
Proof.
  unfold match_sentence_end.
  set (p := List.length (takewhile is_terminator s)).
  set (w := List.length (takewhile isspace (skipn p s))).
  destruct ((0 <? p) && (0 <? w)) eqn:Hpw; [|discriminate].
  intros E; inversion E; subst n. clear E.
  apply andb_true_iff in Hpw as [_ Hw]. apply Nat.ltb_lt in Hw.
  intros (before & z & Hs & Hz).
  pose proof (takewhile_dropwhile is_terminator s) as Hsplit.
  pose proof (skipn_takewhile is_terminator s) as Hskip. fold p in Hskip.
  pose proof (takewhile_dropwhile isspace (skipn p s)) as Hrun.
  assert (List.length s
          = p + w + List.length (dropwhile isspace (skipn p s))) as Hlen.
  { rewrite Hsplit at 1. rewrite length_app. fold p. rewrite <- Hskip.
    rewrite Hrun at 1. rewrite length_app. fold w. lia. }
  destruct (dropwhile isspace (skipn p s)) as [|d ds] eqn:Hd; [|simpl in Hlen; lia].
  exfalso. rewrite app_nil_r in Hrun.
  pose proof (forallb_takewhile isspace (skipn p s)) as Hall.
  rewrite <- Hrun in Hall.
  assert (skipn p s <> []) as Hne
    by (intros K; unfold w in Hw; rewrite K in Hw; simpl in Hw; lia).
  destruct (exists_last Hne) as (init & y & Hy).
  rewrite Hy, forallb_app in Hall. apply andb_true_iff in Hall as [_ Hall].
  simpl in Hall. rewrite andb_true_r in Hall.
  rewrite <- (firstn_skipn p s), Hy, app_assoc in Hs.
  apply app_inj_tail in Hs as [_ Hs]. subst y. congruence.
Qed.

Section non_blank_piece.
Variable match_at : str -> option nat.
Hypothesis match_inside :
  forall s n, match_at s = Some n -> ends_nonspace s -> n < List.length s.

Lemma re_split_from_token (s : str) :
  forall skip piece,
    ends_nonspace s -> skip < List.length s ->
    exists x, In x (re_split_from match_at s skip piece) /\ split x <> [].
Proof.
  induction s as [|c r IH]; intros skip piece Hend Hskip; [simpl in Hskip; lia|].
  cbn [re_split_from]. simpl in Hskip.
  destruct skip as [|k].
  - destruct (match_at (c :: r)) as [[|n]|] eqn:E.
    + destruct r as [|d r'].
      * exists (rev (c :: piece)). split; [left; reflexivity|].
        apply ends_nonspace_split.
        destruct Hend as (before & z & Hs & Hz).
        exists (rev piece), c. split; [reflexivity|].
        destruct before as [|b [|b' before]]; simpl in Hs; inversion Hs; subst.
        exact Hz.
      * apply IH; [|simpl; lia].
        apply (ends_nonspace_tail c); [discriminate | exact Hend].
    + pose proof (match_inside _ _ E Hend) as Hn. simpl in Hn.
      destruct (IH n []) as (x & Hx & Htok).
      * apply (ends_nonspace_tail c); [|exact Hend].
        intros K; subst r; simpl in Hn; lia.
      * lia.
      * exists x. split; [right; exact Hx | exact Htok].
    + destruct r as [|d r'].
      * exists (rev (c :: piece)). split; [left; reflexivity|].
        apply ends_nonspace_split.
        destruct Hend as (before & z & Hs & Hz).
        exists (rev piece), c. split; [reflexivity|].
        destruct before as [|b [|b' before]]; simpl in Hs; inversion Hs; subst.
        exact Hz.
      * apply IH; [|simpl; lia].
        apply (ends_nonspace_tail c); [discriminate | exact Hend].
  - apply IH; [|lia].
    apply (ends_nonspace_tail c); [|exact Hend].
    intros K; subst r; simpl in Hskip; lia.
Qed.
End non_blank_piece.

Lemma kept_tokens_nonempty
    (self : simple_chunker.SimpleTokenChunker) (input p : str) :
  In p (simple_chunker.paragraphs_of input) -> kept_tokens self p <> [].
Proof.
  intros Hp. unfold kept_tokens.
  destruct (_ >? _)%Z; [|apply (paragraphs_of_tokens input p Hp)].
  assert (ends_nonspace p) as Hend.
  { unfold simple_chunker.paragraphs_of in Hp.
    apply in_map_iff in Hp as [q [<- Hq]]. apply filter_In in Hq as [_ Hq].
    apply strip_ends_nonspace. exact Hq. }
  destruct (re_split_from_token match_sentence_end match_sentence_end_inside
              p 0 [] Hend) as (x & Hx & Htok).
  - destruct Hend as (before & z & -> & _). rewrite length_app. simpl. lia.
  - intros E. apply Htok.
    assert (In x (re_split match_sentence_end p)) as Hin by exact Hx.
    destruct (split x) as [|t ts] eqn:Ex; [reflexivity|].
    exfalso.
    assert (In t (flat_map split (re_split match_sentence_end p))) as Ht
      by (apply in_flat_map; exists x; split; [exact Hin | rewrite Ex; left; reflexivity]).
    rewrite E in Ht. destruct Ht.
Qed.

(** X6. [chunk] returns no chunk exactly when the input has no token
    (it is empty or all whitespace); any input with a token gives at least
    one chunk, also when its paragraphs go through the sentence split. *)
Theorem chunk_nil_iff_no_token
    (self : simple_chunker.SimpleTokenChunker) (input : str) :
  simple_chunker.chunk self input = [] <-> split input = [].
Proof.
  split.
  - intros Hnil.
    destruct (simple_chunker.paragraphs_of input) as [|p ps] eqn:E.
    + rewrite <- split_paragraphs, E. reflexivity.
    + exfalso.
      assert (In p (simple_chunker.paragraphs_of input)) as Hp
        by (rewrite E; left; reflexivity).
      pose proof (kept_tokens_nonempty self input p Hp) as Hkept.
      destruct (kept_tokens self p) as [|w ws] eqn:Ew; [contradiction|].
      assert (covered w (simple_chunker.chunk self input)) as [c [Hc _]].
      { apply chunk_covers_kept. rewrite E. cbn [flat_map].
        rewrite Ew. left. reflexivity. }
      rewrite Hnil in Hc. destruct Hc.
  - intros Hno. destruct (chunk_final_state self input) as [E | E]; [exact E|].
    pose proof (split_paragraphs input) as Hsp. rewrite Hno in Hsp.
    destruct (simple_chunker.paragraphs_of input) as [|p ps] eqn:Ep.
    + rewrite E. reflexivity.
    + exfalso. apply (paragraphs_of_tokens input p); [rewrite Ep; left; reflexivity|].
      cbn [flat_map] in Hsp. apply app_eq_nil in Hsp as [Hsp _]. exact Hsp.
Qed.

(** ** The text of a PDF *)

Lemma dropwhile_nonspace_head (c : ascii) (s : str) :
  isspace c = false -> dropwhile isspace (c :: s) = c :: s.
Proof. intros H. simpl. rewrite H. reflexivity. Qed.

Lemma strip_strip (s : str) : strip (strip s) = strip s.
Proof.
  assert (strip s = rev (dropwhile isspace (rev (lstrip s)))) as Es by reflexivity.
  rewrite Es.
  destruct (dropwhile isspace (rev (lstrip s))) as [|y ys] eqn:E; [reflexivity|].
  pose proof (dropwhile_head _ _ _ _ E) as Hy.
  pose proof (takewhile_dropwhile isspace (rev (lstrip s))) as Hrev.
  rewrite E in Hrev. apply (f_equal (@rev ascii)) in Hrev.
  rewrite rev_involutive, rev_app_distr in Hrev.
  assert (lstrip (rev (y :: ys)) = rev (y :: ys)) as Hl.
  { unfold lstrip in *.
    destruct (rev (y :: ys)) as [|h hs] eqn:Eh; [reflexivity|].
    apply dropwhile_nonspace_head.
    cbn [app] in Hrev. destruct (dropwhile isspace s) as [|h' hs'] eqn:Ed.
    - discriminate.
    - inversion Hrev; subst h'. apply (dropwhile_head _ _ _ _ Ed). }
  unfold strip. rewrite Hl. unfold rstrip.
  rewrite rev_involutive, (dropwhile_nonspace_head y ys Hy). reflexivity.
Qed.

Lemma split_pages (pages : list str) :
  forall text,
    text = [] \/ (exists before, text = before ++ [newline]) ->
    split (fold_left (fun text page => text ++ page ++ [newline]) pages text)
    = split text ++ flat_map split pages.
Proof.
  induction pages as [|p pages IH]; intros text Htext.
  - simpl. rewrite app_nil_r. reflexivity.
  - cbn [fold_left flat_map]. rewrite IH.
    + rewrite (app_assoc (split text) (split p)). f_equal.
      rewrite (app_assoc text p [newline]), split_app_spaces by reflexivity.
      destruct Htext as [-> | [before ->]]; [reflexivity|].
      rewrite <- app_assoc. cbn [app].
      rewrite (split_app_space before p newline) by reflexivity.
      rewrite (split_app_spaces before [newline]) by reflexivity. reflexivity.
    + right. exists (text ++ p). rewrite <- app_assoc. reflexivity.
Qed.

(** X7. For a file whose suffix is ".pdf" in any letter case and whose
    pages [PdfReader] extracts, [extract_text] returns a text without
    leading or trailing whitespace whose tokens are the tokens of the
    pages, page after page: no token is lost or joined across pages. *)
Theorem extract_text_pdf_tokens
    (file_path : pdf_extractor.Path) (d : pdf_extractor.file_data)
    (pages : list str) :
  pdf_extractor.target file_path = Some (pdf_extractor.File d) ->
  lower (pdf_extractor.suffix file_path) = lit ".pdf" ->
  pdf_extractor.pdf_pages d = Ok pages ->
  exists text,
    pdf_extractor.extract_text file_path = Ok text
    /\ split text = flat_map split pages
    /\ strip text = text.
Proof.
  intros Htarget Hsuffix Hpages.
  unfold pdf_extractor.extract_text, pdf_extractor.resolved.
  rewrite Htarget. cbn [pdf_extractor.follow]. rewrite Hsuffix, Hpages.
  cbn [str_eqb lit list_ascii_of_string Ascii.eqb Bool.eqb andb orb].
  eexists. split; [reflexivity|]. split.
  - rewrite split_strip, split_pages by (left; reflexivity). reflexivity.
  - apply strip_strip.
Qed.

Lemma extract_text_pdf_tokens_witness :
  exists text,
    pdf_extractor.extract_text guide_pdf = Ok text
    /\ split text = flat_map split [lit " Bourses et aides "; lit "Stages"]
    /\ strip text = text.
Proof.
  apply (extract_text_pdf_tokens guide_pdf
           (pdf_extractor.mkFile (Raise UnicodeDecodeError)
              (Ok [lit " Bourses et aides "; lit "Stages"])));
    reflexivity.
Defined.

(** ** The files a directory gives *)








(** ** Runs of [add_documents] *)

Section add_documents_runs.
Import qdrant_rest.
Variable self : QdrantRESTClient.
Variable env : servers.

(** What [add_documents] does once the embeddings are there. *)
Lemma add_documents_unfold (texts metadatas vectors : list pyval) (t : trace) :
  texts <> [] ->
  fst (_create_embeddings self texts env t) = Ok vectors ->
  add_documents self texts metadatas env t
  = let t1 := t ++ [Request (embeddings_request self texts)] in
    match rmap (point (offset_read self env t1))
               (enumerate_from 0 (zip3 texts vectors metadatas)) with
    | Raise e => (Raise e, t1 ++ [Request (info_request self)])
    | Ok points =>
        match upload self points env (t1 ++ [Request (info_request self)]) with
        | (Ok _, t') => (Ok (len points), t')
        | (Raise e, t') => (Raise e, t')
        end
    end.
Proof.
  intros Hne Hemb. unfold add_documents.
  destruct texts as [|x texts']; [congruence|]. cbn [truthy negb].
  set (texts := x :: texts') in *.
  unfold bind at 1.
  pose proof (create_embeddings_trace self env texts t) as Htr.
  destruct (_create_embeddings self texts env t) as [r t1].
  simpl in Hemb, Htr. subst r t1. cbv zeta.
  unfold upload, offset_read, points_count_of, rbind.
  unfold bind, try_except, lift, ret, _get, send. fold (info_request self).
  destruct (env (t ++ [Request (embeddings_request self texts)])
                (info_request self)) as [info|];
    [destruct (subscript info (lit "result")) as [result|];
     [destruct (subscript result (lit "points_count")) as [count|]|]|];
    (destruct (rmap _ _) as [points|e1]; [|reflexivity]);
    destruct (for_each _ _ env _) as [[[]|e2] t']; reflexivity.
Qed.

Lemma upload_accepted (points : list pyval) (t : trace) :
  (forall t' batch, env t' (upsert_request self batch) <> None) ->
  upload self points env t
  = (Ok tt, t ++ map (fun b => Request (upsert_request self b)) (batches_of points)).
Proof.
  intros Hup. unfold upload, batches_of.
  rewrite (upload_batches self env points _ Hup), map_map. reflexivity.
Qed.
End add_documents_runs.

Lemma rmap_point_dicts (offset : Z) (texts vectors : list pyval)
    (metas : list (dict pyval)) :
  rmap (qdrant_rest.point (PInt offset))
       (enumerate_from 0 (zip3 texts vectors (map PDict metas)))
  = Ok (expected_points offset texts vectors metas).
Proof.
  unfold expected_points. generalize 0%Z as start.
  revert vectors metas.
  induction texts as [|text texts IH]; intros vectors metas start; [reflexivity|].
  destruct vectors as [|v vectors]; [reflexivity|].
  destruct metas as [|m metas]; [reflexivity|].
  cbn [map zip3 enumerate_from rmap]. rewrite IH. reflexivity.
Qed.

Lemma length_enumerate_from {A} (l : list A) :
  forall start, List.length (enumerate_from start l) = List.length l.
Proof. induction l as [|x l IH]; intros start; simpl; [|rewrite IH]; reflexivity. Qed.

Lemma length_zip3 {A B C} (a : list A) (b : list B) (c : list C) :
  List.length (zip3 a b c)
  = Nat.min (List.length a) (Nat.min (List.length b) (List.length c)).
Proof.
  revert b c; induction a as [|x a IH]; intros [|y b] [|z c]; simpl;
    try reflexivity; try (rewrite Nat.min_0_r; reflexivity).
  rewrite IH. reflexivity.
Qed.

Lemma length_expected_points (offset : Z) (texts vectors : list pyval)
    (metas : list (dict pyval)) :
  List.length (expected_points offset texts vectors metas)
  = Nat.min (List.length texts)
            (Nat.min (List.length vectors) (List.length metas)).
Proof.
  unfold expected_points.
  rewrite length_map, length_enumerate_from, length_zip3. reflexivity.
Qed.

(** X9. [add_documents] does not stop when the read of the point count
    fails, be it that the request raises or that the response lacks
    ["result"] or ["points_count"]: it numbers the points from 0, uploads
    them and returns their number, whatever the collection already holds. *)
Theorem add_documents_offset_fallback
    (self : qdrant_rest.QdrantRESTClient)
    (texts vectors : list pyval) (metas : list (dict pyval))
    (env : servers) (t : trace) :
  texts <> [] ->
  fst (qdrant_rest._create_embeddings self texts env t) = Ok vectors ->
  (env (t ++ [Request (qdrant_rest.embeddings_request self texts)]) (info_request self)
   = None
   \/ exists info e,
       env (t ++ [Request (qdrant_rest.embeddings_request self texts)])
           (info_request self) = Some info
       /\ points_count_of info = Raise e) ->
  (forall t' batch, env t' (upsert_request self batch) <> None) ->
  qdrant_rest.add_documents self texts (map PDict metas) env t
  = (Ok (len (expected_points 0 texts vectors metas)),
     t ++ Request (qdrant_rest.embeddings_request self texts)
       :: Request (info_request self)
       :: map (fun b => Request (upsert_request self b))
              (batches_of (expected_points 0 texts vectors metas))).
Proof.
  intros Hne Hemb Hfail Hup.
  rewrite (add_documents_unfold self env texts _ vectors t Hne Hemb). cbv zeta.
  assert (offset_read self env
            (t ++ [Request (qdrant_rest.embeddings_request self texts)])
          = PInt 0) as Hoff.
  { unfold offset_read. destruct Hfail as [-> | (info & e & -> & ->)]; reflexivity. }
  rewrite Hoff, rmap_point_dicts, (upload_accepted self env _ _ Hup).
  rewrite <- !app_assoc. reflexivity.
Qed.

Lemma add_documents_offset_fallback_witness :
  qdrant_rest.add_documents default_client two_texts (map PDict two_metadatas)
                            (fun t r => match method r with
                                        | GET => None
                                        | _ => seven_points_servers t r
                                        end) []
  = (Ok (len (expected_points 0 two_texts two_vectors two_metadatas)),
     [] ++ Request (qdrant_rest.embeddings_request default_client two_texts)
        :: Request (info_request default_client)
        :: map (fun b => Request (upsert_request default_client b))
               (batches_of (expected_points 0 two_texts two_vectors two_metadatas))).
Proof.
  apply (add_documents_offset_fallback default_client two_texts two_vectors
           two_metadatas);
    [discriminate | reflexivity | left; reflexivity | discriminate].
Defined.

(** X10. [add_documents] does not check that its lists have one length:
    when the embedding service returns fewer or more vectors than texts, or
    the metadata list is shorter or longer, it silently uploads as many
    points as the shortest of the three lists has elements, and returns
    that number. *)
Theorem add_documents_truncates
    (self : qdrant_rest.QdrantRESTClient)
    (texts vectors : list pyval) (metas : list (dict pyval))
    (c : Z) (info : pyval) (env : servers) (t : trace) :
  texts <> [] ->
  fst (qdrant_rest._create_embeddings self texts env t) = Ok vectors ->
  env (t ++ [Request (qdrant_rest.embeddings_request self texts)]) (info_request self)
  = Some info ->
  points_count_of info = Ok (PInt c) ->
  (forall t' batch, env t' (upsert_request self batch) <> None) ->
  qdrant_rest.add_documents self texts (map PDict metas) env t
  = (Ok (Z.of_nat (Nat.min (List.length texts)
                           (Nat.min (List.length vectors) (List.length metas)))),
     t ++ Request (qdrant_rest.embeddings_request self texts)
       :: Request (info_request self)
       :: map (fun b => Request (upsert_request self b))
              (batches_of (expected_points c texts vectors metas))).
Proof.
  intros Hne Hemb Hinfo Hcount Hup.
  rewrite (add_documents_unfold self env texts _ vectors t Hne Hemb). cbv zeta.
  assert (offset_read self env
            (t ++ [Request (qdrant_rest.embeddings_request self texts)])
          = PInt c) as Hoff.
  { unfold offset_read. rewrite Hinfo, Hcount. reflexivity. }
  rewrite Hoff, rmap_point_dicts, (upload_accepted self env _ _ Hup).
  unfold len. rewrite length_expected_points, <- !app_assoc. reflexivity.
Qed.

Lemma add_documents_truncates_witness :
  qdrant_rest.add_documents default_client two_texts
                            (map PDict [[(lit "source", PStr (lit "a.txt"))]])
                            seven_points_servers []
  = (Ok (Z.of_nat (Nat.min 2 (Nat.min 2 1))),
     [] ++ Request (qdrant_rest.embeddings_request default_client two_texts)
        :: Request (info_request default_client)
        :: map (fun b => Request (upsert_request default_client b))
               (batches_of (expected_points 7 two_texts two_vectors
                              [[(lit "source", PStr (lit "a.txt"))]]))).
Proof.
  apply (add_documents_truncates default_client two_texts two_vectors
           [[(lit "source", PStr (lit "a.txt"))]] 7
           (PDict [(lit "result", PDict [(lit "points_count", PInt 7)])]));
    [discriminate | reflexivity | reflexivity | reflexivity | discriminate].
Defined.

(** X11. When the embedding call raises (the request fails or the
    response is malformed), [add_documents] raises the same exception and
    has sent nothing to the vector store: the embedding request is its
    only request. *)
Theorem add_documents_embedding_failure
    (self : qdrant_rest.QdrantRESTClient)
    (texts metadatas : list pyval) (e : exn) (env : servers) (t : trace) :
  texts <> [] ->
  fst (qdrant_rest._create_embeddings self texts env t) = Raise e ->
  qdrant_rest.add_documents self texts metadatas env t
  = (Raise e, t ++ [Request (qdrant_rest.embeddings_request self texts)]).
Proof.
  intros Hne Hemb. unfold qdrant_rest.add_documents.
  destruct texts as [|x texts']; [congruence|]. cbn [truthy negb].
  unfold bind at 1.
  pose proof (create_embeddings_trace self env (x :: texts') t) as Htr.
  destruct (qdrant_rest._create_embeddings self (x :: texts') env t) as [r t1].
  simpl in Hemb, Htr. subst r t1. reflexivity.
Qed.

Lemma add_documents_embedding_failure_witness :
  qdrant_rest.add_documents default_client two_texts (map PDict two_metadatas)
                            (fun _ _ => None) []
  = (Raise RequestException,
     [] ++ [Request (qdrant_rest.embeddings_request default_client two_texts)]).
Proof.
  apply (add_documents_embedding_failure default_client two_texts
           (map PDict two_metadatas) RequestException (fun _ _ => None) []);
    [discriminate | reflexivity].
Defined.

Lemma point_TypeError (offset : pyval) (row : Z * (pyval * pyval * pyval)) (e : exn) :
  qdrant_rest.point offset row = Raise e -> e = TypeError.
Proof.
  destruct row as [i [[text v] m]]. unfold qdrant_rest.point, rbind.
  destruct offset; simpl; try (intros H; inversion H; reflexivity);
    destruct m; simpl; intros H; inversion H; reflexivity.
Qed.

Lemma point_not_a_dict (offset : pyval) (i : Z) (text v m : pyval) :
  not_a_dict m -> exists e, qdrant_rest.point offset (i, (text, v, m)) = Raise e.
Proof.
  intros Hm. unfold qdrant_rest.point, rbind.
  destruct (add_int offset i); [|eexists; reflexivity].
  destruct m; simpl in *; try contradiction; eexists; reflexivity.
Qed.

Lemma rmap_point_raises (offset : pyval) (rows : list (Z * (pyval * pyval * pyval))) :
  (exists row e, In row rows /\ qdrant_rest.point offset row = Raise e) ->
  rmap (qdrant_rest.point offset) rows = Raise TypeError.
Proof.
  induction rows as [|r rows IH]; intros (row & e & Hin & Hrow); [destruct Hin|].
  cbn [rmap]. unfold rbind at 1.
  destruct (qdrant_rest.point offset r) as [p|e'] eqn:Er.
  - destruct Hin as [-> | Hin]; [congruence|].
    rewrite IH by (exists row, e; split; assumption). reflexivity.
  - apply point_TypeError in Er. subst. reflexivity.
Qed.

Lemma nth_error_rows {A B C} (a : list A) (b : list B) (c : list C) :
  forall i start x y z,
    nth_error a i = Some x -> nth_error b i = Some y -> nth_error c i = Some z ->
    In ((start + Z.of_nat i)%Z, (x, y, z)) (enumerate_from start (zip3 a b c)).
Proof.
  revert b c; induction a as [|x0 a IH]; intros b c i start x y z Ha Hb Hc.
  - destruct i; discriminate.
  - destruct b as [|y0 b]; [destruct i; discriminate|].
    destruct c as [|z0 c]; [destruct i; discriminate|].
    destruct i as [|i]; simpl in Ha, Hb, Hc.
    + inversion Ha; inversion Hb; inversion Hc; subst.
      left. rewrite Z.add_0_r. reflexivity.
    + right. cbn [zip3 enumerate_from].
      replace (start + Z.of_nat (S i))%Z with (start + 1 + Z.of_nat i)%Z by lia.
      apply IH; assumption.
Qed.

(** X12. [add_documents] builds every point before it uploads any: when
    one of the metadata values that would go into a point is not a
    dictionary, it raises [TypeError] after the embedding request and the
    read of the collection, and no point at all is upserted, not even the
    ones before the bad value. *)
Theorem add_documents_rejects_bad_metadata
    (self : qdrant_rest.QdrantRESTClient)
    (texts vectors metadatas : list pyval)
    (i : nat) (text v m : pyval) (env : servers) (t : trace) :
  fst (qdrant_rest._create_embeddings self texts env t) = Ok vectors ->
  nth_error texts i = Some text ->
  nth_error vectors i = Some v ->
  nth_error metadatas i = Some m ->
  not_a_dict m ->
  qdrant_rest.add_documents self texts metadatas env t
  = (Raise TypeError,
     t ++ [Request (qdrant_rest.embeddings_request self texts);
           Request (info_request self)]).
Proof.
  intros Hemb Ht Hv Hm Hbad.
  assert (texts <> []) as Hne by (intros ->; destruct i; discriminate).
  rewrite (add_documents_unfold self env texts _ vectors t Hne Hemb). cbv zeta.
  rewrite rmap_point_raises.
  - rewrite <- app_assoc. reflexivity.
  - destruct (point_not_a_dict
                (offset_read self env
                   (t ++ [Request (qdrant_rest.embeddings_request self texts)]))
                (0 + Z.of_nat i) text v m Hbad) as [e He].
    eexists; exists e. split; [|exact He].
    apply nth_error_rows; assumption.
Qed.

Lemma add_documents_rejects_bad_metadata_witness :
  qdrant_rest.add_documents default_client two_texts
    [PDict [(lit "source", PStr (lit "a.txt"))]; PList []]
    seven_points_servers []
  = (Raise TypeError,
     [] ++ [Request (qdrant_rest.embeddings_request default_client two_texts);
            Request (info_request default_client)]).
Proof.
  apply (add_documents_rejects_bad_metadata default_client two_texts two_vectors
           [PDict [(lit "source", PStr (lit "a.txt"))]; PList []]
           1 (PStr (lit "second")) (PList [PFloat 1%float; PFloat 0%float])
           (PList []) seven_points_servers []);
    first [reflexivity | exact I].
Defined.

Section rejected_upload.
Import qdrant_rest.
Variable self : QdrantRESTClient.
Variable env : servers.
Variable points : list pyval.

Lemma upload_rejected (done rest : list nat) (i : nat) :
  (forall t' j, In j done ->
                env t' (upsert_request self (slice j (j + batch_size) points))
                <> None) ->
  (forall t', env t' (upsert_request self (slice i (i + batch_size) points))
              = None) ->
  forall t,
    for_each (done ++ i :: rest)
             (fun i => bind (_put self (points_endpoint self)
                               (PDict [(lit "points",
                                        PList (slice i (i + batch_size) points))]))
                            (fun _ => ret tt))
             env t
    = (Raise RequestException,
       t ++ map (fun j => Request (upsert_request self
                                     (slice j (j + batch_size) points)))
                (done ++ [i])).
Proof.
  intros Hdone Hbad. induction done as [|j done IH]; intros t.
  - cbn [app for_each map]. unfold bind at 1. unfold bind at 1.
    unfold _put, send. fold (upsert_request self (slice i (i + batch_size) points)).
    rewrite Hbad. reflexivity.
  - cbn [app for_each map]. unfold bind at 1. unfold bind at 1.
    unfold _put, send. fold (upsert_request self (slice j (j + batch_size) points)).
    destruct (env t (upsert_request self _)) as [body|] eqn:E.
    + unfold ret at 1. rewrite IH.
      * rewrite <- app_assoc. reflexivity.
      * intros t' k Hk. apply Hdone. right. exact Hk.
    + exfalso. apply (Hdone t j (or_introl eq_refl) E).
Qed.
End rejected_upload.

(** X13. There is no rollback.  When the store accepts the first batches
    and raises on a later one, [add_documents] raises that exception: the
    accepted batches stay upserted, the rejected one was sent, the batches
    after it are never sent, and no request follows. *)
Theorem add_documents_partial_upload
    (self : qdrant_rest.QdrantRESTClient)
    (texts vectors : list pyval) (metas : list (dict pyval))
    (c : Z) (info : pyval)
    (accepted later : list (list pyval)) (rejected : list pyval)
    (env : servers) (t : trace) :
  texts <> [] ->
  fst (qdrant_rest._create_embeddings self texts env t) = Ok vectors ->
  env (t ++ [Request (qdrant_rest.embeddings_request self texts)]) (info_request self)
  = Some info ->
  points_count_of info = Ok (PInt c) ->
  batches_of (expected_points c texts vectors metas)
  = accepted ++ rejected :: later ->
  (forall t' batch, In batch accepted -> env t' (upsert_request self batch) <> None) ->
  (forall t', env t' (upsert_request self rejected) = None) ->
  qdrant_rest.add_documents self texts (map PDict metas) env t
  = (Raise RequestException,
     t ++ Request (qdrant_rest.embeddings_request self texts)
       :: Request (info_request self)
       :: map (fun b => Request (upsert_request self b)) (accepted ++ [rejected])).
Proof.
  intros Hne Hemb Hinfo Hcount Hbatches Hacc Hrej.
  rewrite (add_documents_unfold self env texts _ vectors t Hne Hemb). cbv zeta.
  assert (offset_read self env
            (t ++ [Request (qdrant_rest.embeddings_request self texts)])
          = PInt c) as Hoff.
  { unfold offset_read. rewrite Hinfo, Hcount. reflexivity. }
  rewrite Hoff, rmap_point_dicts.
  unfold batches_of in Hbatches.
  apply map_eq_app in Hbatches as (done & rest' & Hidx & Hdone & Hrest).
  apply map_eq_cons in Hrest as (i & rest & -> & Hi & _).
  unfold upload. rewrite Hidx.
  rewrite (upload_rejected self env _ done rest i).
  - rewrite <- Hdone, <- Hi, !map_app, !map_map, <- !app_assoc. reflexivity.
  - intros t' j Hj. apply Hacc. rewrite <- Hdone.
    apply (in_map (fun i0 => slice i0 (i0 + qdrant_rest.batch_size) _)). exact Hj.
  - intros t'. rewrite Hi. apply Hrej.
Qed.

Lemma add_documents_partial_upload_witness :
  let points := expected_points 7 many_texts many_vectors many_metadatas in
  qdrant_rest.add_documents default_client many_texts (map PDict many_metadatas)
                            full_store_servers []
  = (Raise RequestException,
     [] ++ Request (qdrant_rest.embeddings_request default_client many_texts)
        :: Request (info_request default_client)
        :: map (fun b => Request (upsert_request default_client b))
               ([slice 0 100 points] ++ [slice 100 200 points])).
Proof.
  intros points.
  apply (add_documents_partial_upload default_client many_texts many_vectors
           many_metadatas 7
           (PDict [(lit "result", PDict [(lit "points_count", PInt 7)])])
           [slice 0 100 points] [slice 200 300 points] (slice 100 200 points)
           full_store_servers []).
  - discriminate.
  - vm_compute. reflexivity.
  - reflexivity.
  - reflexivity.
  - vm_compute. reflexivity.
  - intros t' batch [<- | []]. vm_compute. discriminate.
  - intros t'. vm_compute. reflexivity.
Defined.

Lemma batches_of_layout (points : list pyval) :
  batches_of points
  = map (fun k => firstn 100 (skipn (100 * k) points))
        (seq 0 ((List.length points + 99) / 100)).
Proof.
  unfold batches_of, range_step, slice, qdrant_rest.batch_size.
  rewrite map_map.
  replace (List.length points + 100 - 1) with (List.length points + 99) by lia.
  apply map_ext. intros k.
  replace (k * 100 + 100 - k * 100) with 100 by lia.
  replace (k * 100) with (100 * k) by lia. reflexivity.
Qed.

(** X14. The upload of [n] points takes [ceil(n / 100)] requests: the
    request number [k], counting from 0, carries the points at the
    positions [100 k] up to [100 k + 99] (up to the last one in the final
    request), in the order of the points. *)
Theorem add_documents_batch_layout
    (self : qdrant_rest.QdrantRESTClient)
    (texts vectors : list pyval) (metas : list (dict pyval))
    (c : Z) (info : pyval) (env : servers) (t : trace) :
  texts <> [] ->
  fst (qdrant_rest._create_embeddings self texts env t) = Ok vectors ->
  env (t ++ [Request (qdrant_rest.embeddings_request self texts)]) (info_request self)
  = Some info ->
  points_count_of info = Ok (PInt c) ->
  (forall t' batch, env t' (upsert_request self batch) <> None) ->
  let points := expected_points c texts vectors metas in
  snd (qdrant_rest.add_documents self texts (map PDict metas) env t)
  = t ++ Request (qdrant_rest.embeddings_request self texts)
      :: Request (info_request self)
      :: map (fun k => Request (upsert_request self
                                  (firstn 100 (skipn (100 * k) points))))
             (seq 0 ((List.length points + 99) / 100)).
Proof.
  intros Hne Hemb Hinfo Hcount Hup points.
  rewrite (add_documents_unfold self env texts _ vectors t Hne Hemb). cbv zeta.
  assert (offset_read self env
            (t ++ [Request (qdrant_rest.embeddings_request self texts)])
          = PInt c) as Hoff.
  { unfold offset_read. rewrite Hinfo, Hcount. reflexivity. }
  rewrite Hoff, rmap_point_dicts, (upload_accepted self env _ _ Hup).
  fold points. rewrite batches_of_layout, map_map, <- !app_assoc. reflexivity.
Qed.

Lemma add_documents_batch_layout_witness :
  let points := expected_points 7 two_texts two_vectors two_metadatas in
  snd (qdrant_rest.add_documents default_client two_texts (map PDict two_metadatas)
         seven_points_servers [])
  = [] ++ Request (qdrant_rest.embeddings_request default_client two_texts)
       :: Request (info_request default_client)
       :: map (fun k => Request (upsert_request default_client
                                   (firstn 100 (skipn (100 * k) points))))
              (seq 0 ((List.length points + 99) / 100)).
Proof.
  apply (add_documents_batch_layout default_client two_texts two_vectors
           two_metadatas 7
           (PDict [(lit "result", PDict [(lit "points_count", PInt 7)])])
           seven_points_servers []);
    first [discriminate | reflexivity].
Defined.

(** ** [search] *)

Section search_runs.
Import qdrant_rest qdrant_search.
Variable self : QdrantRESTClient.
Variable env : servers.

Lemma search_unfold (query q : pyval) (others : list pyval) (limit : Z) (t : trace) :
  fst (_create_embeddings self [query] env t) = Ok (q :: others) ->
  search self query limit env t
  = let t1 := t ++ [Request (embeddings_request self [query])] in
    (match env t1 (query_request self q limit) with
     | None => Raise RequestException
     | Some body =>
         match hits_of_response body with
         | Ok results => Ok (Returned results)
         | Raise e => Raise e
         end
     end,
     t1 ++ [Request (query_request self q limit)]).
Proof.
  intros Hemb. unfold search. unfold bind at 1.
  pose proof (create_embeddings_trace self env [query] t) as Htr.
  destruct (_create_embeddings self [query] env t) as [r t1].
  simpl in Hemb, Htr. subst r t1. cbv zeta.
  unfold hits_of_response, rbind.
  unfold bind, lift, ret, _post, send. fold (query_request self q limit).
  destruct (env _ (query_request self q limit)) as [body|]; [|reflexivity].
  destruct (get body (lit "result") (PDict [])) as [found|]; [|reflexivity].
  destruct (get body (lit "result") (PList [])) as [fallback|]; [|reflexivity].
  destruct (get found (lit "points") fallback) as [points_data|]; [|reflexivity].
  destruct (iterate points_data) as [points|]; [|reflexivity].
  destruct (rmap hit points); reflexivity.
Qed.
End search_runs.

Lemma without_text_dict_set (meta : dict pyval) (text : pyval) :
  without_text (dict_set meta (lit "text") text) = without_text meta.
Proof.
  unfold without_text. induction meta as [|[k v] meta IH].
  - reflexivity.
  - cbn [dict_set]. destruct (str_eqb k (lit "text")) eqn:E.
    + cbn [filter fst]. rewrite E. reflexivity.
    + cbn [filter fst]. rewrite E. cbn [negb]. rewrite IH. reflexivity.
Qed.

Lemma without_text_absent (meta : dict pyval) :
  dict_get meta (lit "text") = None -> without_text meta = meta.
Proof.
  unfold without_text. induction meta as [|[k v] meta IH]; [reflexivity|].
  cbn [dict_get filter fst]. destruct (str_eqb k (lit "text")); [discriminate|].
  intros H. cbn [negb]. rewrite IH by exact H. reflexivity.
Qed.

Lemma hit_stored (point : pyval) (s : pyval * dict pyval * pyval) :
  stored_hit point s -> qdrant_search.hit point = Ok (returned_hit s).
Proof.
  destruct s as [[text meta] score]. intros (d & -> & Hpayload & Hscore).
  unfold qdrant_search.hit, get, rbind. rewrite Hpayload, Hscore.
  rewrite dict_get_set_same. unfold qdrant_search.metadata_of.
  fold (without_text (dict_set meta (lit "text") text)).
  rewrite without_text_dict_set. reflexivity.
Qed.

Lemma rmap_hit_stored (points : list pyval)
    (stored : list (pyval * dict pyval * pyval)) :
  Forall2 stored_hit points stored ->
  rmap qdrant_search.hit points = Ok (map returned_hit stored).
Proof.
  induction 1 as [|p s points stored Hp _ IH]; [reflexivity|].
  cbn [rmap map]. rewrite (hit_stored p s Hp), IH. reflexivity.
Qed.

(** X15. What [add_documents] stores, [search] gives back.  When the
    response lists points whose payload is a metadata dictionary extended
    with the text (the payload [add_documents] builds), [search] returns
    one result per point, in the order of the response: its text is the
    text, its score the score of the point, and its metadata the metadata
    without any entry "text"; so the metadata itself when it has no such
    entry. *)
Theorem search_returns_stored
    (self : qdrant_rest.QdrantRESTClient)
    (query q : pyval) (others : list pyval) (limit : Z)
    (body result : dict pyval) (points : list pyval)
    (stored : list (pyval * dict pyval * pyval))
    (env : servers) (t : trace) :
  fst (qdrant_rest._create_embeddings self [query] env t) = Ok (q :: others) ->
  env (t ++ [Request (qdrant_rest.embeddings_request self [query])])
      (query_request self q limit) = Some (PDict body) ->
  dict_get body (lit "result") = Some (PDict result) ->
  dict_get result (lit "points") = Some (PList points) ->
  Forall2 stored_hit points stored ->
  qdrant_search.search self query limit env t
  = (Ok (qdrant_search.Returned (map returned_hit stored)),
     t ++ [Request (qdrant_rest.embeddings_request self [query]);
           Request (query_request self q limit)])
  /\ forall text meta score,
      In (text, meta, score) stored ->
      dict_get meta (lit "text") = None ->
      returned_hit (text, meta, score)
      = PDict [(lit "text", text); (lit "metadata", PDict meta);
               (lit "score", score)].
Proof.
  intros Hemb Henv Hresult Hpoints Hstored. split.
  - rewrite (search_unfold self env query q others limit t Hemb). cbv zeta.
    rewrite Henv. unfold hits_of_response, get, rbind.
    rewrite Hresult, Hpoints. cbn [iterate].
    rewrite (rmap_hit_stored points stored Hstored).
    rewrite <- app_assoc. reflexivity.
  - intros text meta score _ Habsent. unfold returned_hit.
    rewrite (without_text_absent meta Habsent). reflexivity.
Qed.

Lemma search_returns_stored_witness :
  qdrant_search.search default_client (PStr (lit "bourses")) 3 search_servers []
  = (Ok (qdrant_search.Returned
           (map returned_hit
                [(PStr (lit "first"),
                  [(lit "source", PStr (lit "a.txt")); (lit "chunk_index", PInt 0)],
                  PFloat 0.75%float)])),
     [] ++ [Request (qdrant_rest.embeddings_request default_client
                       [PStr (lit "bourses")]);
            Request (query_request default_client (PList [PFloat 0.5%float]) 3)]).
Proof.
  apply (search_returns_stored default_client (PStr (lit "bourses"))
           (PList [PFloat 0.5%float]) [] 3
           [(lit "result", PDict [(lit "points", PList [one_hit])])]
           [(lit "points", PList [one_hit])] [one_hit]
           [(PStr (lit "first"),
             [(lit "source", PStr (lit "a.txt")); (lit "chunk_index", PInt 0)],
             PFloat 0.75%float)]
           search_servers []);
    try reflexivity.
  constructor; [|constructor].
  eexists. split; [reflexivity|]. split; reflexivity.
Defined.

Lemma hit_of_string (s : str) : qdrant_search.hit (PStr s) = Raise AttributeError.
Proof. reflexivity. Qed.

Lemma hits_without_points (body : pyval) :
  (forall b r, body = PDict b ->
               dict_get b (lit "result") = Some (PDict r) ->
               dict_get r (lit "points") = None) ->
  hits_of_response body = Ok [] \/ hits_of_response body = Raise AttributeError.
Proof.
  intros Hno. unfold hits_of_response, rbind.
  destruct body as [| | | | |l|b]; try (right; reflexivity).
  cbn [get]. destruct (dict_get b (lit "result")) as [found|] eqn:Eb.
  - destruct found as [| | | | |l|r]; try (right; reflexivity).
    cbn [get]. rewrite (Hno b r eq_refl Eb). cbn [iterate].
    destruct r as [|[k v] r]; [left; reflexivity|].
    right. reflexivity.
  - left. reflexivity.
Qed.

(** X16. How [search] fails.  When the embedding service returns no
    vector, it raises [IndexError] and the store is not queried.  When the
    response has no ["points"] under ["result"], the code falls back to
    ["result"] itself, but that never gives a result: the outcome is the
    empty list or [AttributeError]; in particular a response with the
    points directly under ["result"] (a list) raises [AttributeError]. *)
Theorem search_failure_modes
    (self : qdrant_rest.QdrantRESTClient)
    (query : pyval) (limit : Z) (env : servers) (t : trace) :
  (fst (qdrant_rest._create_embeddings self [query] env t) = Ok [] ->
   qdrant_search.search self query limit env t
   = (Ok qdrant_search.IndexError,
      t ++ [Request (qdrant_rest.embeddings_request self [query])]))
  /\ (forall q others body,
         fst (qdrant_rest._create_embeddings self [query] env t) = Ok (q :: others) ->
         env (t ++ [Request (qdrant_rest.embeddings_request self [query])])
             (query_request self q limit) = Some body ->
         (forall b r, body = PDict b ->
                      dict_get b (lit "result") = Some (PDict r) ->
                      dict_get r (lit "points") = None) ->
         fst (qdrant_search.search self query limit env t)
         = Ok (qdrant_search.Returned [])
         \/ fst (qdrant_search.search self query limit env t)
            = Raise AttributeError)
  /\ (forall q others b points,
         fst (qdrant_rest._create_embeddings self [query] env t) = Ok (q :: others) ->
         env (t ++ [Request (qdrant_rest.embeddings_request self [query])])
             (query_request self q limit) = Some (PDict b) ->
         dict_get b (lit "result") = Some (PList points) ->
         fst (qdrant_search.search self query limit env t) = Raise AttributeError).
Proof.
  split; [|split].
  - intros Hemb. unfold qdrant_search.search. unfold bind at 1.
    pose proof (create_embeddings_trace self env [query] t) as Htr.
    destruct (qdrant_rest._create_embeddings self [query] env t) as [r t1].
    simpl in Hemb, Htr. subst r t1. reflexivity.
  - intros q others body Hemb Henv Hno.
    rewrite (search_unfold self env query q others limit t Hemb). cbv zeta.
    rewrite Henv. cbn [fst].
    destruct (hits_without_points body Hno) as [-> | ->]; [left | right]; reflexivity.
  - intros q others b points Hemb Henv Hlist.
    rewrite (search_unfold self env query q others limit t Hemb). cbv zeta.
    rewrite Henv. cbn [fst]. unfold hits_of_response, get, rbind.
    rewrite Hlist. reflexivity.
Qed.

Lemma search_failure_modes_witness :
  fst (qdrant_search.search default_client (PStr (lit "bourses")) 3
         legacy_servers [])
  = Raise AttributeError.
Proof.
  apply (proj2 (proj2 (search_failure_modes default_client (PStr (lit "bourses")) 3
                         legacy_servers []))
           (PList [PFloat 0.5%float]) [] [(lit "result", PList [one_hit])] [one_hit]);
    reflexivity.
Defined.

(** ** The collection *)



Lemma get_collection_info_unfold (self : qdrant_rest.QdrantRESTClient)
    (env : servers) (t : trace) :
  qdrant_rest.get_collection_info self env t
  = (match env t (info_request self) with
     | Some body => collection_info_of self body
     | None => Raise RequestException
     end,
     t ++ [Request (info_request self)]).
Proof.
  unfold qdrant_rest.get_collection_info, collection_info_of, rbind.
  unfold bind, lift, ret, qdrant_rest._get, send. fold (info_request self).
  destruct (env t (info_request self)) as [body|]; [|reflexivity].
  repeat match goal with
         | |- context [match get ?a ?b ?c with _ => _ end] =>
             destruct (get a b c); [|reflexivity]
         end.
  reflexivity.
Qed.

Lemma get_outcome (v : pyval) (k : str) (default : pyval) (e : exn) :
  get v k default = Raise e -> e = AttributeError.
Proof. destruct v; simpl; intros H; inversion H; reflexivity. Qed.

(** X18. [get_collection_info] sends one request and never raises
    [KeyError]: what it returns always has the keys "name", with the
    configured collection name, "points_count" and "vector_size"; a key
    that is missing on the way gives the default 0, and a response without
    ["result"] gives 0 for both.  It raises only when the request fails or
    when a value on the way is not a dictionary ([AttributeError]). *)
Theorem get_collection_info_shape
    (self : qdrant_rest.QdrantRESTClient) (env : servers) (t : trace) :
  snd (qdrant_rest.get_collection_info self env t)
  = t ++ [Request (info_request self)]
  /\ match fst (qdrant_rest.get_collection_info self env t) with
     | Ok info =>
         exists points_count size,
           info = PDict [(lit "name", PStr (qdrant_rest.collection_name self));
                         (lit "points_count", points_count);
                         (lit "vector_size", size)]
           /\ subscript info (lit "points_count") = Ok points_count
     | Raise e => e = RequestException \/ e = AttributeError
     end
  /\ (forall body,
         env t (info_request self) = Some (PDict body) ->
         dict_get body (lit "result") = None ->
         fst (qdrant_rest.get_collection_info self env t)
         = Ok (PDict [(lit "name", PStr (qdrant_rest.collection_name self));
                      (lit "points_count", PInt 0);
                      (lit "vector_size", PInt 0)])).
Proof.
  rewrite get_collection_info_unfold. cbn [fst snd].
  split; [reflexivity|split].
  - destruct (env t (info_request self)) as [body|]; [|left; reflexivity].
    unfold collection_info_of, rbind.
    repeat match goal with
           | |- context [match get ?a ?b ?c with _ => _ end] =>
               let E := fresh "E" in
               destruct (get a b c) eqn:E;
               [|right; apply (get_outcome _ _ _ _ E)]
           end.
    eexists; eexists. split; reflexivity.
  - intros body Henv Hno. rewrite Henv.
    unfold collection_info_of, get, rbind. rewrite Hno. reflexivity.
Qed.

(** ** From the documents to the lists for the store *)

Lemma rmap_Forall2 {A B} (f : A -> result B) (l : list A) (r : list B) :
  rmap f l = Ok r -> Forall2 (fun x y => f x = Ok y) l r.
Proof.
  revert r; induction l as [|x l IH]; intros r H; simpl in H.
  - inversion H. constructor.
  - unfold rbind in H. destruct (f x) as [y|] eqn:Ex; [|discriminate].
    destruct (rmap f l) as [ys|]; [|discriminate].
    inversion H; subst. constructor; [exact Ex | apply IH; reflexivity].
Qed.

Lemma rmap_app {A B} (f : A -> result B) (a b : list A) (ra rb : list B) :
  rmap f a = Ok ra -> rmap f b = Ok rb -> rmap f (a ++ b) = Ok (ra ++ rb).
Proof.
  revert ra; induction a as [|x a IH]; intros ra Ha Hb; simpl in Ha.
  - inversion Ha. exact Hb.
  - unfold rbind in Ha. destruct (f x) as [y|] eqn:Ex; [|discriminate].
    destruct (rmap f a) as [ys|]; [|discriminate].
    inversion Ha; subst. cbn [app rmap]. rewrite Ex. unfold rbind.
    rewrite (IH ys eq_refl Hb). reflexivity.
Qed.

Lemma rmap_total {A B} (f : A -> result B) (g : A -> B) (l : list A) :
  (forall x, f x = Ok (g x)) -> rmap f l = Ok (map g l).
Proof.
  intros H. induction l as [|x l IH]; [reflexivity|].
  cbn [rmap map]. rewrite H, IH. reflexivity.
Qed.

Section documents.
Context {T : Type} `{chunker.TokenChunker T}.
Variable self : chunker.TextChunker (T := T).

Lemma chunk_documents_rows (documents : dict str) (records : list pyval) :
  chunker.chunk_documents self documents = Ok records ->
  exists per_document,
    Forall2 (fun doc chunks => chunker.chunk_text self (snd doc) = Ok chunks)
            documents per_document
    /\ records = map row_record (rows_of documents per_document).
Proof.
  unfold chunker.chunk_documents. revert records.
  induction documents as [|doc documents IH]; intros records Hrec.
  - simpl in Hrec. inversion Hrec. exists []. split; [constructor | reflexivity].
  - cbn [rmap] in Hrec. unfold rbind at 1 2 in Hrec.
    destruct (chunker.chunk_text self (snd doc)) as [chunks|] eqn:Ec;
      [|discriminate].
    unfold rbind at 1 in Hrec. unfold rbind at 1 in IH.
    destruct (rmap _ documents) as [per_doc|]; [|discriminate].
    destruct (IH _ eq_refl) as (per_document & Hall & Hrows).
    exists (chunks :: per_document). split; [constructor; assumption|].
    unfold rbind in Hrec. inversion Hrec; subst records.
    cbn [List.concat]. rewrite Hrows.
    unfold rows_of. cbn [combine flat_map fst snd].
    rewrite map_app, map_map. reflexivity.
Qed.

Lemma format_rows (rows : list (str * Z * simple_chunker.Chunk)) :
  chunker.format_for_qdrant (map row_record rows)
  = Ok (map row_text rows, map (fun row => PDict (row_metadata row)) rows).
Proof.
  unfold chunker.format_for_qdrant.
  assert (rmap (fun chunk => subscript chunk (lit "text")) (map row_record rows)
          = Ok (map row_text rows)) as ->.
  { induction rows as [|[[s i] c] rows IH]; [reflexivity|].
    cbn [map rmap].
    change (subscript (row_record (s, i, c)) (lit "text"))
      with (Ok (row_text (s, i, c))).
    unfold rbind at 1. rewrite IH. reflexivity. }
  assert (rmap (fun chunk => subscript chunk (lit "metadata")) (map row_record rows)
          = Ok (map (fun row => PDict (row_metadata row)) rows)) as ->.
  { induction rows as [|[[s i] c] rows IH]; [reflexivity|].
    cbn [map rmap].
    change (subscript (row_record (s, i, c)) (lit "metadata"))
      with (Ok (PDict (row_metadata (s, i, c)))).
    unfold rbind at 1. rewrite IH. reflexivity. }
  reflexivity.
Qed.
End documents.

(** X19. What [chunk_documents] returns, [format_for_qdrant] accepts.
    The records are, document after document in the order of the mapping,
    one per chunk of the document, with the name of the document as source
    and the index of the chunk, counted from 0 in each document;
    [format_for_qdrant] then raises neither [KeyError] nor [TypeError] and
    splits them into the texts and the metadata dictionaries, two lists of
    one length in that same order. *)
Theorem format_of_chunk_documents
    {T : Type} `{chunker.TokenChunker T}
    (self : chunker.TextChunker (T := T))
    (documents : dict str) (records : list pyval) :
  chunker.chunk_documents self documents = Ok records ->
  exists per_document,
    Forall2 (fun doc chunks => chunker.chunk_text self (snd doc) = Ok chunks)
            documents per_document
    /\ records = map row_record (rows_of documents per_document)
    /\ chunker.format_for_qdrant records
       = Ok (map row_text (rows_of documents per_document),
             map (fun row => PDict (row_metadata row))
                 (rows_of documents per_document))
    /\ List.length (map row_text (rows_of documents per_document))
       = List.length records.
Proof.
  intros Hrec.
  destruct (chunk_documents_rows self documents records Hrec)
    as (per_document & Hall & ->).
  exists per_document. split; [exact Hall|split; [reflexivity|split]].
  - apply format_rows.
  - rewrite !length_map. reflexivity.
Qed.

Lemma format_of_chunk_documents_witness :
  let self := chunker.mkTextChunker (simple_chunker.mkChunker 3 1) in
  let records :=
    [row_record (lit "a.txt", 0%Z, simple_chunker.mkChunk (lit "One two") 2);
     row_record (lit "a.txt", 1%Z, simple_chunker.mkChunk (lit "two Three four.") 3)] in
  exists per_document,
    Forall2 (fun doc chunks => chunker.chunk_text self (snd doc) = Ok chunks)
            two_documents per_document
    /\ records = map row_record (rows_of two_documents per_document)
    /\ chunker.format_for_qdrant records
       = Ok (map row_text (rows_of two_documents per_document),
             map (fun row => PDict (row_metadata row))
                 (rows_of two_documents per_document))
    /\ List.length (map row_text (rows_of two_documents per_document))
       = List.length records.
Proof.
  apply (format_of_chunk_documents
           (chunker.mkTextChunker (simple_chunker.mkChunker 3 1)) two_documents).
  reflexivity.
Defined.

(** ** The whole pipeline *)

Lemma collection_info_points_count (self : qdrant_rest.QdrantRESTClient)
    (info final : pyval) (count : pyval) :
  points_count_of info = Ok count ->
  collection_info_of self info = Ok final ->
  subscript final (lit "points_count") = Ok count.
Proof.
  unfold points_count_of, collection_info_of, rbind.
  destruct info as [| | | | | |b]; try discriminate.
  cbn [subscript get].
  destruct (dict_get b (lit "result")) as [r|]; [|discriminate].
  destruct r as [| | | | | |r]; try discriminate.
  cbn [subscript get].
  destruct (dict_get r (lit "points_count")) as [c|]; [|discriminate].
  intros Hc; inversion Hc; subst c.
  destruct (get (match dict_get r (lit "config") with
                 | Some x => x
                 | None => PDict []
                 end) (lit "params") (PDict [])) as [params|]; [|discriminate].
  destruct (get params (lit "vectors") (PDict [])) as [vectors|]; [|discriminate].
  destruct (get vectors (lit "size") (PInt 0)) as [size|]; [|discriminate].
  intros Hf; inversion Hf. reflexivity.
Qed.

Section pipeline_run.
Context {T : Type} `{chunker.TokenChunker T}.
Variable self : ingest.IngestionPipeline (T := T).
Variable env : servers.

(** The servers accept every upsert and answer a read of the collection
    after the trace [t] with [info_at t], which reports [count_at t]
    points. *)
Variable info_at : trace -> pyval.
Variable count_at : trace -> Z.
Hypothesis reads :
  forall t, env t (info_request (ingest.vector_store self)) = Some (info_at t).
Hypothesis counts : forall t, points_count_of (info_at t) = Ok (PInt (count_at t)).
Hypothesis upserts :
  forall t batch, env t (upsert_request (ingest.vector_store self) batch) <> None.

Lemma add_documents_rows (rows : list (str * Z * simple_chunker.Chunk))
    (vectors : list pyval) (t : trace) :
  (rows <> [] ->
   fst (qdrant_rest._create_embeddings (ingest.vector_store self)
          (map row_text rows) env t) = Ok vectors
   /\ List.length vectors = List.length rows) ->
  qdrant_rest.add_documents (ingest.vector_store self)
    (map row_text rows) (map (fun row => PDict (row_metadata row)) rows) env t
  = (Ok (len rows),
     t ++ upload_events (ingest.vector_store self) count_at t
            (map row_text rows) vectors (map row_metadata rows)).
Proof.
  intros Hemb.
  destruct rows as [|row rows]; [cbn [map upload_events]; rewrite app_nil_r; reflexivity|].
  destruct Hemb as [Hemb Hlen]; [discriminate|].
  rewrite <- (map_map row_metadata PDict).
  rewrite (add_documents_unfold (ingest.vector_store self) env _ _ vectors t);
    [|discriminate|exact Hemb].
  cbv zeta.
  assert (offset_read (ingest.vector_store self) env
            (t ++ [Request (qdrant_rest.embeddings_request
                              (ingest.vector_store self)
                              (map row_text (row :: rows)))])
          = PInt (count_at
                    (t ++ [Request (qdrant_rest.embeddings_request
                                      (ingest.vector_store self)
                                      (map row_text (row :: rows)))]))) as Hoff.
  { unfold offset_read. rewrite reads, counts. reflexivity. }
  rewrite Hoff, rmap_point_dicts,
    (upload_accepted (ingest.vector_store self) env _ _ upserts).
  f_equal.
  - f_equal. unfold len. rewrite length_expected_points, !length_map, Hlen.
    rewrite !Nat.min_id. reflexivity.
  - cbn [map upload_events]. rewrite <- !app_assoc. reflexivity.
Qed.
End pipeline_run.

(** X20. When the directory has documents, the embedding service returns
    one vector per chunk, and the store answers the reads of the collection
    and accepts the upserts, [ingest_directory] returns the summary with
    status "success" in which [files_processed] is the number of distinct
    file names and [chunks_added] equals [chunks_created], the number of
    chunks of all documents.  The store is read twice, whatever it answers
    each time: the points are numbered from the count read before the
    upserts, and [total_documents] is the count read after them, in the
    last request of the run. *)
Theorem ingest_directory_success
    {T : Type} `{chunker.TokenChunker T}
    (self : ingest.IngestionPipeline (T := T))
    (data_path : pdf_extractor.Path)
    (documents : dict str) (records vectors : list pyval)
    (info_at : trace -> pyval) (count_at : trace -> Z)
    (env : servers) (t : trace) :
  pdf_extractor.exists_ data_path = true ->
  fst (pdf_extractor.extract_from_directory data_path) = Ok documents ->
  documents <> [] ->
  chunker.chunk_documents (ingest.chunker self) documents = Ok records ->
  (forall texts metadatas t',
      chunker.format_for_qdrant records = Ok (texts, metadatas) ->
      texts <> [] ->
      fst (qdrant_rest._create_embeddings (ingest.vector_store self) texts env t')
      = Ok vectors) ->
  List.length vectors = List.length records ->
  (forall t', env t' (info_request (ingest.vector_store self)) = Some (info_at t')) ->
  (forall t', points_count_of (info_at t') = Ok (PInt (count_at t'))) ->
  (forall t', exists final,
      collection_info_of (ingest.vector_store self) (info_at t') = Ok final) ->
  (forall t' batch,
      env t' (upsert_request (ingest.vector_store self) batch) <> None) ->
  exists rows,
    records = map row_record rows
    /\ let started :=
         t ++ [Call extract_from_directory_; Call chunk_documents_;
               Call format_for_qdrant_; Call add_documents_] in
       let last_read :=
         started
           ++ upload_events (ingest.vector_store self) count_at started
                (map row_text rows) vectors (map row_metadata rows)
           ++ [Call get_collection_info_] in
       ingest.ingest_directory self data_path false env t
       = (Ok (success_summary (len documents) (len records) (len records)
                              (PInt (count_at last_read))),
          last_read ++ [Request (info_request (ingest.vector_store self))]).
Proof.
  intros Hex Hdocs Hne Hrec Hemb Hlen Hreads Hcount Hfinal Hups.
  destruct (chunk_documents_rows (ingest.chunker self) documents records Hrec)
    as (per_document & _ & Hrows).
  exists (rows_of documents per_document). split; [exact Hrows|]. cbv zeta.
  unfold ingest.ingest_directory. rewrite Hex. cbn [negb].
  unfold bind at 1. unfold ret at 1.
  unfold bind at 1. unfold emit at 1.
  unfold bind at 1. unfold lift at 1. rewrite Hdocs.
  destruct documents as [|d ds]; [contradiction|]. cbn [truthy negb].
  set (documents := d :: ds) in *.
  unfold bind at 1. unfold emit at 1.
  unfold bind at 1. unfold lift at 1. rewrite Hrec.
  unfold bind at 1. unfold emit at 1.
  unfold bind at 1. unfold lift at 1.
  assert (chunker.format_for_qdrant records
          = Ok (map row_text (rows_of documents per_document),
                map (fun row => PDict (row_metadata row))
                    (rows_of documents per_document))) as Hformat
    by (rewrite Hrows; apply format_rows).
  rewrite Hformat. cbn [fst snd].
  unfold bind at 1. unfold emit at 1.
  unfold bind at 1.
  rewrite <- !app_assoc. cbn [app].
  rewrite (add_documents_rows self env info_at count_at Hreads Hcount Hups
             (rows_of documents per_document) vectors).
  - unfold bind at 1. unfold emit at 1.
    unfold bind at 1. rewrite get_collection_info_unfold, Hreads.
    rewrite <- !app_assoc.
    match goal with
    | |- context [collection_info_of _ (info_at ?tr)] =>
        destruct (Hfinal tr) as [final Hf]; rewrite Hf;
        unfold bind at 1; unfold lift at 1;
        rewrite (collection_info_points_count _ (info_at tr) final
                   (PInt (count_at tr)) (Hcount tr) Hf)
    end.
    unfold ret, success_summary.
    rewrite Hrows. unfold len. rewrite !length_map. reflexivity.
  - intros Hnonempty. split.
    + apply (Hemb _ (map (fun row => PDict (row_metadata row))
                         (rows_of documents per_document))).
      * exact Hformat.
      * destruct (rows_of documents per_document); [contradiction | discriminate].
    + rewrite Hlen, Hrows, length_map. reflexivity.
Qed.

Lemma ingest_directory_success_witness :
  fst (ingest.ingest_directory default_pipeline one_file_directory false
         growing_store_servers [])
  = Ok (success_summary 1 1 1 (PInt 8)).
Proof.
  destruct (ingest_directory_success default_pipeline one_file_directory
              [(lit "a.txt", lit "Hello world")]
              [row_record (lit "a.txt", 0%Z,
                           simple_chunker.mkChunk (lit "Hello world") 2)]
              [PList [PFloat 0.5%float]]
              growing_info (fun t => (7 + upserted t)%Z)
              growing_store_servers [])
    as (rows & Hrows & Hrun);
    [first [reflexivity | discriminate | intros t'; eexists; reflexivity] .. |].
  destruct rows as [|[[source i] [text count]] [|row rows]]; try discriminate Hrows.
  cbn [map row_record simple_chunker.text] in Hrows.
  inversion Hrows; subst source i text.
  cbv zeta in Hrun. rewrite Hrun. reflexivity.
Defined.

(** The run of the witness: the store held seven points, the read before
    the upsert numbers the point 7, the read after it reports eight. *)
Example ingest_directory_growing_store :
  fst (ingest.ingest_directory default_pipeline one_file_directory false
         growing_store_servers [])
  = Ok (success_summary 1 1 1 (PInt 8))
  /\ map json (requests_of
                 (snd (ingest.ingest_directory default_pipeline one_file_directory
                         false growing_store_servers [])))
     = [Some (PDict [(lit "model", PStr (lit "text-embedding-3-small"));
                     (lit "input", PList [PStr (lit "Hello world")])]);
        None;
        Some (PDict [(lit "points",
                      PList (expected_points 7 [PStr (lit "Hello world")]
                               [PList [PFloat 0.5%float]]
                               [[(lit "source", PStr (lit "a.txt"));
                                 (lit "chunk_index", PInt 0)]]))]);
        None].
Proof. split; reflexivity. Qed.

(** X21. [main] cannot report an empty directory.  When the directory it
    is given (or "docs/Data") exists and holds no document,
    [ingest_directory] returns its warning summary, which has no key
    "chunks_created": [main] raises [KeyError] while printing the
    result. *)
Theorem main_raises_KeyError_without_documents
    {T : Type} `{chunker.TokenChunker T}
    (TokenChunker : Z -> Z -> T)
    (resolve : str -> pdf_extractor.Path)
    (config : qdrant_rest.QdrantRESTClient)
    (argv : list str) (env : servers) (t : trace) :
  pdf_extractor.exists_ (resolve (data_dir_of argv)) = true ->
  fst (pdf_extractor.extract_from_directory (resolve (data_dir_of argv))) = Ok [] ->
  fst (ingest_main.main TokenChunker resolve config argv env t) = Raise KeyError.
Proof.
  intros Hex Hnone. unfold ingest_main.main. fold (data_dir_of argv).
  unfold ingest_main.IngestionPipeline_init, qdrant_rest.init.
  unfold bind at 1. unfold bind at 1. unfold bind at 1.
  destruct (ensure_collection_trace config env t) as [created ->].
  unfold ret at 1. unfold ret at 1.
  unfold bind at 1. unfold ingest.ingest_directory. rewrite Hex. cbn [negb].
  unfold bind at 1. unfold ret at 1.
  unfold bind at 1. unfold emit at 1.
  unfold bind at 1. unfold lift at 1. rewrite Hnone. cbn [truthy negb].
  reflexivity.
Qed.

Lemma main_raises_KeyError_without_documents_witness :
  fst (ingest_main.main simple_chunker.mkChunker (fun _ => empty_directory)
         default_client [lit "ingest.py"] empty_servers [])
  = Raise KeyError.
Proof.
  apply (main_raises_KeyError_without_documents simple_chunker.mkChunker
           (fun _ => empty_directory) default_client [lit "ingest.py"]
           empty_servers []);
    reflexivity.
Defined.



Lemma rmap_embedding_items (items vectors : list pyval) :
  Forall2 embedding_item items vectors ->
  rmap (fun item => subscript item (lit "embedding")) items = Ok vectors.
Proof.
  induction 1 as [|item v items vectors (d & -> & Hd) _ IH]; [reflexivity|].
  cbn [rmap subscript]. rewrite Hd. unfold rbind at 1. rewrite IH. reflexivity.
Qed.

(** X23. [_create_embeddings] sends one request, for the configured
    model and with the texts in their order, and returns the vectors of
    the response in the order of its ["data"], one per item whatever the
    number of texts; it raises when the request fails, and [KeyError] when
    the response has no ["data"]. *)
Theorem create_embeddings_of_response
    (self : qdrant_rest.QdrantRESTClient) (texts : list pyval)
    (env : servers) (t : trace) :
  json (qdrant_rest.embeddings_request self texts)
  = Some (PDict [(lit "model", PStr (qdrant_rest.embedding_model self));
                 (lit "input", PList texts)])
  /\ snd (qdrant_rest._create_embeddings self texts env t)
     = t ++ [Request (qdrant_rest.embeddings_request self texts)]
  /\ (forall body items vectors,
         env t (qdrant_rest.embeddings_request self texts) = Some (PDict body) ->
         dict_get body (lit "data") = Some (PList items) ->
         Forall2 embedding_item items vectors ->
         fst (qdrant_rest._create_embeddings self texts env t) = Ok vectors)
  /\ (env t (qdrant_rest.embeddings_request self texts) = None ->
      fst (qdrant_rest._create_embeddings self texts env t) = Raise RequestException)
  /\ (forall body,
         env t (qdrant_rest.embeddings_request self texts) = Some (PDict body) ->
         dict_get body (lit "data") = None ->
         fst (qdrant_rest._create_embeddings self texts env t) = Raise KeyError).
Proof.
  split; [reflexivity|split; [apply create_embeddings_trace|]].
  unfold qdrant_rest._create_embeddings, bind, send, lift.
  split; [|split].
  - intros body items vectors -> Hdata Hitems.
    cbn [subscript]. rewrite Hdata. cbn [iterate fst].
    apply rmap_embedding_items. exact Hitems.
  - intros ->. reflexivity.
  - intros body -> Hdata. cbn [subscript]. rewrite Hdata. reflexivity.
Qed.

Lemma create_embeddings_of_response_witness :
  fst (qdrant_rest._create_embeddings default_client two_texts
         seven_points_servers [])
  = Ok two_vectors.
Proof.
  apply (proj1 (proj2 (proj2 (create_embeddings_of_response default_client
                                two_texts seven_points_servers [])))
           [(lit "data",
             PList (map (fun v => PDict [(lit "embedding", v)]) two_vectors))]
           (map (fun v => PDict [(lit "embedding", v)]) two_vectors)
           two_vectors).
  - reflexivity.
  - reflexivity.
  - repeat constructor; eexists; split; reflexivity.
Defined.

(** * Chunks without overlap *)

Lemma truthy_split (current : str) :
  (current <> [] -> split current <> []) ->
  truthy (split current) = truthy current.
Proof.
  intros Htok. destruct current as [|a s]; [reflexivity|].
  assert (split (a :: s) <> []) as Hne by (apply Htok; discriminate).
  destruct (split (a :: s)); [contradiction | reflexivity].
Qed.

Lemma split_seed (current piece : str) :
  split (join (lit " ") (split current) ++ lit " " ++ piece)
  = split current ++ split piece.
Proof.
  change (lit " " ++ piece) with (space :: piece).
  rewrite split_app_space by reflexivity.
  rewrite split_join by apply split_words. reflexivity.
Qed.

Lemma tokens_of_Chunk_init (current : str) (tokens : Z) :
  tokens_of (simple_chunker.Chunk_init current tokens) = split current.
Proof. reflexivity. Qed.

Section zero_overlap.
Import simple_chunker.
Variable self : SimpleTokenChunker.
Hypothesis zero : chunk_overlap self = 0%Z.

(** A piece that takes the buffer above [chunk_size] seals it, and the
    next buffer holds all the words of the sealed chunk before the piece. *)
Lemma sentence_step_seals (st : state) (sentence : str) :
  truthy (strip sentence) = true ->
  truthy (current_chunk st) = true ->
  (current_tokens st + len (split sentence) > chunk_size self)%Z ->
  chunks (sentence_step self st sentence)
  = chunks st ++ [Chunk_init (current_chunk st) (current_tokens st)]
  /\ split (current_chunk (sentence_step self st sentence))
     = split (current_chunk st) ++ split sentence
  /\ (split (current_chunk st) <> [] ->
      current_chunk (sentence_step self st sentence)
      = join (lit " ") (split (current_chunk st)) ++ lit " " ++ sentence)
  /\ current_tokens (sentence_step self st sentence)
     = (len (split (current_chunk st)) + len (split sentence))%Z.
Proof.
  intros Hsentence Hcur Hover. unfold sentence_step.
  rewrite Hsentence, Hcur, zero, last_n_zero. cbn [negb].
  replace (current_tokens st + len (split sentence) >? chunk_size self)%Z
    with true by (symmetry; apply Z.gtb_lt; lia).
  cbn [andb chunks current_chunk current_tokens].
  destruct (join (lit " ") (split (current_chunk st))) as [|c joined] eqn:E.
  - apply join_words_nil in E; [|apply split_words].
    rewrite E. cbn [truthy app]. split; [reflexivity|split; [reflexivity|]].
    split; [intros Hne; contradiction Hne; reflexivity | reflexivity].
  - rewrite <- E. replace (truthy (join (lit " ") (split (current_chunk st))))
      with true by (rewrite E; reflexivity).
    rewrite split_seed, len_app.
    split; [reflexivity|split; [reflexivity|split; reflexivity]].
Qed.

Lemma paragraph_step_seals (st : state) (paragraph : str) :
  (len (split paragraph) <= chunk_size self)%Z ->
  truthy (current_chunk st) = true ->
  (current_tokens st + len (split paragraph) > chunk_size self)%Z ->
  chunks (paragraph_step self st paragraph)
  = chunks st ++ [Chunk_init (current_chunk st) (current_tokens st)]
  /\ split (current_chunk (paragraph_step self st paragraph))
     = split (current_chunk st) ++ split paragraph
  /\ current_chunk (paragraph_step self st paragraph)
     = join (lit " ") (split (current_chunk st)) ++ lit " " ++ paragraph
  /\ current_tokens (paragraph_step self st paragraph)
     = (len (split (current_chunk st)) + len (split paragraph))%Z.
Proof.
  intros Hfits Hcur Hover. unfold paragraph_step.
  replace (len (split paragraph) >? chunk_size self)%Z
    with false by (symmetry; rewrite Z.gtb_ltb; apply Z.ltb_ge; lia).
  rewrite Hcur, zero, last_n_zero.
  replace (current_tokens st + len (split paragraph) >? chunk_size self)%Z
    with true by (symmetry; apply Z.gtb_lt; lia).
  cbn [andb chunks current_chunk current_tokens].
  rewrite split_seed, len_app.
  split; [reflexivity|split; [reflexivity|split; reflexivity]].
Qed.

(** A step of the loop is a step of [repeating]: the token lists of the
    chunks, were the buffer to take the pieces [rest] and be sealed, are
    the same before the step with the piece ahead and after it. *)
Lemma sentence_step_repeats (st : state) (sentence : str) (rest : list (list str)) :
  token_invariant st ->
  truthy (strip sentence) = true ->
  map tokens_of (chunks (sentence_step self st sentence))
  ++ repeating (chunk_size self)
               (split (current_chunk (sentence_step self st sentence))) rest
  = map tokens_of (chunks st)
    ++ repeating (chunk_size self) (split (current_chunk st))
                 (split sentence :: rest).
Proof.
  intros (Hcount & Htok & _) Hsentence. cbn [repeating].
  rewrite (truthy_split (current_chunk st) Htok), <- Hcount.
  destruct ((current_tokens st + len (split sentence) >? chunk_size self)%Z
            && truthy (current_chunk st)) eqn:Hseal.
  - apply andb_true_iff in Hseal as [Hover Hcur]. apply Z.gtb_lt in Hover.
    destruct (sentence_step_seals st sentence Hsentence Hcur)
      as (Hchunks & Hsplit & _); [lia|].
    rewrite Hchunks, Hsplit, map_app. cbn [map].
    rewrite tokens_of_Chunk_init, <- app_assoc. reflexivity.
  - unfold sentence_step. rewrite Hsentence, Hseal.
    cbn [negb chunks current_chunk app]. f_equal. f_equal.
    destruct (current_chunk st) as [|a s]; cbn [truthy]; [reflexivity|].
    change (lit " " ++ sentence) with (space :: sentence).
    apply (split_app_space (a :: s) sentence space). reflexivity.
Qed.

Lemma sentences_repeat (sentences : list str) (rest : list (list str)) :
  forall st,
    token_invariant st ->
    map tokens_of (chunks (fold_left (sentence_step self) sentences st))
    ++ repeating (chunk_size self)
                 (split (current_chunk (fold_left (sentence_step self) sentences st)))
                 rest
    = map tokens_of (chunks st)
      ++ repeating (chunk_size self) (split (current_chunk st))
                   (map split (filter (fun sentence => truthy (strip sentence))
                                      sentences)
                    ++ rest).
Proof.
  induction sentences as [|s sentences IH]; intros st Hst; [reflexivity|].
  cbn [fold_left filter].
  rewrite IH by (apply sentence_step_tokens; exact Hst).
  destruct (truthy (strip s)) eqn:Hs.
  - cbn [map app]. apply sentence_step_repeats; assumption.
  - unfold sentence_step. rewrite Hs. reflexivity.
Qed.

Lemma paragraph_step_repeats (st : state) (paragraph : str) (rest : list (list str)) :
  token_invariant st ->
  map tokens_of (chunks (paragraph_step self st paragraph))
  ++ repeating (chunk_size self)
               (split (current_chunk (paragraph_step self st paragraph))) rest
  = map tokens_of (chunks st)
    ++ repeating (chunk_size self) (split (current_chunk st))
                 (map split (pieces_of self paragraph) ++ rest).
Proof.
  intros Hst. unfold pieces_of.
  destruct (len (split paragraph) >? chunk_size self)%Z eqn:Hlong.
  - unfold paragraph_step. rewrite Hlong. apply sentences_repeat. exact Hst.
  - destruct Hst as (Hcount & Htok & _). cbn [map app repeating].
    rewrite (truthy_split (current_chunk st) Htok), <- Hcount.
    destruct ((current_tokens st + len (split paragraph) >? chunk_size self)%Z
              && truthy (current_chunk st)) eqn:Hseal.
    + apply andb_true_iff in Hseal as [Hover Hcur]. apply Z.gtb_lt in Hover.
      rewrite Z.gtb_ltb in Hlong. apply Z.ltb_ge in Hlong.
      destruct (paragraph_step_seals st paragraph)
        as (Hchunks & Hsplit & _); [lia | exact Hcur | lia |].
      rewrite Hchunks, Hsplit, map_app. cbn [map].
      rewrite tokens_of_Chunk_init, <- app_assoc. reflexivity.
    + unfold paragraph_step. rewrite Hlong, Hseal.
      cbn [chunks current_chunk app]. f_equal. f_equal.
      destruct (current_chunk st) as [|a s]; cbn [truthy]; [reflexivity|].
      rewrite (split_app_space (a :: s) (newline :: paragraph) newline)
        by reflexivity.
      rewrite (split_cons_space paragraph newline) by reflexivity.
      reflexivity.
Qed.

Lemma paragraphs_repeat (paragraphs : list str) (rest : list (list str)) :
  (forall p, In p paragraphs -> split p <> []) ->
  forall st,
    token_invariant st ->
    map tokens_of (chunks (fold_left (paragraph_step self) paragraphs st))
    ++ repeating (chunk_size self)
                 (split (current_chunk (fold_left (paragraph_step self) paragraphs st)))
                 rest
    = map tokens_of (chunks st)
      ++ repeating (chunk_size self) (split (current_chunk st))
                   (map split (flat_map (pieces_of self) paragraphs) ++ rest).
Proof.
  induction paragraphs as [|p paragraphs IH]; intros Hps st Hst; [reflexivity|].
  cbn [fold_left flat_map].
  rewrite IH.
  - rewrite map_app, <- app_assoc. apply paragraph_step_repeats. exact Hst.
  - intros q Hq. apply Hps. right. exact Hq.
  - apply paragraph_step_tokens; [apply Hps; left; reflexivity | exact Hst].
Qed.

Lemma chunk_repeating (input : str) :
  map tokens_of (chunk self input)
  = repeating (chunk_size self) [] (map split (pieces self input)).
Proof.
  assert (forall st,
             token_invariant st ->
             map tokens_of (seal st)
             = map tokens_of (chunks st)
               ++ repeating (chunk_size self) (split (current_chunk st)) [])
    as Hseal.
  { intros st (_ & Htok & _). unfold seal. cbn [repeating].
    rewrite (truthy_split (current_chunk st) Htok).
    destruct (truthy (current_chunk st)).
    - rewrite map_app. reflexivity.
    - rewrite app_nil_r. reflexivity. }
  pose proof (paragraphs_repeat (paragraphs_of input) []
                (paragraphs_of_tokens input)
                (mkState [] [] 0) token_invariant_initial) as Hrun.
  rewrite app_nil_r in Hrun. unfold pieces.
  change (split (current_chunk (mkState [] [] 0))) with (@nil str) in Hrun.
  change (map tokens_of (chunks (mkState [] [] 0))) with (@nil (list str)) in Hrun.
  cbn [app] in Hrun. rewrite <- Hrun, <- Hseal.
  - unfold chunk. destruct (negb (truthy input) || negb (truthy (strip input))) eqn:E;
      [|reflexivity].
    assert (paragraphs_of input = []) as ->; [|reflexivity].
    unfold paragraphs_of.
    assert (strip input = []) as ->.
    { apply orb_true_iff in E as [E | E]; apply negb_true_iff in E.
      - destruct input; [reflexivity | discriminate].
      - destruct (strip input); [reflexivity | discriminate]. }
    reflexivity.
  - apply paragraphs_tokens;
      [apply paragraphs_of_tokens | apply token_invariant_initial].
Qed.
End zero_overlap.

(** C9. With [chunk_overlap = 0] the slice [words[-0:]] is the whole list.
    In the loop over the sentences and in the loop over the paragraphs
    alike, a piece that takes the non-empty buffer above [chunk_size]
    seals the buffer as a chunk and the next buffer starts with all the
    words of that chunk, joined by single spaces, before the piece.  So,
    for every input, the token lists of the chunks are those of
    [repeating]: each piece (a paragraph that fits, or a non-blank sentence
    of one that does not) is added to everything before it, and what is
    held is sealed before each piece that overflows and at the end.  Every
    chunk of the result but the first starts with all the tokens of the
    chunk before it, and its text starts with those tokens joined by single
    spaces. *)
Theorem chunk_zero_overlap_repeats (self : simple_chunker.SimpleTokenChunker) :
  simple_chunker.chunk_overlap self = 0%Z ->
  (forall words : list str, last_n (simple_chunker.chunk_overlap self) words = words)
  /\ (forall st sentence,
         truthy (strip sentence) = true ->
         truthy (simple_chunker.current_chunk st) = true ->
         (simple_chunker.current_tokens st + len (split sentence)
          > simple_chunker.chunk_size self)%Z ->
         let st' := simple_chunker.sentence_step self st sentence in
         simple_chunker.chunks st'
         = simple_chunker.chunks st
           ++ [simple_chunker.Chunk_init (simple_chunker.current_chunk st)
                                         (simple_chunker.current_tokens st)]
         /\ split (simple_chunker.current_chunk st')
            = split (simple_chunker.current_chunk st) ++ split sentence
         /\ (split (simple_chunker.current_chunk st) <> [] ->
             simple_chunker.current_chunk st'
             = join (lit " ") (split (simple_chunker.current_chunk st))
               ++ lit " " ++ sentence)
         /\ simple_chunker.current_tokens st'
            = (len (split (simple_chunker.current_chunk st))
               + len (split sentence))%Z)
  /\ (forall st paragraph,
         (len (split paragraph) <= simple_chunker.chunk_size self)%Z ->
         truthy (simple_chunker.current_chunk st) = true ->
         (simple_chunker.current_tokens st + len (split paragraph)
          > simple_chunker.chunk_size self)%Z ->
         let st' := simple_chunker.paragraph_step self st paragraph in
         simple_chunker.chunks st'
         = simple_chunker.chunks st
           ++ [simple_chunker.Chunk_init (simple_chunker.current_chunk st)
                                         (simple_chunker.current_tokens st)]
         /\ split (simple_chunker.current_chunk st')
            = split (simple_chunker.current_chunk st) ++ split paragraph
         /\ simple_chunker.current_chunk st'
            = join (lit " ") (split (simple_chunker.current_chunk st))
              ++ lit " " ++ paragraph
         /\ simple_chunker.current_tokens st'
            = (len (split (simple_chunker.current_chunk st))
               + len (split paragraph))%Z)
  /\ (forall input,
         map tokens_of (simple_chunker.chunk self input)
         = repeating (simple_chunker.chunk_size self) []
                     (map split (pieces self input)))
  /\ (forall input i a b,
         nth_error (simple_chunker.chunk self input) i = Some a ->
         nth_error (simple_chunker.chunk self input) (S i) = Some b ->
         (exists rest,
             split (simple_chunker.text b) = split (simple_chunker.text a) ++ rest)
         /\ (exists rest,
                simple_chunker.text b
                = join (lit " ") (split (simple_chunker.text a)) ++ rest)).
Proof.
  intros Hzero. split; [|split; [|split; [|split]]].
  - intros words. rewrite Hzero. apply last_n_zero.
  - intros st sentence. apply sentence_step_seals. exact Hzero.
  - intros st paragraph. apply paragraph_step_seals. exact Hzero.
  - apply chunk_repeating. exact Hzero.
  - intros input i a b Ha Hb.
    pose proof (chunk_chained self input i a b Ha Hb) as H.
    unfold seeded in H. rewrite Hzero, last_n_zero in H. exact H.
Qed.

Lemma chunk_zero_overlap_repeats_witness :
  map simple_chunker.text
      (simple_chunker.chunk (simple_chunker.mkChunker 3 0) sentences_and_paragraph)
  = [lit "a b"; lit "a b c d"; lit "a b c d e f"; lit "a b c d e f g h"]
  /\ map tokens_of
         (simple_chunker.chunk (simple_chunker.mkChunker 3 0) sentences_and_paragraph)
     = [split (lit "a b"); split (lit "a b c d"); split (lit "a b c d e f");
        split (lit "a b c d e f g h")]
  /\ simple_chunker.current_chunk
       (simple_chunker.sentence_step (simple_chunker.mkChunker 3 0)
          (simple_chunker.mkState [] (lit "a b") 2) (lit "c d"))
     = lit "a b c d"
  /\ simple_chunker.current_chunk
       (simple_chunker.paragraph_step (simple_chunker.mkChunker 3 0)
          (simple_chunker.mkState [] (lit "a b c d e f") 6) (lit "g h"))
     = lit "a b c d e f g h"
  /\ (exists rest, split (lit "a b c d") = split (lit "a b") ++ rest).
Proof.
  destruct (chunk_zero_overlap_repeats (simple_chunker.mkChunker 3 0) eq_refl)
    as (_ & Hsentence & Hparagraph & Hall & Hnext).
  split; [reflexivity|]. split; [rewrite Hall; reflexivity|].
  split; [|split].
  - destruct (Hsentence (simple_chunker.mkState [] (lit "a b") 2) (lit "c d")
                        eq_refl eq_refl eq_refl) as (_ & _ & Hseed & _).
    apply Hseed. discriminate.
  - destruct (Hparagraph (simple_chunker.mkState [] (lit "a b c d e f") 6)
                         (lit "g h"))
      as (_ & _ & Hseed & _);
      [vm_compute; discriminate | reflexivity | reflexivity | exact Hseed].
  - exact (proj1 (Hnext sentences_and_paragraph 0
                        (simple_chunker.mkChunk (lit "a b") 2)
                        (simple_chunker.mkChunk (lit "a b c d") 4)
                        eq_refl eq_refl)).
Defined.
